(** * A shallow embedding of the logger library

    The development follows the layout of the repository:
    - [JS]        : the fragment of JavaScript values the library manipulates
                    (plain objects with ordered keys, [Error] instances,
                    [JSON.stringify]);
    - [Timestamp] : src/utils/timestamp.ts;
    - [Types]     : src/types.ts;
    - [Formatters]: src/formatters/jsonl.ts and src/formatters/loki.ts;
    - [Console]   : src/formatters/console.ts;
    - [Retry]     : src/utils/retry.ts, over a small monad of asynchronous
                    computations;
    - [LokiTransport] : src/transports/loki.ts as a transition system;
    - [Logger]    : src/logger.ts. *)

From Stdlib Require Import String Ascii ZArith List Bool Lia.
From Stdlib Require Import Sorting.Sorted Sorting.Permutation.
From Stdlib Require Import Numbers.DecimalString Numbers.DecimalZ.
Import ListNotations.

Set Warnings "-register-all".

Local Open Scope string_scope.
Local Open Scope Z_scope.
Local Open Scope list_scope.

Infix "+:+" := String.append (at level 60, right associativity).

(* ===================================================================== *)
(** * JavaScript values *)
(* ===================================================================== *)

Module JS.

(** Values that can sit in a metadata record.  Numbers are the integers
    (printed in plain decimal); strings are sequences of 8-bit characters.
    Functions, symbols, numbers that are not integers and objects with a
    [toJSON] method are outside the model.
    [JCyclic] stands for an object that lies on a reference cycle (it holds
    itself, directly or through other objects): of such a value only two
    things are used, that it is an object and that [JSON.stringify]
    rejects it. *)
Inductive JSValue : Type :=
| JUndefined
| JNull
| JBool (b : bool)
| JNum (z : Z)
| JStr (s : string)
| JArr (items : list JSValue)
| JObj (props : list (string * JSValue))
| JBigInt (n : Z)
| JCyclic.

(** Insertion-ordered maps with string keys.  Plain objects and [Map]s keyed
    by strings are both enumerated in insertion order, and writing to an
    existing key keeps the key where it is. *)
Section OrderedMap.
Context {V : Type}.

(** [m.get(k)] / [o[k]]; [None] stands for an absent key. *)
Fixpoint omap_get (k : string) (m : list (string * V)) : option V :=
  match m with
  | [] => None
  | (k', v) :: m' => if String.eqb k k' then Some v else omap_get k m'
  end.

(** [m.set(k, v)] / [o[k] = v] (CreateDataProperty). *)
Fixpoint omap_set (k : string) (v : V) (m : list (string * V))
  : list (string * V) :=
  match m with
  | [] => [(k, v)]
  | (k', v') :: m' =>
      if String.eqb k k' then (k', v) :: m' else (k', v') :: omap_set k v m'
  end.

Definition omap_keys (m : list (string * V)) : list string := map fst m.
End OrderedMap.

(** A plain object: its own enumerable properties in enumeration order.
    Keys are kept in insertion order.  JavaScript enumerates the keys that
    are array indices first, in ascending order: for an object with such a
    key ([is_integer_key]) the order of the model is not that of the
    engine.  The properties that give the order of the keys of an object
    built from arbitrary metadata carry the hypothesis
    [no_integer_keys]. *)
Definition Obj : Type := list (string * JSValue).

Definition is_digit (c : ascii) : bool :=
  let n := nat_of_ascii c in andb (Nat.leb 48 n) (Nat.leb n 57).

Fixpoint all_digits (s : string) : bool :=
  match s with
  | EmptyString => true
  | String c s' => andb (is_digit c) (all_digits s')
  end.

(** The canonical decimal numerals: [0], or digits that do not start with
    [0].  The array indices (the numerals below [2^32 - 1]) are among
    them. *)
Definition is_integer_key (k : string) : bool :=
  match k with
  | EmptyString => false
  | String c EmptyString => is_digit c
  | String c rest =>
      andb (andb (is_digit c) (negb (Ascii.eqb c "0"))) (all_digits rest)
  end.

Definition no_integer_keys (o : Obj) : Prop :=
  forallb (fun kv : string * JSValue => negb (is_integer_key (fst kv))) o
  = true.

(** An object denotes a JavaScript object when no key occurs twice. *)
Definition wf_obj (o : Obj) : Prop := NoDup (omap_keys o).

Abbreviation obj_get := (@omap_get JSValue).
Abbreviation obj_set := (@omap_set JSValue).

Definition has_key (k : string) (o : Obj) : bool :=
  match obj_get k o with Some _ => true | None => false end.

(** [{ ...target, ...src }]: the properties of [src] are assigned in order. *)
Definition obj_spread (target src : Obj) : Obj :=
  fold_left (fun acc kv => obj_set (fst kv) (snd kv) acc) src target.

(** An object literal [{ k1: v1, ..., kn: vn }]. *)
Definition obj_literal (fields : list (string * JSValue)) : Obj :=
  obj_spread [] fields.

(** ToBoolean. *)
Definition truthy (v : JSValue) : bool :=
  match v with
  | JUndefined | JNull => false
  | JBool b => b
  | JNum z => negb (z =? 0)
  | JStr s => negb (String.eqb s EmptyString)
  | JArr _ | JObj _ | JCyclic => true
  | JBigInt n => negb (n =? 0)
  end.

(** An [Error] instance.  [message] and [stack] are own but not enumerable,
    [name] lives on the prototype; [err_own] holds whatever own enumerable
    properties the instance carries. *)
Record JSError : Type := mkError {
  err_name : string;
  err_message : string;
  err_stack : string;
  err_own : Obj
}.

(** A thrown value (or the reason of a rejected promise): an [Error]
    instance, or any other value, of which only [String(value)] is kept. *)
Inductive Thrown : Type :=
| ThrownError (e : JSError)
| ThrownValue (str : string).

(** How a call ends. *)
Inductive Result (R : Type) : Type :=
| Returned (r : R)
| Threw (e : Thrown).
Arguments Returned {R} r.
Arguments Threw {R} e.

(** The objects that reach the logger as a metadata argument. *)
Inductive JSObject : Type :=
| Plain (props : Obj)
| ErrorInstance (e : JSError).

(** Own enumerable properties, as seen by [{ ...x }], [Object.keys] and
    [JSON.stringify]. *)
Definition own_enumerable (x : JSObject) : Obj :=
  match x with
  | Plain props => props
  | ErrorInstance e => err_own e
  end.

(** Property read [x.k], [JUndefined] when the property is missing. *)
Definition get_prop (x : JSObject) (k : string) : JSValue :=
  match x with
  | Plain props =>
      match obj_get k props with Some v => v | None => JUndefined end
  | ErrorInstance e =>
      match obj_get k (err_own e) with
      | Some v => v
      | None =>
          if String.eqb k "message" then JStr (err_message e)
          else if String.eqb k "name" then JStr (err_name e)
          else if String.eqb k "stack" then JStr (err_stack e)
          else JUndefined
      end
  end.

(** ** JSON.stringify *)

Definition is_undefined (v : JSValue) : bool :=
  match v with JUndefined => true | _ => false end.

Definition dquote : ascii := ascii_of_nat 34.
Definition backslash : ascii := ascii_of_nat 92.

Definition hex_digit (n : nat) : ascii :=
  if Nat.ltb n 10 then ascii_of_nat (48 + n) else ascii_of_nat (87 + n).

(** QuoteJSONString, one character at a time. *)
Definition escape_char (c : ascii) : string :=
  let n := nat_of_ascii c in
  if Nat.eqb n 34 then String backslash (String dquote EmptyString)
  else if Nat.eqb n 92 then String backslash (String backslash EmptyString)
  else if Nat.eqb n 8 then String backslash "b"
  else if Nat.eqb n 9 then String backslash "t"
  else if Nat.eqb n 10 then String backslash "n"
  else if Nat.eqb n 12 then String backslash "f"
  else if Nat.eqb n 13 then String backslash "r"
  else if Nat.ltb n 32 then
    String backslash
      ("u00" +:+ String (hex_digit (Nat.div n 16))
                  (String (hex_digit (Nat.modulo n 16)) EmptyString))
  else String c EmptyString.

Fixpoint escape (s : string) : string :=
  match s with
  | EmptyString => EmptyString
  | String c s' => escape_char c +:+ escape s'
  end.

Definition quote (s : string) : string :=
  String dquote (escape s +:+ String dquote EmptyString).

Definition string_of_Z (z : Z) : string :=
  NilZero.string_of_int (Z.to_int z).

Fixpoint join (sep : string) (parts : list string) : string :=
  match parts with
  | [] => EmptyString
  | [p] => p
  | p :: rest => p +:+ sep +:+ join sep rest
  end.

(** [JSON.stringify] accepts the value: neither the value nor a part of it
    is a BigInt or lies on a reference cycle. *)
Fixpoint serializable (v : JSValue) : bool :=
  match v with
  | JBigInt _ | JCyclic => false
  | JArr items => forallb serializable items
  | JObj props =>
      forallb
        (fun kv : string * JSValue => let (_, v') := kv in serializable v')
        props
  | _ => true
  end.

(** The text of [JSON.stringify v] for a value in array or member
    position.  Members whose value is [undefined] are left out of objects;
    an [undefined] array element prints as [null].  A value that is not
    [serializable] has no text; the empty string stands in its place.  The
    call that can throw is [JSON_stringify_result], on which
    [formatJSONL_result] and [formatLokiPayload_result] are built;
    [formatJSONL], [labelKey] and [formatLokiPayload] give what these
    calls return, when they return. *)
Fixpoint JSON_stringify (v : JSValue) : string :=
  match v with
  | JBigInt _ | JCyclic => EmptyString
  | JUndefined => "null"
  | JNull => "null"
  | JBool true => "true"
  | JBool false => "false"
  | JNum z => string_of_Z z
  | JStr s => quote s
  | JArr items => "[" +:+ join "," (map JSON_stringify items) +:+ "]"
  | JObj props =>
      "{" +:+
      join ","
        (flat_map
           (fun kv : string * JSValue =>
              let (k, v') := kv in
              if is_undefined v' then []
              else [quote k +:+ ":" +:+ JSON_stringify v'])
           props)
      +:+ "}"
  end.

(** The [TypeError] of [JSON.stringify].  The text of its message is the
    engine's and differs between a BigInt and a cycle; no property depends
    on it. *)
Definition stringify_TypeError : JSError :=
  mkError "TypeError" "JSON.stringify cannot serialize the value"
    "TypeError: JSON.stringify cannot serialize the value" [].

(** The call [JSON.stringify(v)]: it throws on a value that is not
    [serializable]. *)
Definition JSON_stringify_result (v : JSValue) : Result string :=
  if serializable v then Returned (JSON_stringify v)
  else Threw (ThrownError stringify_TypeError).

End JS.

(* ===================================================================== *)
(** * src/utils/timestamp.ts *)
(* ===================================================================== *)

Module Timestamp.
Import JS.

Definition digit_val (c : ascii) : option Z :=
  let n := nat_of_ascii c in
  if andb (Nat.leb 48 n) (Nat.leb n 57) then Some (Z.of_nat (n - 48)) else None.

(** An unsigned decimal field of fixed width. *)
Fixpoint digits_val (acc : Z) (cs : list ascii) : option Z :=
  match cs with
  | [] => Some acc
  | c :: cs' =>
      match digit_val c with
      | Some d => digits_val (acc * 10 + d) cs'
      | None => None
      end
  end.

Definition is_leap (y : Z) : bool :=
  andb (y mod 4 =? 0) (orb (negb (y mod 100 =? 0)) (y mod 400 =? 0)).

Definition days_in_month (y m : Z) : Z :=
  if m =? 2 then (if is_leap y then 29 else 28)
  else if orb (orb (m =? 4) (m =? 6)) (orb (m =? 9) (m =? 11)) then 30
  else 31.

(** Days between 1970-01-01 and the proleptic Gregorian date y-m-d. *)
Definition days_from_civil (y m d : Z) : Z :=
  let y' := if m <=? 2 then y - 1 else y in
  let era := y' / 400 in
  let yoe := y' - era * 400 in
  let mp := if m <=? 2 then m + 9 else m - 3 in
  let doy := (153 * mp + 2) / 5 + d - 1 in
  let doe := yoe * 365 + yoe / 4 - yoe / 100 + doy in
  era * 146097 + doe - 719468.

(** [new Date(s).getTime()] for the date-time format that
    [Date.prototype.toISOString] writes, [YYYY-MM-DDTHH:mm:ss.sssZ];
    [None] is the time value NaN of an invalid date.  Other spellings of a
    date are not recognised by the model. *)
Definition getTime (s : string) : option Z :=
  match list_ascii_of_string s with
  | [y1; y2; y3; y4; s1; m1; m2; s2; d1; d2; t; h1; h2; c1; i1; i2; c2;
     e1; e2; p; f1; f2; f3; z] =>
      if andb (andb (andb (Ascii.eqb s1 "-") (Ascii.eqb s2 "-"))
                    (andb (Ascii.eqb t "T") (Ascii.eqb c1 ":")))
              (andb (andb (Ascii.eqb c2 ":") (Ascii.eqb p "."))
                    (Ascii.eqb z "Z"))
      then
        match digits_val 0 [y1; y2; y3; y4], digits_val 0 [m1; m2],
              digits_val 0 [d1; d2], digits_val 0 [h1; h2],
              digits_val 0 [i1; i2], digits_val 0 [e1; e2],
              digits_val 0 [f1; f2; f3] with
        | Some y, Some m, Some d, Some h, Some mi, Some sec, Some ms =>
            if andb (andb (andb (1 <=? m) (m <=? 12))
                          (andb (1 <=? d) (d <=? days_in_month y m)))
                    (andb (h <=? 23) (andb (mi <=? 59) (sec <=? 59)))
            then Some ((((days_from_civil y m d * 24 + h) * 60 + mi) * 60
                        + sec) * 1000 + ms)
            else None
        | _, _, _, _, _, _, _ => None
        end
      else None
  | _ => None
  end.

(** [toNanoseconds(date)] applied to a string.  An empty string is falsy and
    makes the function read the clock ([now], in milliseconds) instead.  The
    product is exact here; for four-digit years it has at most fifteen
    significant digits, which a double prints back unchanged. *)
Definition toNanoseconds (now : Z) (date : string) : string :=
  let ms :=
    if String.eqb date EmptyString then Some now else getTime date in
  match ms with
  | Some ms => string_of_Z (ms * 1000000)
  | None => "NaN"
  end.

End Timestamp.

(* ===================================================================== *)
(** * src/types.ts *)
(* ===================================================================== *)

Module Types.
Import JS.

Inductive LogLevel : Type := DEBUG | INFO | WARN | ERROR.

Definition level_string (l : LogLevel) : string :=
  match l with
  | DEBUG => "debug"
  | INFO => "info"
  | WARN => "warn"
  | ERROR => "error"
  end.

Record LogEntry : Type := mkEntry {
  timestamp : string;
  level : LogLevel;
  service : string;
  message : string;
  metadata : option JSObject
}.

(** [{ ...(entry.metadata && { ...entry.metadata }) }]: the properties a
    formatter spreads into its output object. *)
Definition metadata_props (entry : LogEntry) : Obj :=
  match metadata entry with
  | Some m => own_enumerable m
  | None => []
  end.

(** A stream of the push payload.  The label object [stream] is kept as its
    JSON text (see [formatLokiPayload]); [values] are the pairs of a
    timestamp in nanoseconds and a log line. *)
Record LokiStream : Type := mkStream {
  stream : string;
  values : list (string * string)
}.

Record LokiPushPayload : Type := mkPayload {
  streams : list LokiStream
}.

End Types.

(* ===================================================================== *)
(** * src/formatters *)
(* ===================================================================== *)

Module Formatters.
Import JS Timestamp Types.

Definition newline : string := String (ascii_of_nat 10) EmptyString.

(** ** jsonl.ts *)

Definition logObject (entry : LogEntry) : Obj :=
  obj_spread
    (obj_literal
       [("timestamp", JStr (timestamp entry));
        ("level", JStr (level_string (level entry)));
        ("service", JStr (service entry));
        ("message", JStr (message entry))])
    (metadata_props entry).

(** The line that [formatJSONL(entry)] returns. *)
Definition formatJSONL (entry : LogEntry) : string :=
  JSON_stringify (JObj (logObject entry)) +:+ newline.

(** The call [formatJSONL(entry)]: it throws when [JSON.stringify] does. *)
Definition formatJSONL_result (entry : LogEntry) : Result string :=
  match JSON_stringify_result (JObj (logObject entry)) with
  | Returned text => Returned (text +:+ newline)
  | Threw error => Threw error
  end.

(** ** loki.ts *)

(** [entry.metadata?.event] *)
Definition event_of (entry : LogEntry) : JSValue :=
  match metadata entry with
  | Some m => get_prop m "event"
  | None => JUndefined
  end.

(** The label object of line 24:
    [{ service, level, ...(event && { event }), ...staticLabels }]. *)
Definition labelsOf (staticLabels : Obj) (entry : LogEntry) : Obj :=
  let event := event_of entry in
  obj_spread
    (obj_spread
       (obj_literal
          [("service", JStr (service entry));
           ("level", JStr (level_string (level entry)))])
       (if truthy event then [("event", event)] else []))
    staticLabels.

Definition labelKey (staticLabels : Obj) (entry : LogEntry) : string :=
  JSON_stringify (JObj (labelsOf staticLabels entry)).

(** One iteration of the grouping loop: the group stored under the key (or
    a new one) receives the entry and is stored again. *)
Definition groupStep (staticLabels : Obj)
    (streamMap : list (string * list LogEntry)) (entry : LogEntry)
  : list (string * list LogEntry) :=
  let key := labelKey staticLabels entry in
  let group :=
    match omap_get key streamMap with Some g => g | None => [] end in
  omap_set key (group ++ [entry]) streamMap.

Definition groupEntries (staticLabels : Obj) (entries : list LogEntry)
  : list (string * list LogEntry) :=
  fold_left (groupStep staticLabels) entries [].

(** The log line of one entry: [{ message, ...metadata }]. *)
Definition logLine (entry : LogEntry) : Obj :=
  obj_spread (obj_literal [("message", JStr (message entry))])
             (metadata_props entry).

Definition streamValue (now : Z) (entry : LogEntry) : string * string :=
  (toNanoseconds now (timestamp entry), JSON_stringify (JObj (logLine entry))).

(** The payload that [formatLokiPayload(entries, staticLabels)] returns.
    A stream's label object is [JSON.parse(labelKey)]; it is kept as its
    JSON text, which is what [JSON.stringify(payload)] writes back on the
    wire.  [now] is the clock value read by [toNanoseconds] for an entry
    without a timestamp. *)
Definition formatLokiPayload (now : Z) (entries : list LogEntry)
    (staticLabels : Obj) : LokiPushPayload :=
  let streamMap := groupEntries staticLabels entries in
  mkPayload
    (map (fun kg : string * list LogEntry =>
            mkStream (fst kg) (map (streamValue now) (snd kg)))
         streamMap).

(** The call [formatLokiPayload(entries, staticLabels)], statement by
    statement: each [JSON.stringify] may throw, and the exception leaves
    the function.  First the grouping loop, entered with the map built so
    far. *)
Fixpoint groupEntries_result (staticLabels : Obj) (entries : list LogEntry)
    (streamMap : list (string * list LogEntry))
  : Result (list (string * list LogEntry)) :=
  match entries with
  | [] => Returned streamMap
  | entry :: rest =>
      match JSON_stringify_result (JObj (labelsOf staticLabels entry)) with
      | Returned labelKey =>
          let group :=
            match omap_get labelKey streamMap with
            | Some g => g
            | None => []
            end in
          groupEntries_result staticLabels rest
            (omap_set labelKey (group ++ [entry]) streamMap)
      | Threw error => Threw error
      end
  end.

(** [groupEntries.map((entry) => [toNanoseconds(...), JSON.stringify(logLine)])] *)
Fixpoint values_result (now : Z) (group : list LogEntry)
  : Result (list (string * string)) :=
  match group with
  | [] => Returned []
  | entry :: rest =>
      match JSON_stringify_result (JObj (logLine entry)) with
      | Returned line =>
          match values_result now rest with
          | Returned values =>
              Returned ((toNanoseconds now (timestamp entry), line) :: values)
          | Threw error => Threw error
          end
      | Threw error => Threw error
      end
  end.

(** The loop over the groups. *)
Fixpoint streams_result (now : Z) (streamMap : list (string * list LogEntry))
  : Result (list LokiStream) :=
  match streamMap with
  | [] => Returned []
  | (labelKey, group) :: rest =>
      match values_result now group with
      | Returned values =>
          match streams_result now rest with
          | Returned streams => Returned (mkStream labelKey values :: streams)
          | Threw error => Threw error
          end
      | Threw error => Threw error
      end
  end.

Definition formatLokiPayload_result (now : Z) (entries : list LogEntry)
    (staticLabels : Obj) : Result LokiPushPayload :=
  match groupEntries_result staticLabels entries [] with
  | Returned streamMap =>
      match streams_result now streamMap with
      | Returned streams => Returned (mkPayload streams)
      | Threw error => Threw error
      end
  | Threw error => Threw error
  end.

End Formatters.

(** ** src/formatters/console.ts *)

Module Console.
Import JS Types.

Definition esc : ascii := ascii_of_nat 27.

(** The ANSI colour codes that the formatter uses. *)
Module Colors.
Definition Reset : string := String esc "[0m".
Definition Dim : string := String esc "[2m".
Definition Red : string := String esc "[31m".
Definition Yellow : string := String esc "[33m".
Definition Cyan : string := String esc "[36m".
Definition Gray : string := String esc "[90m".
End Colors.

Definition getLevelColor (level : LogLevel) : string :=
  match level with
  | DEBUG => Colors.Gray
  | INFO => Colors.Cyan
  | WARN => Colors.Yellow
  | ERROR => Colors.Red
  end.

(** [String.prototype.toUpperCase], on the letters of ASCII. *)
Definition upper_char (c : ascii) : ascii :=
  let n := nat_of_ascii c in
  if andb (Nat.leb 97 n) (Nat.leb n 122) then ascii_of_nat (n - 32) else c.

Fixpoint toUpperCase (s : string) : string :=
  match s with
  | EmptyString => EmptyString
  | String c s' => String (upper_char c) (toUpperCase s')
  end.

Fixpoint spaces (n : nat) : string :=
  match n with
  | O => EmptyString
  | S n' => String " " (spaces n')
  end.

(** [s.padEnd(n)] *)
Definition padEnd (n : nat) (s : string) : string :=
  s +:+ spaces (n - String.length s).

Definition formatLevel (level : LogLevel) : string :=
  getLevelColor level
  +:+ padEnd 5 (toUpperCase (level_string level))
  +:+ Colors.Reset.

(** [formatMetadata(metadata)]: the empty string for metadata that are
    missing, have no key, or make [JSON.stringify] throw. *)
Definition formatMetadata (metadata : option JSObject) : string :=
  match metadata with
  | None => EmptyString
  | Some m =>
      if Nat.eqb (length (omap_keys (own_enumerable m))) 0 then EmptyString
      else
        match JSON_stringify_result (JObj (own_enumerable m)) with
        | Returned text => " " +:+ Colors.Dim +:+ text +:+ Colors.Reset
        | Threw _ => EmptyString
        end
  end.

(** [formatConsoleLog(entry)]; [stamp] is the local time that
    [formatConsoleTimestamp(entry.timestamp)] writes in the time zone of
    the process. *)
Definition formatConsoleLog (stamp : string) (entry : LogEntry) : string :=
  Colors.Gray +:+ "[" +:+ stamp +:+ "]" +:+ Colors.Reset +:+ " "
  +:+ formatLevel (level entry) +:+ ": " +:+ message entry
  +:+ formatMetadata (metadata entry).

End Console.

(* ===================================================================== *)
(** * Asynchronous computations *)
(* ===================================================================== *)

Module Async.
Import JS.

(** How a promise settles. *)
Inductive Outcome (A : Type) : Type :=
| Resolved (a : A)
| Rejected (reason : Thrown).
Arguments Resolved {A} a.
Arguments Rejected {A} reason.

(** The body of an [async] function, up to the points where it is suspended:
    - [Call q k]: [await] of an operation [q] of the environment (an HTTP
      request, an opaque callback); [k] resumes with the way it settled;
    - [Sleep ms k]: [await sleep(ms)];
    - [ConsoleError msg err k]: [console.error(msg, err)], which does not
      suspend.
    [Ret] and [Throw] end the function: its promise is fulfilled or
    rejected. *)
Inductive Prog (Q A R : Type) : Type :=
| Ret (r : R)
| Throw (e : Thrown)
| Call (q : Q) (k : Outcome A -> Prog Q A R)
| Sleep (ms : Z) (k : Prog Q A R)
| ConsoleError (msg : string) (err : Thrown) (k : Prog Q A R).
Arguments Ret {Q A R} r.
Arguments Throw {Q A R} e.
Arguments Call {Q A R} q k.
Arguments Sleep {Q A R} ms k.
Arguments ConsoleError {Q A R} msg err k.

Section Combinators.
Context {Q A : Type}.

(** [const x = await p; f(x)] *)
Fixpoint bind {R S : Type} (p : Prog Q A R) (f : R -> Prog Q A S)
  : Prog Q A S :=
  match p with
  | Ret r => f r
  | Throw e => Throw e
  | Call q k => Call q (fun o => bind (k o) f)
  | Sleep ms k => Sleep ms (bind k f)
  | ConsoleError msg err k => ConsoleError msg err (bind k f)
  end.

(** [try { return await p } catch (error) { h(error) }] *)
Fixpoint try_catch {R : Type} (p : Prog Q A R) (h : Thrown -> Prog Q A R)
  : Prog Q A R :=
  match p with
  | Ret r => Ret r
  | Throw e => h e
  | Call q k => Call q (fun o => try_catch (k o) h)
  | Sleep ms k => Sleep ms (try_catch k h)
  | ConsoleError msg err k => ConsoleError msg err (try_catch k h)
  end.

(** An opaque asynchronous function: the environment decides how each
    invocation settles. *)
Definition invoke (q : Q) : Prog Q A A :=
  Call q (fun o =>
            match o with
            | Resolved a => Ret a
            | Rejected e => Throw e
            end).
End Combinators.

(** What an observer sees of a run. *)
Inductive Event (Q : Type) : Type :=
| EvCall (q : Q)
| EvSleep (ms : Z)
| EvConsole (msg : string) (err : Thrown).
Arguments EvCall {Q} q.
Arguments EvSleep {Q} ms.
Arguments EvConsole {Q} msg err.

(** Running a computation to its end against an environment that settles
    the [n]-th awaited operation with [env n].  The result carries the
    events in the order they happen and the number of operations awaited. *)
Fixpoint run {Q A R : Type} (env : nat -> Outcome A) (n : nat)
    (p : Prog Q A R) : list (Event Q) * Result R * nat :=
  match p with
  | Ret r => ([], Returned r, n)
  | Throw e => ([], Threw e, n)
  | Call q k =>
      let '(tr, res, n') := run env (S n) (k (env n)) in
      (EvCall q :: tr, res, n')
  | Sleep ms k =>
      let '(tr, res, n') := run env n k in
      (EvSleep ms :: tr, res, n')
  | ConsoleError msg err k =>
      let '(tr, res, n') := run env n k in
      (EvConsole msg err :: tr, res, n')
  end.

Definition trace_of {Q A R} (env : nat -> Outcome A) (p : Prog Q A R)
  : list (Event Q) := fst (fst (run env 0 p)).

Definition result_of {Q A R} (env : nat -> Outcome A) (p : Prog Q A R)
  : Result R := snd (fst (run env 0 p)).

Definition is_call {Q} (ev : Event Q) : bool :=
  match ev with EvCall _ => true | _ => false end.

(** Number of operations awaited, and the delays slept, in a trace. *)
Definition calls {Q} (tr : list (Event Q)) : nat :=
  length (filter is_call tr).

Fixpoint sleeps {Q} (tr : list (Event Q)) : list Z :=
  match tr with
  | [] => []
  | EvSleep ms :: tr' => ms :: sleeps tr'
  | _ :: tr' => sleeps tr'
  end.

Fixpoint console_of {Q} (tr : list (Event Q)) : list (string * Thrown) :=
  match tr with
  | [] => []
  | EvConsole msg err :: tr' => (msg, err) :: console_of tr'
  | _ :: tr' => console_of tr'
  end.

End Async.

(* ===================================================================== *)
(** * src/utils/retry.ts *)
(* ===================================================================== *)

Module Retry.
Import JS Async.

(** [new Error(msg)]; of the stack only the first line is kept. *)
Definition new_Error (msg : string) : JSError :=
  mkError "Error" msg ("Error: " +:+ msg) [].

(** [error instanceof Error ? error : new Error(String(error))] *)
Definition toError (error : Thrown) : JSError :=
  match error with
  | ThrownError e => e
  | ThrownValue str => new_Error str
  end.

(** [throw lastError], where [lastError] may still be [undefined]. *)
Definition throw_lastError {Q A T} (lastError : option JSError)
  : Prog Q A T :=
  match lastError with
  | Some e => Throw (ThrownError e)
  | None => Throw (ThrownValue "undefined")
  end.

(** The [for] loop of [retryWithBackoff], entered with the current value of
    [attempt] and of [lastError].  [fuel] bounds the number of iterations
    still to run. *)
Fixpoint retry_loop {Q A T} (fn : Prog Q A T) (retries baseDelay : Z)
    (fuel : nat) (attempt : Z) (lastError : option JSError) : Prog Q A T :=
  match fuel with
  | O => throw_lastError lastError
  | S fuel' =>
      if attempt <=? retries then
        try_catch fn
          (fun error =>
             let lastError := Some (toError error) in
             if attempt =? retries then throw_lastError lastError
             else
               let delay := baseDelay * 2 ^ attempt in
               Sleep delay
                 (retry_loop fn retries baseDelay fuel' (attempt + 1)
                    lastError))
      else throw_lastError lastError
  end.

(** [retryWithBackoff(fn, retries, baseDelay)].  The loop runs for
    [attempt = 0 .. retries], that is [retries + 1] times at most. *)
Definition retryWithBackoff {Q A T} (fn : Prog Q A T)
    (retries baseDelay : Z) : Prog Q A T :=
  retry_loop fn retries baseDelay (Z.to_nat (retries + 1)) 0 None.

End Retry.

(* ===================================================================== *)
(** * src/transports/loki.ts *)
(* ===================================================================== *)

Module LokiTransport.
Import JS Timestamp Types Formatters Async Retry.

(** ** [Array.prototype.sort] *)

(** The specification of [sort] fixes the result, not the algorithm: the
    sort is stable.  It is modelled by a stable insertion sort; a comparator
    result of NaN ([None]) counts as [+0]. *)
Section ArraySort.
Context {A : Type} (compareFn : A -> A -> option Z).

Definition sorts_before (a b : A) : bool :=
  match compareFn a b with
  | Some z => z <? 0
  | None => false
  end.

Fixpoint insert (x : A) (l : list A) : list A :=
  match l with
  | [] => [x]
  | y :: l' => if sorts_before y x then y :: insert x l' else x :: y :: l'
  end.

Fixpoint Array_sort (l : list A) : list A :=
  match l with
  | [] => []
  | x :: l' => insert x (Array_sort l')
  end.
End ArraySort.

(** [(a, b) => new Date(a.timestamp).getTime() - new Date(b.timestamp).getTime()] *)
Definition byTimestamp (a b : LogEntry) : option Z :=
  match getTime (timestamp a), getTime (timestamp b) with
  | Some x, Some y => Some (x - y)
  | _, _ => None
  end.

(** ** Configuration and fields *)

Record LokiConfig : Type := mkConfig {
  cfg_batchInterval : option Z;
  cfg_batchSize : option Z;
  cfg_retries : option Z;
  cfg_timeout : option Z;
  cfg_compress : option bool;
  cfg_basicAuth : option string;
  cfg_labels : option Obj
}.

Definition emptyConfig : LokiConfig :=
  mkConfig None None None None None None None.

(** [a ?? b] *)
Definition nullish {A} (a : option A) (b : A) : A :=
  match a with Some x => x | None => b end.

Record t : Type := mk {
  batch : list LogEntry;
  batchTimer : option nat;
  isFlushing : bool;
  lokiUrl : string;
  batchInterval : Z;
  batchSize : Z;
  retries : Z;
  timeout : Z;
  compress : bool;
  basicAuth : option string;
  staticLabels : Obj
}.

Definition set_batch (b : list LogEntry) (s : t) : t :=
  mk b (batchTimer s) (isFlushing s) (lokiUrl s) (batchInterval s)
     (batchSize s) (retries s) (timeout s) (compress s) (basicAuth s)
     (staticLabels s).

Definition set_batchTimer (h : option nat) (s : t) : t :=
  mk (batch s) h (isFlushing s) (lokiUrl s) (batchInterval s)
     (batchSize s) (retries s) (timeout s) (compress s) (basicAuth s)
     (staticLabels s).

Definition set_isFlushing (f : bool) (s : t) : t :=
  mk (batch s) (batchTimer s) f (lokiUrl s) (batchInterval s)
     (batchSize s) (retries s) (timeout s) (compress s) (basicAuth s)
     (staticLabels s).

(** The constructor removes one trailing slash from the URL. *)
Fixpoint strip_trailing_slash (url : string) : string :=
  match url with
  | EmptyString => EmptyString
  | String c EmptyString => if Ascii.eqb c "/" then EmptyString else url
  | String c rest => String c (strip_trailing_slash rest)
  end.

(** ** The HTTP exchange *)

Inductive Body : Type :=
| TextBody (json : string)
| GzipBody (json : string).   (* Bun.gzipSync of the encoded text *)

Inductive HeaderValue : Type :=
| Literal (v : string)
| BasicAuth (credential : string).   (* "Basic " + btoa(credential) *)

Record Request : Type := mkRequest {
  req_url : string;
  req_headers : list (string * HeaderValue);
  req_body : Body;
  req_timeout : Z
}.

(** The response, with its body text already read. *)
Record Response : Type := mkResponse {
  status : Z;
  text : string
}.

Definition response_ok (r : Response) : bool :=
  andb (200 <=? status r) (status r <=? 299).

Definition SendProg : Type := Prog Request Response unit.

(** [JSON.stringify(payload)] *)
Definition payload_json (payload : LokiPushPayload) : string :=
  let value_json (v : string * string) :=
    "[" +:+ quote (fst v) +:+ "," +:+ quote (snd v) +:+ "]" in
  let stream_json (st : LokiStream) :=
    "{" +:+ quote "stream" +:+ ":" +:+ stream st +:+ "," +:+ quote "values"
        +:+ ":[" +:+ join "," (map value_json (values st)) +:+ "]}" in
  "{" +:+ quote "streams" +:+ ":[" +:+ join "," (map stream_json (streams payload))
      +:+ "]}".

(** The request that [sendToLoki] issues. *)
Definition buildRequest (s : t) (payload : LokiPushPayload) : Request :=
  let url := lokiUrl s +:+ "/loki/api/v1/push" in
  let body := payload_json payload in
  let headers := [("Content-Type", Literal "application/json")] in
  let '(body, headers) :=
    if compress s
    then (GzipBody body, headers ++ [("Content-Encoding", Literal "gzip")])
    else (TextBody body, headers) in
  let headers :=
    match basicAuth s with
    | Some cred =>
        if String.eqb cred EmptyString then headers
        else headers ++ [("Authorization", BasicAuth cred)]
    | None => headers
    end in
  mkRequest url headers body (timeout s).

(** What [sendToLoki] makes of the way [fetch] settled: a response that is
    not [ok] is thrown as an [Error], a rejection (network error, abort on
    timeout) is passed on. *)
Definition checkResponse (o : Outcome Response) : SendProg :=
  match o with
  | Resolved response =>
      if response_ok response then Ret tt
      else
        Throw (ThrownError
                 (new_Error ("Loki responded with "
                             +:+ string_of_Z (status response)
                             +:+ ": " +:+ text response)))
  | Rejected e => Throw e
  end.

Definition sendToLoki (s : t) (payload : LokiPushPayload) : SendProg :=
  Call (buildRequest s payload) checkResponse.

(** ** Methods *)

(** What a call of [sendBatch()] leaves behind when it passes the guard: the
    sorted local [entries], the payload (the one that [formatLokiPayload]
    returns, when it returns), and the rest of the function body: it has
    started and is suspended in its first [await], or it has thrown the
    exception of [formatLokiPayload], which rejects the promise. *)
Record SendTask : Type := mkTask {
  task_entries : list LogEntry;
  task_payload : LokiPushPayload;
  task_body : SendProg
}.

Definition dropped_message (n : nat) (r : Z) : string :=
  "Failed to send " +:+ string_of_Z (Z.of_nat n) +:+ " logs to Loki after "
  +:+ string_of_Z r +:+ " retries:".

(** [sendBatch()].  [None] is the early [return] of the guard. *)
Definition sendBatch (now : Z) (s : t) : t * option SendTask :=
  if orb (Nat.eqb (length (batch s)) 0) (isFlushing s) then (s, None)
  else
    let entries := batch s in
    let s := set_batch [] s in
    let entries := Array_sort byTimestamp entries in
    (s, Some (mkTask entries
                (formatLokiPayload now entries (staticLabels s))
                match formatLokiPayload_result now entries (staticLabels s) with
                | Threw error => Throw error
                | Returned payload =>
                    try_catch
                      (retryWithBackoff (sendToLoki s payload) (retries s)
                         1000)
                      (fun error =>
                         ConsoleError
                           (dropped_message (length entries) (retries s))
                           error (Ret tt))
                end)).

(** [this.sendBatch().catch((error) => console.error(..., error))] *)
Definition sendBatch_caught (now : Z) (s : t) : t * option SendTask :=
  let '(s', task) := sendBatch now s in
  (s', match task with
       | Some tk =>
           Some (mkTask (task_entries tk) (task_payload tk)
                   (try_catch (task_body tk)
                      (fun error =>
                         ConsoleError "Failed to send Loki batch:" error
                           (Ret tt))))
       | None => None
       end).

(** [log(entry)] *)
Definition log (now : Z) (entry : LogEntry) (s : t) : t * option SendTask :=
  let s := set_batch (batch s ++ [entry]) s in
  if Z.of_nat (length (batch s)) >=? batchSize s
  then sendBatch_caught now s
  else (s, None).

(** The callback given to [setInterval] by [startBatchTimer]. *)
Definition timerCallback (now : Z) (s : t) : t * option SendTask :=
  if 0 <? Z.of_nat (length (batch s))
  then sendBatch_caught now s
  else (s, None).

(** [startBatchTimer()]; [handle] is what [setInterval] returns (every
    handle is truthy). *)
Definition startBatchTimer (handle : nat) (s : t) : t :=
  set_batchTimer (Some handle) s.

(** [new LokiTransport(lokiUrl, config)] *)
Definition create (lokiUrl : string) (config : LokiConfig) (handle : nat) : t :=
  startBatchTimer handle
   (mk [] None false
     (strip_trailing_slash lokiUrl)
     (nullish (cfg_batchInterval config) 5000)
     (nullish (cfg_batchSize config) 100)
     (nullish (cfg_retries config) 3)
     (nullish (cfg_timeout config) 30000)
     (nullish (cfg_compress config) true)
     (cfg_basicAuth config)
     (nullish (cfg_labels config) [])).

(** ** The transport in its runtime

    Between two suspension points JavaScript runs without interruption, so
    the behaviour of one transport is a transition system whose steps are
    the calls made on it ([log], [flush]) and the resumptions scheduled by
    the runtime (interval timer, settled request, elapsed sleep, resumed
    [await]).  The order in which the runtime makes its steps is left open:
    the system allows every interleaving of an event loop, and some more
    (a resumed [await] may be overtaken by a timer). *)

Inductive Obs : Type :=
| ObsTaken (id : nat) (entries : list LogEntry)
| ObsRequest (id : nat) (req : Request)
| ObsSleep (id : nat) (ms : Z)
| ObsConsole (msg : string) (err : Thrown)
| ObsSettled (id : nat) (fulfilled : bool)
| ObsFlushed (fulfilled : bool).

Record World : Type := mkWorld {
  sink : t;
  clock : Z;
  timers : list nat;               (* intervals registered with the runtime *)
  tasks : list (nat * SendProg);   (* pending [sendBatch] promises *)
  settled : list (nat * bool);     (* settled ones: fulfilled or rejected *)
  waiters : list (option nat);     (* [flush] calls suspended in their await *)
  nextId : nat;
  history : list Obs               (* oldest first *)
}.

Inductive Input : Type :=
| InLog (entry : LogEntry)
| InFlush
| InTick (handle : nat)
| InRespond (id : nat) (o : Outcome Response)
| InWake (id : nat)
| InResume (j : nat)
| InClock (now : Z).

Definition init (lokiUrl : string) (config : LokiConfig) (now : Z) : World :=
  mkWorld (create lokiUrl config 1) now [1%nat] [] [] [] 0 [].

Definition with_sink (s : t) (w : World) : World :=
  mkWorld s (clock w) (timers w) (tasks w) (settled w) (waiters w)
          (nextId w) (history w).

Fixpoint remove_task (id : nat) (l : list (nat * SendProg))
  : list (nat * SendProg) :=
  match l with
  | [] => []
  | (i, p) :: l' => if Nat.eqb i id then l' else (i, p) :: remove_task id l'
  end.

Fixpoint find_task (id : nat) (l : list (nat * SendProg)) : option SendProg :=
  match l with
  | [] => None
  | (i, p) :: l' => if Nat.eqb i id then Some p else find_task id l'
  end.

Fixpoint find_settled (id : nat) (l : list (nat * bool)) : option bool :=
  match l with
  | [] => None
  | (i, b) :: l' => if Nat.eqb i id then Some b else find_settled id l'
  end.

(** Runs the body of task [id] up to its next suspension point, or to its
    end. *)
Fixpoint advance (id : nat) (p : SendProg) (w : World) : World :=
  match p with
  | Ret _ =>
      mkWorld (sink w) (clock w) (timers w) (remove_task id (tasks w))
              ((id, true) :: settled w) (waiters w) (nextId w)
              (history w ++ [ObsSettled id true])
  | Throw _ =>
      mkWorld (sink w) (clock w) (timers w) (remove_task id (tasks w))
              ((id, false) :: settled w) (waiters w) (nextId w)
              (history w ++ [ObsSettled id false])
  | Call q _ =>
      mkWorld (sink w) (clock w) (timers w)
              ((id, p) :: remove_task id (tasks w))
              (settled w) (waiters w) (nextId w)
              (history w ++ [ObsRequest id q])
  | Sleep ms _ =>
      mkWorld (sink w) (clock w) (timers w)
              ((id, p) :: remove_task id (tasks w))
              (settled w) (waiters w) (nextId w)
              (history w ++ [ObsSleep id ms])
  | ConsoleError msg err k =>
      advance id k
        (mkWorld (sink w) (clock w) (timers w) (tasks w) (settled w)
                 (waiters w) (nextId w) (history w ++ [ObsConsole msg err]))
  end.

(** A call of [sendBatch] has returned [r]: the new field values are stored
    and, when the guard was passed, the started body becomes a task.  The
    result is the new world and the identity of the promise ([None] for a
    promise that is already fulfilled). *)
Definition spawn (r : t * option SendTask) (w : World) : World * option nat :=
  match snd r with
  | None => (with_sink (fst r) w, None)
  | Some tk =>
      let id := nextId w in
      let w1 :=
        mkWorld (fst r) (clock w) (timers w) (tasks w) (settled w)
                (waiters w) (S id)
                (history w ++ [ObsTaken id (task_entries tk)]) in
      (advance id (task_body tk) w1, Some id)
  end.

(** [flush()] up to its [await], or to its end when there is none. *)
Definition flush (w : World) : World :=
  let s := sink w in
  let '(s, timers') :=
    match batchTimer s with
    | Some h => (set_batchTimer None s, remove Nat.eq_dec h (timers w))
    | None => (s, timers w)
    end in
  let s := set_isFlushing true s in
  let w :=
    mkWorld s (clock w) timers' (tasks w) (settled w) (waiters w)
            (nextId w) (history w) in
  if 0 <? Z.of_nat (length (batch s)) then
    let '(w', promise) := spawn (sendBatch (clock w) s) w in
    mkWorld (sink w') (clock w') (timers w') (tasks w') (settled w')
            (waiters w' ++ [promise]) (nextId w') (history w')
  else
    mkWorld (set_isFlushing false s) (clock w) (timers w) (tasks w)
            (settled w) (waiters w) (nextId w)
            (history w ++ [ObsFlushed true]).

Fixpoint remove_nth {A} (j : nat) (l : list A) : list A :=
  match j, l with
  | _, [] => []
  | O, _ :: l' => l'
  | S j', x :: l' => x :: remove_nth j' l'
  end.

(** The rest of [flush()] once the awaited promise is settled: the flag is
    cleared when it was fulfilled; a rejection leaves the function at the
    [await]. *)
Definition flush_resume (j : nat) (w : World) : option World :=
  match nth_error (waiters w) j with
  | None => None
  | Some promise =>
      let outcome :=
        match promise with
        | None => Some true
        | Some id => find_settled id (settled w)
        end in
      match outcome with
      | None => None
      | Some true =>
          Some (mkWorld (set_isFlushing false (sink w)) (clock w) (timers w)
                  (tasks w) (settled w) (remove_nth j (waiters w))
                  (nextId w) (history w ++ [ObsFlushed true]))
      | Some false =>
          Some (mkWorld (sink w) (clock w) (timers w)
                  (tasks w) (settled w) (remove_nth j (waiters w))
                  (nextId w) (history w ++ [ObsFlushed false]))
      end
  end.

(** One step; [None] when the runtime cannot make it (no such timer, task
    or suspended call). *)
Definition step (w : World) (i : Input) : option World :=
  match i with
  | InLog entry => Some (fst (spawn (log (clock w) entry (sink w)) w))
  | InFlush => Some (flush w)
  | InTick h =>
      if existsb (Nat.eqb h) (timers w)
      then Some (fst (spawn (timerCallback (clock w) (sink w)) w))
      else None
  | InRespond id o =>
      match find_task id (tasks w) with
      | Some (Call _ k) => Some (advance id (k o) w)
      | _ => None
      end
  | InWake id =>
      match find_task id (tasks w) with
      | Some (Sleep _ k) => Some (advance id k w)
      | _ => None
      end
  | InResume j => flush_resume j w
  | InClock now =>
      Some (mkWorld (sink w) now (timers w) (tasks w) (settled w)
              (waiters w) (nextId w) (history w))
  end.

Fixpoint exec (w : World) (inputs : list Input) : option World :=
  match inputs with
  | [] => Some w
  | i :: rest =>
      match step w i with
      | Some w' => exec w' rest
      | None => None
      end
  end.

(** The worlds a transport can be in. *)
Definition reachable (w0 w : World) : Prop :=
  exists inputs, exec w0 inputs = Some w.

(** The entries given to [log], and the batches taken by [sendBatch], in
    order. *)
Fixpoint logged (inputs : list Input) : list LogEntry :=
  match inputs with
  | [] => []
  | InLog e :: rest => e :: logged rest
  | _ :: rest => logged rest
  end.

Fixpoint taken (h : list Obs) : list (list LogEntry) :=
  match h with
  | [] => []
  | ObsTaken _ entries :: rest => entries :: taken rest
  | _ :: rest => taken rest
  end.

Fixpoint requests (h : list Obs) : list (nat * Request) :=
  match h with
  | [] => []
  | ObsRequest id q :: rest => (id, q) :: requests rest
  | _ :: rest => requests rest
  end.

End LokiTransport.

(* ===================================================================== *)
(** * src/logger.ts *)
(* ===================================================================== *)

Module Logger.
Import JS Timestamp Types Formatters Async.

Record LoggerConfig : Type := mkLoggerConfig {
  cfg_service : string;
  cfg_environment : option string;
  cfg_host : option string;
  cfg_enableConsole : option bool;
  cfg_enableFile : option bool;
  cfg_file : option string;
  cfg_enableLoki : option bool;
  cfg_lokiUrl : option string;
  cfg_loki : option LokiTransport.LokiConfig
}.

(** The three transports with what they have produced so far: the entries
    printed by the console transport, the lines queued for the file, and
    the world of the Loki transport. *)
Inductive Transport : Type :=
| ConsoleTransport (printed : list LogEntry)
| FileTransport (filePath : string) (written : list string)
| Loki (w : LokiTransport.World).

Record t : Type := mk {
  transports : list Transport;
  service : string;
  environment : option string;
  host : option string
}.

(** A string option used as a condition: absent and empty are falsy. *)
Definition present (s : option string) : option string :=
  match s with
  | Some v => if String.eqb v EmptyString then None else Some v
  | None => None
  end.

(** [config.x !== false] *)
Definition not_false (b : option bool) : bool :=
  match b with Some false => false | _ => true end.

Definition lokiLabels (config : LoggerConfig) : Obj :=
  obj_spread
    (obj_spread []
       (match present (cfg_environment config) with
        | Some v => [("environment", JStr v)]
        | None => []
        end))
    (match present (cfg_host config) with
     | Some v => [("host", JStr v)]
     | None => []
     end).

(** [new Logger(config)]; [now] is the clock of the Loki transport. *)
Definition create (config : LoggerConfig) (now : Z) : t :=
  let console :=
    if not_false (cfg_enableConsole config) then [ConsoleTransport []]
    else [] in
  let file :=
    match present (cfg_file config) with
    | Some path =>
        if not_false (cfg_enableFile config) then [FileTransport path []]
        else []
    | None => []
    end in
  let loki :=
    match present (cfg_lokiUrl config) with
    | Some url =>
        if not_false (cfg_enableLoki config) then
          let base :=
            LokiTransport.nullish (cfg_loki config) LokiTransport.emptyConfig in
          let labels :=
            obj_spread (lokiLabels config)
              (LokiTransport.nullish (LokiTransport.cfg_labels base) []) in
          [Loki (LokiTransport.init url
                   (LokiTransport.mkConfig
                      (LokiTransport.cfg_batchInterval base)
                      (LokiTransport.cfg_batchSize base)
                      (LokiTransport.cfg_retries base)
                      (LokiTransport.cfg_timeout base)
                      (LokiTransport.cfg_compress base)
                      (LokiTransport.cfg_basicAuth base)
                      (Some labels))
                   now)]
        else []
    | None => []
    end in
  mk (console ++ file ++ loki) (cfg_service config)
     (cfg_environment config) (cfg_host config).

(** [createEntry(level, message, metadata)]; [ts] is the value of
    [getISOTimestamp()] at the call. *)
Definition createEntry (lg : t) (ts : string) (level : LogLevel)
    (message : string) (metadata : option JSObject) : LogEntry :=
  mkEntry ts level (service lg) message metadata.

(** [transport.log(entry)].  The file transport formats the entry before
    it queues the write: when [formatJSONL] throws, its promise is rejected
    and nothing is written.  ([Logger.log] reports the rejection with
    [console.error]; the model keeps no record of what the logger itself
    writes on the console.) *)
Definition transport_log (entry : LogEntry) (tp : Transport) : Transport :=
  match tp with
  | ConsoleTransport printed => ConsoleTransport (printed ++ [entry])
  | FileTransport path written =>
      match formatJSONL_result entry with
      | Returned formatted => FileTransport path (written ++ [formatted])
      | Threw _ => tp
      end
  | Loki w =>
      Loki (fst (LokiTransport.spawn
                   (LokiTransport.log (LokiTransport.clock w) entry
                      (LokiTransport.sink w)) w))
  end.

(** [log(level, message, metadata)] *)
Definition log (lg : t) (ts : string) (level : LogLevel) (message : string)
    (metadata : option JSObject) : t :=
  let entry := createEntry lg ts level message metadata in
  mk (map (transport_log entry) (transports lg)) (service lg)
     (environment lg) (host lg).

(** The level methods are declared with two parameters,
    [(message, metadata?)].  A call site may pass any number of further
    arguments; they are bound to nothing. *)
Definition second_parameter (args : list JSObject) : option JSObject :=
  hd_error args.

Definition debug (lg : t) (ts message : string) (args : list JSObject) : t :=
  log lg ts DEBUG message (second_parameter args).

Definition info (lg : t) (ts message : string) (args : list JSObject) : t :=
  log lg ts INFO message (second_parameter args).

Definition warn (lg : t) (ts message : string) (args : list JSObject) : t :=
  log lg ts WARN message (second_parameter args).

Definition error (lg : t) (ts message : string) (args : list JSObject) : t :=
  log lg ts ERROR message (second_parameter args).

(** [flush()]: every transport that has a [flush] method starts flushing
    (the console transport has none; the file transport waits for its
    queued lines, which are written by then). *)
Definition flush (lg : t) : t :=
  mk (map (fun tp => match tp with
                     | Loki w => Loki (LokiTransport.flush w)
                     | _ => tp
                     end) (transports lg))
     (service lg) (environment lg) (host lg).

(** The lines a logger has written to its file transports. *)
Definition file_lines (lg : t) : list string :=
  flat_map (fun tp => match tp with
                      | FileTransport _ written => written
                      | _ => []
                      end) (transports lg).

End Logger.

(* ===================================================================== *)
(** * Vocabulary of the properties

    The notions in which the properties below are stated, and the inputs
    of the examples. *)
(* ===================================================================== *)

(** ** Objects *)

Module OrderedMapDefs.
Import JS.

(** [differ_at k t1 t2]: the two objects are the same but for the value
    stored under [k]. *)
Definition differ_at (k : string) (t1 t2 : Obj) : Prop :=
  exists pre v1 v2 post,
    t1 = pre ++ (k, v1) :: post /\ t2 = pre ++ (k, v2) :: post /\
    ~ In k (omap_keys pre).

End OrderedMapDefs.

(** ** The JSONL line *)

Module JSONLDefs.
Import JS Types Formatters.

Definition reserved_keys : list string :=
  ["timestamp"; "level"; "service"; "message"].

(** The fields the formatter writes before it spreads the metadata. *)
Definition reserved_fields (entry : LogEntry) : Obj :=
  [("timestamp", JStr (timestamp entry));
   ("level", JStr (level_string (level entry)));
   ("service", JStr (service entry));
   ("message", JStr (message entry))].

Definition set_message (m : string) (entry : LogEntry) : LogEntry :=
  mkEntry (timestamp entry) (level entry) (service entry) m (metadata entry).

Definition entry_shadowed : LogEntry :=
  mkEntry "2025-01-01T00:00:00.000Z" INFO "svc" "the real message"
    (Some (Plain [("message", JStr "from metadata"); ("x", JNum 1)])).

Definition is_reserved (k : string) : bool :=
  existsb (String.eqb k) reserved_keys.

(** The value that the emitted object has under a reserved key: that of
    the metadata property of this name if there is one, the entry's [own]
    otherwise. *)
Definition emitted_value (entry : LogEntry) (k : string) (own : JSValue)
  : JSValue :=
  match obj_get k (metadata_props entry) with
  | Some v => v
  | None => own
  end.

(** The emitted object as last-write-wins describes it: the four reserved
    keys with the values that win, then the other metadata properties. *)
Definition overwritten_fields (entry : LogEntry) : Obj :=
  [("timestamp", emitted_value entry "timestamp" (JStr (timestamp entry)));
   ("level",
    emitted_value entry "level" (JStr (level_string (level entry))));
   ("service", emitted_value entry "service" (JStr (service entry)));
   ("message", emitted_value entry "message" (JStr (message entry)))]
  ++ filter (fun kv => negb (is_reserved (fst kv))) (metadata_props entry).

(** A text between double quotes. *)
Definition quoted (s : string) : string :=
  String dquote (s +:+ String dquote EmptyString).

(** The line of [entry_shadowed], character by character. *)
Definition entry_shadowed_line : string :=
  "{" +:+ quoted "timestamp" +:+ ":" +:+ quoted "2025-01-01T00:00:00.000Z"
  +:+ "," +:+ quoted "level" +:+ ":" +:+ quoted "info"
  +:+ "," +:+ quoted "service" +:+ ":" +:+ quoted "svc"
  +:+ "," +:+ quoted "message" +:+ ":" +:+ quoted "from metadata"
  +:+ "," +:+ quoted "x" +:+ ":1}" +:+ newline.

End JSONLDefs.

(** ** Streams *)

Module LokiFormatDefs.
Import JS Timestamp Types Formatters.

(** The distinct elements of a list, each at the place of its first
    occurrence. *)
Fixpoint first_occurrences (ks : list string) : list string :=
  match ks with
  | [] => []
  | k :: rest =>
      k :: filter (fun k' => negb (String.eqb k' k)) (first_occurrences rest)
  end.

Definition in_group (staticLabels : Obj) (key : string) (e : LogEntry) : bool :=
  String.eqb (labelKey staticLabels e) key.

(** What the grouping loop is meant to compute: one group per distinct key,
    in order of first occurrence, holding the entries of that key in input
    order. *)
Definition grouped (staticLabels : Obj) (entries : list LogEntry)
  : list (string * list LogEntry) :=
  map (fun k => (k, filter (in_group staticLabels k) entries))
      (first_occurrences (map (labelKey staticLabels) entries)).

(** [JSON.stringify] accepts the label object and the log line of the
    entry. *)
Definition labels_serializable (staticLabels : Obj) (e : LogEntry) : bool :=
  serializable (JObj (labelsOf staticLabels e)).

Definition line_serializable (e : LogEntry) : bool :=
  serializable (JObj (logLine e)).

Definition entry_serializable (staticLabels : Obj) (e : LogEntry) : bool :=
  andb (labels_serializable staticLabels e) (line_serializable e).

Definition has_event_key (e : LogEntry) : bool :=
  match metadata e with
  | Some m => has_key "event" (own_enumerable m)
  | None => false
  end.

(** The label object of an entry that contributes no [event] label. *)
Definition labels_without_event (staticLabels : Obj) (e : LogEntry) : Obj :=
  obj_spread
    [("service", JStr (service e)); ("level", JStr (level_string (level e)))]
    staticLabels.

Definition entry_empty_event : LogEntry :=
  mkEntry "2025-01-01T00:00:02.000Z" WARN "api" "cache miss"
    (Some (Plain [("event", JStr EmptyString); ("key", JStr "u1")])).

Definition entry_no_event : LogEntry :=
  mkEntry "2025-01-01T00:00:03.000Z" WARN "api" "cache cold"
    (Some (Plain [("key", JStr "u2")])).

Definition entry_with_event : LogEntry :=
  mkEntry "2025-01-01T00:00:01.000Z" WARN "api" "login"
    (Some (Plain [("event", JStr "user_login")])).

Definition static_with_event : Obj :=
  [("foo", JStr "a"); ("event", JStr "x")].

Definition entry_evt : LogEntry :=
  mkEntry "2025-01-01T00:00:00.000Z" INFO "svc" "first"
    (Some (Plain [("event", JStr "y")])).

Definition entry_plain : LogEntry :=
  mkEntry "2025-01-01T00:00:01.000Z" INFO "svc" "second" None.

End LokiFormatDefs.

(** ** Sorted batches *)

Module SortDefs.
Import JS Timestamp Types Formatters LokiTransport.

(** Order and equality on the keys by which a list is sorted. *)
Definition key_le {A} (key : A -> Z) (a b : A) : Prop := key a <= key b.

Definition has_key_value {A} (key : A -> Z) (t : Z) (a : A) : bool :=
  key a =? t.

(** The entry has a timestamp that [Date] can read. *)
Definition valid_timestamp (e : LogEntry) : Prop :=
  getTime (timestamp e) <> None.

(** Milliseconds since the epoch. *)
Definition time_ms (e : LogEntry) : Z :=
  match getTime (timestamp e) with Some ms => ms | None => 0 end.

Definition not_after (a b : LogEntry) : Prop := time_ms a <= time_ms b.

Definition at_time (t : Z) (e : LogEntry) : bool := time_ms e =? t.

Definition entry_late : LogEntry :=
  mkEntry "2025-01-01T00:00:05.000Z" INFO "svc" "late" None.

Definition entry_early : LogEntry :=
  mkEntry "2025-01-01T00:00:01.000Z" INFO "svc" "early" None.

Definition entry_late' : LogEntry :=
  mkEntry "2025-01-01T00:00:05.000Z" ERROR "svc" "late too" None.

Definition sink_unsorted : LokiTransport.t :=
  set_batch [entry_late; entry_early; entry_late']
    (create "http://localhost:3100" emptyConfig 1).

End SortDefs.

(** ** Traces of retries *)

Module RetryDefs.
Import JS Async Retry.

(** The events of [n] invocations of an operation [q], the first one being
    attempt number [attempt]: after each invocation but the last, a sleep
    of [baseDelay * 2 ^ attempt]. *)
Fixpoint backoff_trace {Q} (q : Q) (baseDelay attempt : Z) (n : nat)
  : list (Event Q) :=
  match n with
  | O => []
  | S n' =>
      EvCall q ::
      match n' with
      | O => []
      | S _ =>
          EvSleep (baseDelay * 2 ^ attempt)
            :: backoff_trace q baseDelay (attempt + 1) n'
      end
  end.

(** The delays of [m] consecutive retries, the first one after attempt
    number [attempt]. *)
Fixpoint delays (baseDelay attempt : Z) (m : nat) : list Z :=
  match m with
  | O => []
  | S m' => baseDelay * 2 ^ attempt :: delays baseDelay (attempt + 1) m'
  end.

(** What an invocation threw, for a function whose one awaited operation
    settled with [o]. *)
Definition thrown_by {Q A T} (k : Outcome A -> Prog Q A T) (o : Outcome A)
  : Thrown :=
  match k o with
  | Throw e => e
  | _ => ThrownValue EmptyString
  end.

Definition third_time_lucky : nat -> Outcome Z :=
  fun n =>
    if Nat.eqb n 2 then Resolved 7
    else Rejected (ThrownValue "connection refused").

End RetryDefs.

(** ** Runs of a transport *)

Module TransportDefs.
Import JS Timestamp Types Formatters Async Retry LokiTransport.

(** The task a call of [sendBatch] starts when it passes the guard. *)
Definition batchTask (now : Z) (s : LokiTransport.t) : SendTask :=
  let entries := Array_sort byTimestamp (batch s) in
  mkTask entries (formatLokiPayload now entries (staticLabels s))
    match formatLokiPayload_result now entries (staticLabels s) with
    | Threw error => Throw error
    | Returned payload =>
        try_catch
          (retryWithBackoff (sendToLoki s payload) (retries s) 1000)
          (fun error =>
             ConsoleError (dropped_message (length entries) (retries s))
               error (Ret tt))
    end.

(** The batches a call has taken. *)
Definition taken_of (r : LokiTransport.t * option SendTask)
  : list (list LogEntry) :=
  match snd r with
  | Some tk => [task_entries tk]
  | None => []
  end.

(** The fields other than [batch] are not written by [sendBatch]. *)
Definition same_fields (s s' : LokiTransport.t) : Prop :=
  s' = set_batch (batch s') s.

(** The entries a world accounts for: those of the batches taken so far,
    and those still pending. *)
Definition accounted (w : World) : list LogEntry :=
  concat (taken (history w)) ++ batch (sink w).

(** The inputs by which the runtime takes task [id] to its end, when the
    [n]-th awaited operation settles with [env n]. *)
Fixpoint drive (id : nat) (env : nat -> Outcome Response) (n : nat)
    (p : SendProg) : list Input :=
  match p with
  | Ret _ | Throw _ => []
  | Call _ k => InRespond id (env n) :: drive id env (S n) (k (env n))
  | Sleep _ k => InWake id :: drive id env n k
  | ConsoleError _ _ k => drive id env n k
  end.

Definition obs_of_event (id : nat) (ev : Event Request) : Obs :=
  match ev with
  | EvCall q => ObsRequest id q
  | EvSleep ms => ObsSleep id ms
  | EvConsole msg err => ObsConsole msg err
  end.

Definition obs_of_result (id : nat) (res : Result unit) : Obs :=
  ObsSettled id (match res with Returned _ => true | Threw _ => false end).

Definition entry1 : LogEntry :=
  mkEntry "2025-01-01T00:00:05.000Z" INFO "svc" "one" None.

Definition entry2 : LogEntry :=
  mkEntry "2025-01-01T00:00:01.000Z" WARN "svc" "two" None.

Definition entry3 : LogEntry :=
  mkEntry "2025-01-01T00:00:03.000Z" INFO "svc" "three" None.

(** An entry whose metadata hold a BigInt. *)
Definition entry_bigint : LogEntry :=
  mkEntry "2025-01-01T00:00:02.000Z" INFO "svc" "big"
    (Some (Plain [("n", JBigInt 1)])).

(** A transport with [batchSize = 2] and [retries = 1]. *)
Definition world2 : World :=
  init "http://localhost:3100"
    (mkConfig None (Some 2) (Some 1) None None None None) 0.

(** The interval registered by the constructor is the only one, and it is
    registered as long as the field holds its handle. *)
Definition timer_registered (w : World) : Prop :=
  timers w = match batchTimer (sink w) with Some h => [h] | None => [] end.

(** A transport with the default configuration ([batchSize = 100]). *)
Definition world_default : World :=
  init "http://localhost:3100" emptyConfig 0.




End TransportDefs.

(** ** Calls of the facade *)

Module LoggerDefs.
Import JS Timestamp Types Formatters.

(** [new Error("boom")] *)
Definition boom : JSError := mkError "Error" "boom" "Error: boom" [].

(** A logger that writes to a file only. *)
Definition file_logger : Logger.t :=
  Logger.create
    (Logger.mkLoggerConfig "svc" None None (Some false) None
       (Some "./tests/test.jsonl") None None None)
    0.

Definition error_entry : LogEntry :=
  mkEntry "2025-01-01T00:00:00.000Z" ERROR "svc" "msg"
    (Some (ErrorInstance boom)).

End LoggerDefs.

(** ** Label keys and label sets *)

Module LabelKeyDefs.
Import JS Types Formatters.

Definition unhex (c : ascii) : option nat :=
  let n := nat_of_ascii c in
  if andb (Nat.leb 48 n) (Nat.leb n 57) then Some (n - 48)%nat
  else if andb (Nat.leb 97 n) (Nat.leb n 102) then Some (n - 87)%nat
  else None.

Definition cons_char (c : ascii) (r : option (string * string))
  : option (string * string) :=
  match r with
  | Some (s, rest) => Some (String c s, rest)
  | None => None
  end.

(** Reads the inside of a JSON string literal up to its closing quote, as
    [JSON.parse] does: the result is the string denoted and what follows
    the literal. *)
Fixpoint unquote_body (s : string) : option (string * string) :=
  match s with
  | EmptyString => None
  | String c s1 =>
      if Ascii.eqb c dquote then Some (EmptyString, s1)
      else if Ascii.eqb c backslash then
        match s1 with
        | EmptyString => None
        | String x s2 =>
            if Ascii.eqb x dquote then cons_char dquote (unquote_body s2)
            else if Ascii.eqb x backslash
            then cons_char backslash (unquote_body s2)
            else if Ascii.eqb x "b"
            then cons_char (ascii_of_nat 8) (unquote_body s2)
            else if Ascii.eqb x "t"
            then cons_char (ascii_of_nat 9) (unquote_body s2)
            else if Ascii.eqb x "n"
            then cons_char (ascii_of_nat 10) (unquote_body s2)
            else if Ascii.eqb x "f"
            then cons_char (ascii_of_nat 12) (unquote_body s2)
            else if Ascii.eqb x "r"
            then cons_char (ascii_of_nat 13) (unquote_body s2)
            else if Ascii.eqb x "u" then
              match s2 with
              | String z1 (String z2 (String h1 (String h2 s3))) =>
                  match unhex h1, unhex h2 with
                  | Some a, Some b =>
                      if andb (Ascii.eqb z1 "0") (Ascii.eqb z2 "0")
                      then cons_char (ascii_of_nat (16 * a + b)%nat)
                             (unquote_body s3)
                      else None
                  | _, _ => None
                  end
              | _ => None
              end
            else None
        end
      else cons_char c (unquote_body s1)
  end.

(** Objects whose values are all strings, as the types of the source have
    it for labels. *)
Definition string_valued (o : Obj) : Prop :=
  Forall (fun kv => exists s, snd kv = JStr s) o.

Definition member_json (kv : string * JSValue) : string :=
  quote (fst kv) +:+ ":" +:+ JSON_stringify (snd kv).

(** The members [JSON.stringify] writes for an object. *)
Definition members (o : Obj) : list string :=
  flat_map
    (fun kv : string * JSValue =>
       let (k, v') := kv in
       if is_undefined v' then []
       else [quote k +:+ ":" +:+ JSON_stringify v'])
    o.

(** The event of the entry is a string, or is falsy. *)
Definition string_event (e : LogEntry) : Prop :=
  truthy (event_of e) = false \/ exists s, event_of e = JStr s.

(** Two label objects denote the same set of labels. *)
Definition same_label_set (o1 o2 : Obj) : Prop :=
  forall k, obj_get k o1 = obj_get k o2.

(** The labels derived from the entry itself. *)
Definition derived_labels (e : LogEntry) : Obj :=
  [("service", JStr (service e)); ("level", JStr (level_string (level e)))]
  ++ (if truthy (event_of e) then [("event", event_of e)] else []).

End LabelKeyDefs.

(** ** Texts *)

Module TextDefs.
Import JS.

(** No character of the string is a control character (all are at or above
    the space). *)
Fixpoint printable (s : string) : bool :=
  match s with
  | EmptyString => true
  | String c s' => andb (Nat.leb 32 (nat_of_ascii c)) (printable s')
  end.

(** The metadata keys that the spread adds after the keys of [target]. *)
Definition new_keys (target src : Obj) : list string :=
  filter (fun k => negb (has_key k target)) (omap_keys src).

End TextDefs.

(** ** Backoff *)

Module BackoffDefs.
Import JS Async Retry.

(** How an invocation that settled with [o] ends an attempt of
    [retryWithBackoff]: the value is returned, or the reason of the
    rejection becomes [lastError]. *)
Definition attempt_result {T} (o : Outcome T) : Result T :=
  match o with
  | Resolved v => Returned v
  | Rejected e => Threw (ThrownError (toError e))
  end.

(** How an attempt ends whose awaited operation is followed by [p], a
    computation that returns or throws at once. *)
Definition ended {Q A T} (p : Prog Q A T) : Result T :=
  match p with
  | Ret v => Returned v
  | Throw e => Threw (ThrownError (toError e))
  | _ => Threw (ThrownValue EmptyString)
  end.

(** The time slept in a run, in milliseconds. *)
Definition total_delay {Q} (tr : list (Event Q)) : Z :=
  fold_right Z.add 0 (sleeps tr).

Definition always_refused : nat -> Outcome Z :=
  fun _ => Rejected (ThrownValue "connection refused").

End BackoffDefs.

(** ** Deliveries *)

Module DeliveryDefs.
Import JS Types Async Retry LokiTransport.


(** How the calls of [flush()] ended, in order. *)
Fixpoint flush_results (h : list Obs) : list bool :=
  match h with
  | [] => []
  | ObsFlushed b :: rest => b :: flush_results rest
  | _ :: rest => flush_results rest
  end.

(** Every suspended [flush] awaits a promise that is already fulfilled,
    every [flush] that ended was fulfilled, and the flag is set only while
    a [flush] is suspended. *)
Definition flushes_fulfil (w : World) : Prop :=
  Forall (fun promise => promise = None) (waiters w) /\
  Forall (fun b => b = true) (flush_results (history w)) /\
  (isFlushing (sink w) = true -> waiters w <> []).

(** The pending buffer is below the threshold [B], and so was every batch
    taken so far; none of them was empty. *)
Definition buffer_bounded (B : Z) (w : World) : Prop :=
  isFlushing (sink w) = false /\
  batchSize (sink w) = B /\
  Z.of_nat (length (batch (sink w))) < B /\
  Forall (fun b => b <> [] /\ Z.of_nat (length b) <= B) (taken (history w)).

Definition calls_flush (i : Input) : bool :=
  match i with InFlush => true | _ => false end.


End DeliveryDefs.

(** ** Calls of the logger *)

Module CallDefs.
Import JS Timestamp Types Formatters.

(** One call of a level method: the clock value read by the call, the
    level, the message and the metadata argument. *)
Record LogCall : Type := mkCall {
  call_ts : string;
  call_level : LogLevel;
  call_message : string;
  call_metadata : option JSObject
}.

Definition log_all (lg : Logger.t) (calls : list LogCall) : Logger.t :=
  fold_left
    (fun lg c =>
       Logger.log lg (call_ts c) (call_level c) (call_message c)
         (call_metadata c))
    calls lg.

(** The entry that a call makes on a logger of service [svc]. *)
Definition entry_of (svc : string) (c : LogCall) : LogEntry :=
  mkEntry (call_ts c) (call_level c) svc (call_message c) (call_metadata c).

(** [JSON.stringify] accepts the object that [formatJSONL] builds for the
    entry of the call. *)
Definition call_serializable (svc : string) (c : LogCall) : bool :=
  serializable (JObj (logObject (entry_of svc c))).

(** The entries printed by the console transports of a logger. *)
Definition console_entries (lg : Logger.t) : list LogEntry :=
  flat_map (fun tp => match tp with
                      | Logger.ConsoleTransport printed => printed
                      | _ => []
                      end) (Logger.transports lg).

(** The Loki transports of a logger. *)
Definition loki_worlds (lg : Logger.t) : list LokiTransport.World :=
  flat_map (fun tp => match tp with
                      | Logger.Loki w => [w]
                      | _ => []
                      end) (Logger.transports lg).

(** [config.loki?.labels], an absent one read as [{}]. *)
Definition config_labels (config : Logger.LoggerConfig) : Obj :=
  LokiTransport.nullish
    (LokiTransport.cfg_labels
       (LokiTransport.nullish (Logger.cfg_loki config)
          LokiTransport.emptyConfig))
    [].

Definition file_enabled (config : Logger.LoggerConfig) : bool :=
  match Logger.present (Logger.cfg_file config) with
  | Some _ => Logger.not_false (Logger.cfg_enableFile config)
  | None => false
  end.

Definition loki_enabled (config : Logger.LoggerConfig) : bool :=
  match Logger.present (Logger.cfg_lokiUrl config) with
  | Some _ => Logger.not_false (Logger.cfg_enableLoki config)
  | None => false
  end.

Definition config_all : Logger.LoggerConfig :=
  Logger.mkLoggerConfig "svc" (Some "prod") (Some "web-1") None None
    (Some "./logs/app.jsonl") None (Some "http://localhost:3100/")
    (Some (LokiTransport.mkConfig None None None None None None
             (Some [("environment", JStr "staging"); ("team", JStr "core")]))).

End CallDefs.

(* ===================================================================== *)
(** * Properties *)
(* ===================================================================== *)

(** ** Ordered maps and object spread *)

Module OrderedMapFacts.
Export OrderedMapDefs.
Import JS TextDefs.

Section Facts.
Context {V : Type}.
Implicit Types (m : list (string * V)) (k : string) (v : V).

Lemma omap_get_set_eq k v m : omap_get k (omap_set k v m) = Some v.
Proof.
  induction m as [|[k' v'] m IH]; simpl.
  - now rewrite String.eqb_refl.
  - destruct (String.eqb k k') eqn:E; simpl; rewrite E; auto.
Qed.

Lemma omap_get_set_neq k k' v m :
  k <> k' -> omap_get k' (omap_set k v m) = omap_get k' m.
Proof.
  intros Hne. induction m as [|[k0 v0] m IH]; simpl.
  - destruct (String.eqb_spec k' k); congruence.
  - destruct (String.eqb_spec k k0) as [->|]; simpl.
    + destruct (String.eqb_spec k' k0); congruence.
    + now rewrite IH.
Qed.

Lemma omap_get_none k m : ~ In k (omap_keys m) -> omap_get k m = None.
Proof.
  induction m as [|[k' v'] m IH]; simpl; intros H; auto.
  destruct (String.eqb_spec k k') as [->|]; [tauto|].
  apply IH. tauto.
Qed.

Lemma omap_get_some_in k v m : omap_get k m = Some v -> In k (omap_keys m).
Proof.
  induction m as [|[k' v'] m IH]; simpl; [discriminate|].
  destruct (String.eqb_spec k k') as [->|]; auto.
Qed.

Lemma omap_get_in k m :
  In k (omap_keys m) -> exists v, omap_get k m = Some v.
Proof.
  induction m as [|[k' v'] m IH]; simpl; [tauto|].
  intros [->|H].
  - rewrite String.eqb_refl. eauto.
  - destruct (String.eqb k k'); eauto.
Qed.

(** Writing to a key that is present leaves the keys and their order
    alone; a new key goes to the end. *)
Lemma omap_keys_set_present k v m :
  In k (omap_keys m) -> omap_keys (omap_set k v m) = omap_keys m.
Proof.
  induction m as [|[k' v'] m IH]; simpl; [tauto|].
  intros H. destruct (String.eqb_spec k k') as [->|Hne]; simpl; auto.
  f_equal. apply IH. destruct H; congruence.
Qed.

Lemma omap_keys_set_absent k v m :
  ~ In k (omap_keys m) -> omap_keys (omap_set k v m) = omap_keys m ++ [k].
Proof.
  induction m as [|[k' v'] m IH]; simpl; auto.
  intros H. destruct (String.eqb_spec k k') as [->|Hne]; [tauto|].
  simpl. f_equal. apply IH. tauto.
Qed.

Lemma omap_set_absent k v m :
  ~ In k (omap_keys m) -> omap_set k v m = m ++ [(k, v)].
Proof.
  induction m as [|[k' v'] m IH]; simpl; auto.
  intros H. destruct (String.eqb_spec k k') as [->|Hne]; [tauto|].
  f_equal. apply IH. tauto.
Qed.
End Facts.

(** [{ ...target, ...src }[k]]: the value in [src] wins. *)
Lemma obj_get_spread k target src :
  wf_obj src ->
  obj_get k (obj_spread target src) =
  match obj_get k src with
  | Some v => Some v
  | None => obj_get k target
  end.
Proof.
  unfold obj_spread, wf_obj.
  revert target. induction src as [|[k1 v1] src IH]; intros target Hwf.
  - reflexivity.
  - simpl in Hwf. inversion Hwf as [|? ? Hnotin Hnodup]; subst.
    simpl. rewrite IH by assumption.
    destruct (String.eqb_spec k k1) as [->|Hne].
    + rewrite (omap_get_none k1 src Hnotin).
      apply omap_get_set_eq.
    + destruct (omap_get k src); auto.
      apply omap_get_set_neq. congruence.
Qed.

(** The keys of the target keep their places under a spread. *)
Lemma obj_spread_keys_prefix target src :
  exists extra, omap_keys (obj_spread target src) = omap_keys target ++ extra.
Proof.
  unfold obj_spread. revert target.
  induction src as [|[k1 v1] src IH]; intros target; simpl.
  - exists []. now rewrite app_nil_r.
  - destruct (IH (omap_set k1 v1 target)) as [extra Hx].
    rewrite Hx.
    destruct (in_dec string_dec k1 (omap_keys target)) as [Hin|Hnin].
    + rewrite (omap_keys_set_present k1 v1 target Hin). eauto.
    + rewrite (omap_keys_set_absent k1 v1 target Hnin), <- app_assoc. eauto.
Qed.

Lemma omap_set_app {V} k (v : V) a b :
  omap_set k v (a ++ b) =
  if in_dec string_dec k (omap_keys a)
  then omap_set k v a ++ b else a ++ omap_set k v b.
Proof.
  induction a as [|[k' v'] a IH]; simpl; auto.
  destruct (String.eqb_spec k k') as [->|Hne].
  - destruct (string_dec k' k'); [|congruence].
    reflexivity.
  - rewrite IH. destruct (string_dec k' k); [congruence|].
    destruct (in_dec string_dec k (omap_keys a)); reflexivity.
Qed.

Lemma differ_at_set_same k v t1 t2 :
  differ_at k t1 t2 -> obj_set k v t1 = obj_set k v t2.
Proof.
  intros (pre & v1 & v2 & post & -> & -> & Hpre).
  rewrite !omap_set_app.
  destruct (in_dec string_dec k (omap_keys pre)); [tauto|].
  simpl. now rewrite String.eqb_refl.
Qed.

Lemma differ_at_set_other k k' v t1 t2 :
  k' <> k -> differ_at k t1 t2 ->
  differ_at k (obj_set k' v t1) (obj_set k' v t2).
Proof.
  intros Hne (pre & v1 & v2 & post & -> & -> & Hpre).
  rewrite !omap_set_app.
  destruct (in_dec string_dec k' (omap_keys pre)) as [Hin|Hnin].
  - exists (omap_set k' v pre), v1, v2, post. repeat split.
    now rewrite omap_keys_set_present.
  - simpl. destruct (String.eqb_spec k' k); [congruence|].
    exists pre, v1, v2, (omap_set k' v post). auto.
Qed.

(** A value that [src] overwrites has no influence on the spread. *)
Lemma obj_spread_overwritten k target1 target2 src :
  differ_at k target1 target2 ->
  In k (omap_keys src) ->
  obj_spread target1 src = obj_spread target2 src.
Proof.
  unfold obj_spread. revert target1 target2.
  induction src as [|[k1 v1] src IH]; intros t1 t2 Hd Hin; simpl in *.
  - tauto.
  - destruct (string_dec k1 k) as [->|Hne].
    + now rewrite (differ_at_set_same k v1 t1 t2 Hd).
    + apply IH.
      * now apply differ_at_set_other.
      * destruct Hin; congruence.
Qed.

Lemma has_key_In k (o : Obj) : has_key k o = true <-> In k (omap_keys o).
Proof.
  unfold has_key. split.
  - destruct (omap_get k o) eqn:H; [|discriminate].
    intros _. apply (omap_get_some_in _ _ _ H).
  - intros H. destruct (omap_get_in k o H) as [v ->]. reflexivity.
Qed.

Lemma has_key_set k k' v (o : Obj) :
  has_key k (obj_set k' v o) = orb (String.eqb k k') (has_key k o).
Proof.
  unfold has_key. destruct (String.eqb_spec k k') as [->|Hne].
  - now rewrite omap_get_set_eq.
  - rewrite omap_get_set_neq by congruence. reflexivity.
Qed.

Lemma obj_spread_keys target src :
  wf_obj src ->
  omap_keys (obj_spread target src) = omap_keys target ++ new_keys target src.
Proof.
  unfold obj_spread, new_keys, wf_obj. revert target.
  induction src as [|[k v] src IH]; intros target Hwf; simpl.
  - now rewrite app_nil_r.
  - inversion Hwf as [|? ? Hnotin Hnd]; subst.
    rewrite IH by assumption.
    assert (Hfilter :
              filter (fun k0 => negb (has_key k0 (omap_set k v target)))
                     (omap_keys src)
              = filter (fun k0 => negb (has_key k0 target)) (omap_keys src)).
    { apply filter_ext_in. intros k0 Hk0. rewrite has_key_set.
      destruct (String.eqb_spec k0 k) as [->|]; [tauto|reflexivity]. }
    rewrite Hfilter.
    destruct (has_key k target) eqn:Hk; simpl.
    + apply has_key_In in Hk.
      now rewrite omap_keys_set_present.
    + assert (Hnin : ~ In k (omap_keys target)).
      { intros Hin. apply has_key_In in Hin. congruence. }
      rewrite omap_keys_set_absent by assumption.
      now rewrite <- app_assoc.
Qed.

Lemma append_assoc (a b c : string) : (a +:+ b) +:+ c = a +:+ (b +:+ c).
Proof. induction a as [|x a IH]; simpl; [reflexivity | now rewrite IH]. Qed.

Lemma omap_get_app {V} k (a b : list (string * V)) :
  omap_get k (a ++ b)
  = match omap_get k a with Some v => Some v | None => omap_get k b end.
Proof.
  induction a as [|[k' v'] a IH]; simpl; [reflexivity|].
  now destruct (String.eqb k k').
Qed.

Lemma omap_keys_filter {V} (p : string -> bool) (m : list (string * V)) :
  omap_keys (filter (fun kv => p (fst kv)) m) = filter p (omap_keys m).
Proof.
  induction m as [|[k v] m IH]; simpl; [reflexivity|].
  destruct (p k); simpl; now rewrite IH.
Qed.

Lemma omap_get_filter {V} (p : string -> bool) k (m : list (string * V)) :
  omap_get k (filter (fun kv => p (fst kv)) m)
  = if p k then omap_get k m else None.
Proof.
  induction m as [|[k' v'] m IH]; simpl; [now destruct (p k)|].
  destruct (p k') eqn:Hp'; simpl; rewrite IH;
    destruct (String.eqb_spec k k') as [->|Hne]; try reflexivity.
  - now rewrite Hp'.
  - now rewrite Hp'.
Qed.

(** An object is determined by the order of its keys and by the value
    under each key. *)
Lemma omap_ext {V} (m1 m2 : list (string * V)) :
  NoDup (omap_keys m1) ->
  omap_keys m1 = omap_keys m2 ->
  (forall k, omap_get k m1 = omap_get k m2) ->
  m1 = m2.
Proof.
  revert m2. induction m1 as [|[k v] m1 IH]; intros [|[k2 v2] m2] Hnd Hk Hg;
    try discriminate; [reflexivity|].
  simpl in Hk. injection Hk as <- Hk.
  inversion Hnd as [|? ? Hnotin Hnd']; subst.
  pose proof (Hg k) as Hv. simpl in Hv. rewrite String.eqb_refl in Hv.
  injection Hv as <-. f_equal. apply IH; [exact Hnd'|exact Hk|].
  intros k'. destruct (String.eqb_spec k' k) as [->|Hne].
  - rewrite (omap_get_none k m1 Hnotin).
    symmetry. apply omap_get_none. now rewrite <- Hk.
  - specialize (Hg k'). simpl in Hg.
    destruct (String.eqb_spec k' k); [congruence|exact Hg].
Qed.

Lemma omap_set_In {V} k v k' v' (m : list (string * V)) :
  In (k, v) (omap_set k' v' m) -> (k, v) = (k', v') \/ In (k, v) m.
Proof.
  induction m as [|[k0 v0] m IH]; simpl.
  - intros [H|[]]. left. now symmetry.
  - destruct (String.eqb_spec k' k0) as [->|Hne]; simpl.
    + intros [H|H]; [left; now symmetry|right; now right].
    + intros [H|H]; [right; now left|].
      destruct (IH H) as [H'|H']; [now left|right; now right].
Qed.

Lemma obj_spread_In k v target src :
  In (k, v) (obj_spread target src) -> In (k, v) target \/ In (k, v) src.
Proof.
  unfold obj_spread. revert target.
  induction src as [|[k1 v1] src IH]; intros target; simpl; [now left|].
  intros H. destruct (IH _ H) as [H'|H']; [|right; now right].
  destruct (omap_set_In _ _ _ _ _ H') as [E|E]; [right; left|now left].
  now symmetry.
Qed.

Lemma omap_get_In {V} k v (m : list (string * V)) :
  NoDup (omap_keys m) -> In (k, v) m -> omap_get k m = Some v.
Proof.
  induction m as [|[k' v'] m IH]; simpl; [tauto|].
  intros Hnd [E|Hin]; inversion Hnd as [|? ? Hnotin Hnd']; subst.
  - injection E as -> ->. now rewrite String.eqb_refl.
  - destruct (String.eqb_spec k k') as [->|Hne]; [|now apply IH].
    exfalso. apply Hnotin. apply (in_map fst) in Hin. exact Hin.
Qed.

Lemma omap_get_Some_In {V} k v (m : list (string * V)) :
  omap_get k m = Some v -> In (k, v) m.
Proof.
  induction m as [|[k' v'] m IH]; simpl; [discriminate|].
  destruct (String.eqb_spec k k') as [->|Hne].
  - intros [= ->]. now left.
  - intros H. right. now apply IH.
Qed.

Lemma serializable_obj (o : Obj) :
  serializable (JObj o) = forallb (fun kv => serializable (snd kv)) o.
Proof.
  cbn [serializable]. induction o as [|[k v] o IH]; [reflexivity|].
  cbn [forallb snd]. now rewrite IH.
Qed.

(** A spread over serialisable fields can be serialised exactly when its
    source can. *)
Lemma serializable_spread target src :
  wf_obj src ->
  serializable (JObj target) = true ->
  serializable (JObj (obj_spread target src)) = serializable (JObj src).
Proof.
  intros Hwf Ht. rewrite !serializable_obj in *.
  apply eq_true_iff_eq. rewrite forallb_forall in Ht.
  rewrite !forallb_forall. split.
  - intros H [k v] Hin. apply H. apply omap_get_Some_In.
    rewrite obj_get_spread by exact Hwf.
    now rewrite (omap_get_In k v src Hwf Hin).
  - intros H [k v] Hin.
    destruct (obj_spread_In _ _ _ _ Hin); [now apply Ht|now apply H].
Qed.

End OrderedMapFacts.

(** ** The JSONL formatter *)

Module JSONLFacts.
Export JSONLDefs.
Import JS Types Formatters LabelKeyDefs TextDefs OrderedMapFacts.

Lemma logObject_unfold entry :
  logObject entry = obj_spread (reserved_fields entry) (metadata_props entry).
Proof. reflexivity. Qed.

Lemma formatJSONL_result_spec entry :
  formatJSONL_result entry
  = if serializable (JObj (logObject entry))
    then Returned (formatJSONL entry)
    else Threw (ThrownError stringify_TypeError).
Proof.
  unfold formatJSONL_result, JSON_stringify_result, formatJSONL.
  now destruct (serializable (JObj (logObject entry))).
Qed.

Lemma reserved_fields_wf entry : wf_obj (reserved_fields entry).
Proof.
  unfold wf_obj, reserved_fields; simpl.
  repeat constructor; simpl; intuition discriminate.
Qed.

Lemma logObject_keys entry :
  wf_obj (metadata_props entry) ->
  omap_keys (logObject entry)
  = reserved_keys
    ++ filter (fun k => negb (is_reserved k))
         (omap_keys (metadata_props entry)).
Proof.
  intros Hwf. rewrite logObject_unfold, obj_spread_keys by assumption.
  f_equal. unfold new_keys. apply filter_ext. intros k. f_equal.
  unfold has_key, reserved_fields, is_reserved, reserved_keys. simpl.
  repeat match goal with
         | |- context [String.eqb k ?s] =>
             destruct (String.eqb k s); simpl; try reflexivity
         end.
Qed.

Lemma logObject_wf entry :
  wf_obj (metadata_props entry) -> wf_obj (logObject entry).
Proof.
  intros Hwf. unfold wf_obj. rewrite logObject_keys by exact Hwf.
  apply NoDup_app.
  - apply (reserved_fields_wf entry).
  - now apply NoDup_filter.
  - intros k Hk Hin. apply filter_In in Hin. destruct Hin as [_ Hin].
    unfold is_reserved in Hin. apply negb_true_iff in Hin.
    assert (Ht : existsb (String.eqb k) reserved_keys = true).
    { apply existsb_exists. exists k. split; [exact Hk|].
      apply String.eqb_refl. }
    congruence.
Qed.

(** The emitted object is the one that last-write-wins describes. *)
Lemma logObject_overwritten entry :
  wf_obj (metadata_props entry) ->
  logObject entry = overwritten_fields entry.
Proof.
  intros Hwf. apply omap_ext.
  - now apply logObject_wf.
  - rewrite logObject_keys by exact Hwf. unfold overwritten_fields.
    unfold omap_keys at 2. rewrite map_app. cbn [map fst].
    fold (omap_keys
            (filter (fun kv : string * JSValue => negb (is_reserved (fst kv)))
               (metadata_props entry))).
    rewrite (omap_keys_filter (fun k => negb (is_reserved k))).
    reflexivity.
  - intros k. rewrite logObject_unfold, obj_get_spread by exact Hwf.
    unfold overwritten_fields. rewrite omap_get_app.
    rewrite (omap_get_filter (fun k => negb (is_reserved k))).
    unfold emitted_value, reserved_fields, is_reserved, reserved_keys.
    cbn [omap_get existsb].
    destruct (String.eqb_spec k "timestamp") as [->|_];
      [now destruct (obj_get "timestamp" (metadata_props entry))|].
    destruct (String.eqb_spec k "level") as [->|_];
      [now destruct (obj_get "level" (metadata_props entry))|].
    destruct (String.eqb_spec k "service") as [->|_];
      [now destruct (obj_get "service" (metadata_props entry))|].
    destruct (String.eqb_spec k "message") as [->|_];
      [now destruct (obj_get "message" (metadata_props entry))|].
    cbn. now destruct (obj_get k (metadata_props entry)).
Qed.

Lemma logObject_serializable entry :
  wf_obj (metadata_props entry) ->
  serializable (JObj (logObject entry))
  = serializable (JObj (metadata_props entry)).
Proof.
  intros Hwf. rewrite logObject_unfold.
  now apply serializable_spread.
Qed.

(** C8.  The metadata is spread after the four reserved fields, last write
    wins: the value that the emitted object has under a reserved key is
    that of the entry unless the metadata has a property of the same name,
    whose value then takes its place; in particular, when the metadata has
    a property [message], the call gives the same line (or throws alike)
    whatever the message of the entry was.  The call returns the line
    exactly when the metadata can be serialised.  When no metadata key is
    an integer (such keys are enumerated first by the engine), the emitted
    object is, member by member and in this order, the four reserved keys
    with the values that win, followed by the other metadata properties,
    and the line is the JSON text of these members between braces. *)
Theorem formatJSONL_metadata_overwrites_reserved (entry : LogEntry) :
  wf_obj (metadata_props entry) ->
  formatJSONL entry = JSON_stringify (JObj (logObject entry)) +:+ newline /\
  logObject entry = obj_spread (reserved_fields entry) (metadata_props entry) /\
  (forall k v,
      In k reserved_keys ->
      obj_get k (metadata_props entry) = Some v ->
      obj_get k (logObject entry) = Some v) /\
  (forall k,
      obj_get k (metadata_props entry) = None ->
      obj_get k (logObject entry) = obj_get k (reserved_fields entry)) /\
  (forall v,
      obj_get "message" (metadata_props entry) = Some v ->
      obj_get "message" (logObject entry) = Some v /\
      forall m,
        formatJSONL (set_message m entry) = formatJSONL entry /\
        formatJSONL_result (set_message m entry) = formatJSONL_result entry) /\
  formatJSONL_result entry
  = (if serializable (JObj (metadata_props entry))
     then Returned (formatJSONL entry)
     else Threw (ThrownError stringify_TypeError)) /\
  (no_integer_keys (metadata_props entry) ->
   logObject entry = overwritten_fields entry /\
   formatJSONL entry
   = "{" +:+ join "," (members (overwritten_fields entry)) +:+ "}"
         +:+ newline).
Proof.
  intros Hwf. rewrite logObject_unfold.
  split; [reflexivity|]. split; [reflexivity|].
  split; [|split; [|split; [|split]]].
  - intros k v _ Hk. rewrite obj_get_spread by assumption. now rewrite Hk.
  - intros k Hk. rewrite obj_get_spread by assumption. now rewrite Hk.
  - intros v Hv. split.
    + rewrite obj_get_spread by assumption. now rewrite Hv.
    + intros m.
      assert (Hobj : logObject (set_message m entry) = logObject entry).
      { rewrite !logObject_unfold.
        apply obj_spread_overwritten with (k := "message").
        * exists [("timestamp", JStr (timestamp entry));
                  ("level", JStr (level_string (level entry)));
                  ("service", JStr (service entry))],
                 (JStr m), (JStr (message entry)), [].
          repeat split. simpl. intuition discriminate.
        * apply (omap_get_some_in _ _ _ Hv). }
      unfold formatJSONL_result, formatJSONL. now rewrite Hobj.
  - rewrite formatJSONL_result_spec.
    now rewrite (logObject_serializable entry Hwf).
  - intros _. rewrite <- logObject_unfold.
    split; [now apply logObject_overwritten|].
    unfold formatJSONL. rewrite (logObject_overwritten entry Hwf).
    change (JSON_stringify (JObj (overwritten_fields entry)))
      with ("{" +:+ join "," (members (overwritten_fields entry)) +:+ "}").
    now rewrite !append_assoc.
Qed.

Lemma formatJSONL_metadata_overwrites_reserved_witness :
  wf_obj (metadata_props entry_shadowed) /\
  no_integer_keys (metadata_props entry_shadowed) /\
  obj_get "message" (logObject entry_shadowed) = Some (JStr "from metadata") /\
  formatJSONL_result entry_shadowed = Returned entry_shadowed_line /\
  formatJSONL_result (set_message "another message" entry_shadowed)
  = Returned entry_shadowed_line.
Proof.
  assert (Hwf : wf_obj (metadata_props entry_shadowed)).
  { unfold wf_obj; simpl. repeat constructor; simpl; intuition discriminate. }
  assert (Hno : no_integer_keys (metadata_props entry_shadowed))
    by reflexivity.
  split; [exact Hwf|]. split; [exact Hno|].
  destruct (formatJSONL_metadata_overwrites_reserved entry_shadowed Hwf)
    as (_ & _ & _ & _ & Hmsg & Hres & Hline).
  destruct (Hmsg (JStr "from metadata") eq_refl) as [H1 H2].
  destruct (Hline Hno) as [_ Htext].
  assert (Hr : formatJSONL_result entry_shadowed
               = Returned entry_shadowed_line).
  { rewrite Hres. cbn [metadata_props entry_shadowed metadata own_enumerable].
    change (serializable
              (JObj [("message", JStr "from metadata"); ("x", JNum 1)]))
      with true.
    cbv iota. rewrite Htext. reflexivity. }
  split; [exact H1|]. split; [exact Hr|].
  rewrite (proj2 (H2 "another message")). exact Hr.
Defined.

End JSONLFacts.

(** ** The Loki formatter: grouping into streams *)

Module LokiFormatFacts.
Export LokiFormatDefs.
Import JS Timestamp Types Formatters OrderedMapFacts.

Lemma in_first_occurrences k ks : In k (first_occurrences ks) <-> In k ks.
Proof.
  induction ks as [|a ks IH]; simpl; [tauto|].
  rewrite filter_In, IH.
  destruct (String.eqb_spec k a) as [->|Hne]; simpl; intuition congruence.
Qed.

Lemma NoDup_first_occurrences ks : NoDup (first_occurrences ks).
Proof.
  induction ks as [|a ks IH]; simpl; constructor.
  - rewrite filter_In, String.eqb_refl. simpl. intuition discriminate.
  - now apply NoDup_filter.
Qed.

Lemma first_occurrences_snoc ks k :
  first_occurrences (ks ++ [k]) =
  if in_dec string_dec k ks
  then first_occurrences ks else first_occurrences ks ++ [k].
Proof.
  induction ks as [|a ks IH]; simpl; auto.
  rewrite IH. destruct (string_dec a k) as [->|Hne].
  - destruct (in_dec string_dec k ks); auto.
    rewrite filter_app. simpl. rewrite String.eqb_refl. simpl.
    now rewrite app_nil_r.
  - destruct (in_dec string_dec k ks); auto.
    rewrite filter_app. simpl.
    destruct (String.eqb_spec k a); [congruence|]. reflexivity.
Qed.

Section MapOverKeys.
Context {V : Type}.

Lemma omap_get_map_keys (f : string -> V) k ks :
  omap_get k (map (fun k' => (k', f k')) ks) =
  if in_dec string_dec k ks then Some (f k) else None.
Proof.
  induction ks as [|a ks IH]; simpl; auto.
  destruct (String.eqb_spec k a) as [->|Hne].
  - destruct (string_dec a a); congruence.
  - rewrite IH. destruct (string_dec a k); [congruence|].
    destruct (in_dec string_dec k ks); reflexivity.
Qed.

Lemma omap_keys_map_keys (f : string -> V) ks :
  omap_keys (map (fun k' => (k', f k')) ks) = ks.
Proof. unfold omap_keys. rewrite map_map. simpl. apply map_id. Qed.

Lemma omap_set_map_keys (f f' : string -> V) k ks :
  NoDup ks -> In k ks ->
  (forall k', In k' ks -> k' <> k -> f' k' = f k') ->
  omap_set k (f' k) (map (fun k' => (k', f k')) ks)
  = map (fun k' => (k', f' k')) ks.
Proof.
  induction ks as [|a ks IH]; simpl; [tauto|].
  intros Hnd Hin Hf. inversion Hnd as [|? ? Hna Hnd']; subst.
  destruct (String.eqb_spec k a) as [->|Hne].
  - f_equal. apply map_ext_in. intros k' Hk'.
    rewrite Hf; auto. intros ->. tauto.
  - assert (Ha : f' a = f a) by (apply Hf; auto; congruence).
    rewrite Ha. f_equal. apply IH; auto.
    destruct Hin; congruence.
Qed.
End MapOverKeys.

Lemma groupEntries_snoc staticLabels entries e :
  groupEntries staticLabels (entries ++ [e])
  = groupStep staticLabels (groupEntries staticLabels entries) e.
Proof. unfold groupEntries. now rewrite fold_left_app. Qed.

Lemma filter_in_group_absent staticLabels k entries :
  ~ In k (map (labelKey staticLabels) entries) ->
  filter (in_group staticLabels k) entries = [].
Proof.
  induction entries as [|e entries IH]; simpl; auto.
  intros H. unfold in_group at 1.
  destruct (String.eqb_spec (labelKey staticLabels e) k); [tauto|].
  apply IH. tauto.
Qed.

(** The grouping loop computes [grouped]. *)
Lemma groupEntries_grouped staticLabels entries :
  groupEntries staticLabels entries = grouped staticLabels entries.
Proof.
  induction entries as [|e entries IH] using rev_ind; [reflexivity|].
  rewrite groupEntries_snoc, IH. unfold groupStep, grouped.
  set (key := labelKey staticLabels e).
  rewrite omap_get_map_keys, map_app.
  change (map (labelKey staticLabels) [e]) with [key].
  rewrite first_occurrences_snoc.
  destruct (in_dec string_dec key
              (first_occurrences (map (labelKey staticLabels) entries)))
    as [Hin|Hnin];
    destruct (in_dec string_dec key (map (labelKey staticLabels) entries))
      as [Hin'|Hnin'];
    try (rewrite in_first_occurrences in *; tauto).
  - assert (Hsnoc : filter (in_group staticLabels key) entries ++ [e]
                    = filter (in_group staticLabels key) (entries ++ [e])).
    { rewrite filter_app. simpl. unfold in_group at 3. fold key.
      now rewrite String.eqb_refl. }
    rewrite Hsnoc.
    apply (omap_set_map_keys
             (fun k => filter (in_group staticLabels k) entries)
             (fun k => filter (in_group staticLabels k) (entries ++ [e]))).
    + apply NoDup_first_occurrences.
    + assumption.
    + intros k' _ Hne. rewrite filter_app. simpl. unfold in_group at 2.
      fold key. destruct (String.eqb_spec key k'); [congruence|].
      now rewrite app_nil_r.
  - rewrite omap_set_absent
      by (rewrite omap_keys_map_keys; assumption).
    rewrite map_app. simpl. f_equal.
    + apply map_ext_in. intros k' Hk'. f_equal.
      rewrite filter_app. simpl. unfold in_group at 3. fold key.
      destruct (String.eqb_spec key k') as [<-|]; [tauto|].
      now rewrite app_nil_r.
    + rewrite filter_app. simpl. unfold in_group at 2. fold key.
      rewrite String.eqb_refl.
      now rewrite (filter_in_group_absent staticLabels key entries Hnin').
Qed.

(** Stream order is first-occurrence order of the keys, and no key has two
    streams. *)
Lemma groupEntries_keys staticLabels entries :
  omap_keys (groupEntries staticLabels entries)
  = first_occurrences (map (labelKey staticLabels) entries).
Proof. rewrite groupEntries_grouped. apply omap_keys_map_keys. Qed.

Lemma groupEntries_NoDup staticLabels entries :
  NoDup (omap_keys (groupEntries staticLabels entries)).
Proof. rewrite groupEntries_keys. apply NoDup_first_occurrences. Qed.

(** A group holds exactly the entries of its key, in input order. *)
Lemma groupEntries_group staticLabels entries k g :
  In (k, g) (groupEntries staticLabels entries) ->
  g = filter (in_group staticLabels k) entries /\ g <> [].
Proof.
  rewrite groupEntries_grouped. unfold grouped. rewrite in_map_iff.
  intros (k' & [= <- <-] & Hin). split; auto.
  rewrite in_first_occurrences, in_map_iff in Hin.
  destruct Hin as (e & He & Hin). intros Hnil.
  assert (Hf : In e (filter (in_group staticLabels k') entries)).
  { rewrite filter_In. split; auto. unfold in_group.
    now rewrite He, String.eqb_refl. }
  rewrite Hnil in Hf. exact Hf.
Qed.

(** Every entry is in the group of its key, and in no other. *)
Lemma groupEntries_member staticLabels entries e :
  In e entries ->
  exists g,
    In (labelKey staticLabels e, g) (groupEntries staticLabels entries) /\
    In e g /\
    forall k' g',
      In (k', g') (groupEntries staticLabels entries) -> In e g' ->
      k' = labelKey staticLabels e /\ g' = g.
Proof.
  intros Hin.
  set (k := labelKey staticLabels e).
  exists (filter (in_group staticLabels k) entries). split; [|split].
  - rewrite groupEntries_grouped. unfold grouped. rewrite in_map_iff.
    exists k. split; auto. rewrite in_first_occurrences. now apply in_map.
  - rewrite filter_In. split; auto. unfold in_group. fold k.
    apply String.eqb_refl.
  - intros k' g' Hg' He.
    destruct (groupEntries_group _ _ _ _ Hg') as [-> _].
    rewrite filter_In in He. destruct He as [_ He].
    unfold in_group in He. apply String.eqb_eq in He. fold k in He.
    now subst k'.
Qed.

(** The payload, stream by stream. *)
Lemma formatLokiPayload_streams now entries staticLabels :
  streams (formatLokiPayload now entries staticLabels)
  = map (fun k =>
           mkStream k
             (map (streamValue now)
                  (filter (in_group staticLabels k) entries)))
        (first_occurrences (map (labelKey staticLabels) entries)).
Proof.
  unfold formatLokiPayload. simpl.
  rewrite groupEntries_grouped. unfold grouped. now rewrite map_map.
Qed.

(** *** The call and its exceptions *)

Lemma JSON_stringify_result_returns v :
  serializable v = true ->
  JSON_stringify_result v = Returned (JSON_stringify v).
Proof. unfold JSON_stringify_result. now intros ->. Qed.

Lemma JSON_stringify_result_throws v :
  serializable v = false ->
  JSON_stringify_result v = Threw (ThrownError stringify_TypeError).
Proof. unfold JSON_stringify_result. now intros ->. Qed.

Lemma groupEntries_result_spec staticLabels entries streamMap :
  groupEntries_result staticLabels entries streamMap
  = if forallb (labels_serializable staticLabels) entries
    then Returned (fold_left (groupStep staticLabels) entries streamMap)
    else Threw (ThrownError stringify_TypeError).
Proof.
  revert streamMap. induction entries as [|e entries IH]; intros streamMap;
    [reflexivity|].
  cbn [groupEntries_result forallb fold_left].
  unfold labels_serializable at 1.
  destruct (serializable (JObj (labelsOf staticLabels e))) eqn:Hs.
  - rewrite JSON_stringify_result_returns by exact Hs. apply IH.
  - now rewrite JSON_stringify_result_throws by exact Hs.
Qed.

Lemma values_result_spec now group :
  values_result now group
  = if forallb line_serializable group
    then Returned (map (streamValue now) group)
    else Threw (ThrownError stringify_TypeError).
Proof.
  induction group as [|e group IH]; [reflexivity|].
  cbn [values_result forallb map]. unfold line_serializable at 1.
  destruct (serializable (JObj (logLine e))) eqn:Hs.
  - rewrite JSON_stringify_result_returns by exact Hs. rewrite IH.
    now destruct (forallb line_serializable group).
  - now rewrite JSON_stringify_result_throws by exact Hs.
Qed.

Lemma streams_result_spec now streamMap :
  streams_result now streamMap
  = if forallb (fun kg : string * list LogEntry =>
                  forallb line_serializable (snd kg)) streamMap
    then Returned
           (map (fun kg : string * list LogEntry =>
                   mkStream (fst kg) (map (streamValue now) (snd kg)))
                streamMap)
    else Threw (ThrownError stringify_TypeError).
Proof.
  induction streamMap as [|[k g] streamMap IH]; [reflexivity|].
  cbn [streams_result forallb map fst snd]. rewrite values_result_spec.
  destruct (forallb line_serializable g); [|reflexivity].
  rewrite IH.
  now destruct (forallb (fun kg : string * list LogEntry =>
                           forallb line_serializable (snd kg)) streamMap).
Qed.

Lemma forallb_andb {A} (p q : A -> bool) l :
  forallb (fun x => andb (p x) (q x)) l = andb (forallb p l) (forallb q l).
Proof.
  induction l as [|a l IH]; [reflexivity|]. cbn [forallb]. rewrite IH.
  destruct (p a), (q a), (forallb p l), (forallb q l); reflexivity.
Qed.

Lemma forallb_groups staticLabels entries (p : LogEntry -> bool) :
  forallb (fun kg : string * list LogEntry => forallb p (snd kg))
    (groupEntries staticLabels entries)
  = forallb p entries.
Proof.
  apply eq_true_iff_eq. rewrite !forallb_forall. split.
  - intros H e He.
    destruct (groupEntries_member staticLabels entries e He)
      as (g & Hg & Hin & _).
    specialize (H _ Hg). cbn [snd] in H. rewrite forallb_forall in H.
    now apply H.
  - intros H [k g] Hg. cbn [snd]. rewrite forallb_forall. intros e He.
    destruct (groupEntries_group _ _ _ _ Hg) as [-> _].
    apply filter_In in He. now apply H.
Qed.

(** The call [formatLokiPayload(entries, staticLabels)] returns the payload
    when every label object and every log line can be serialised, and
    throws otherwise. *)
Lemma formatLokiPayload_result_spec now entries staticLabels :
  formatLokiPayload_result now entries staticLabels
  = if forallb (entry_serializable staticLabels) entries
    then Returned (formatLokiPayload now entries staticLabels)
    else Threw (ThrownError stringify_TypeError).
Proof.
  unfold formatLokiPayload_result, entry_serializable.
  rewrite groupEntries_result_spec, forallb_andb.
  destruct (forallb (labels_serializable staticLabels) entries);
    [|reflexivity].
  fold (groupEntries staticLabels entries).
  rewrite streams_result_spec, forallb_groups. cbn [andb].
  now destruct (forallb line_serializable entries).
Qed.

(** On a collision the static label wins. *)
Lemma labelsOf_static_wins staticLabels e k v :
  wf_obj staticLabels ->
  obj_get k staticLabels = Some v ->
  obj_get k (labelsOf staticLabels e) = Some v.
Proof.
  intros Hwf Hk. unfold labelsOf.
  rewrite obj_get_spread by assumption. now rewrite Hk.
Qed.

Lemma event_of_no_key e : has_event_key e = false -> event_of e = JUndefined.
Proof.
  unfold has_event_key, event_of, has_key.
  destruct (metadata e) as [[props|err]|]; simpl; auto.
  - destruct (omap_get "event" props); [discriminate|reflexivity].
  - destruct (omap_get "event" (err_own err)); [discriminate|reflexivity].
Qed.

Lemma labelsOf_falsy_event staticLabels e :
  truthy (event_of e) = false ->
  labelsOf staticLabels e = labels_without_event staticLabels e.
Proof. unfold labelsOf. intros ->. reflexivity. Qed.

(** C9.  An entry whose [metadata.event] is falsy (the empty string, [0],
    [false], [null], [undefined]) gets the label object of an entry without
    any [event] property: no [event] label is derived from it, and in every
    payload it is in the one stream that also holds the entries of the same
    service and level that have no [event] key. *)
Theorem falsy_event_yields_no_event_label
    (staticLabels : Obj) (now : Z) (entries : list LogEntry)
    (e1 e2 : LogEntry) :
  In e1 entries -> In e2 entries ->
  truthy (event_of e1) = false ->
  has_event_key e2 = false ->
  service e1 = service e2 -> level e1 = level e2 ->
  labelsOf staticLabels e1 = labels_without_event staticLabels e1 /\
  labelsOf staticLabels e1 = labelsOf staticLabels e2 /\
  (exists g,
      In (labelKey staticLabels e1, g) (groupEntries staticLabels entries) /\
      In e1 g /\ In e2 g /\
      forall k' g',
        In (k', g') (groupEntries staticLabels entries) ->
        In e1 g' \/ In e2 g' -> k' = labelKey staticLabels e1 /\ g' = g) /\
  (exists st,
      In st (streams (formatLokiPayload now entries staticLabels)) /\
      stream st = JSON_stringify (JObj (labels_without_event staticLabels e1)) /\
      In (streamValue now e1) (values st) /\
      In (streamValue now e2) (values st)).
Proof.
  intros Hin1 Hin2 Hfalsy Hnokey Hsvc Hlvl.
  assert (Hl1 := labelsOf_falsy_event staticLabels e1 Hfalsy).
  assert (Hl2 : labelsOf staticLabels e2 = labels_without_event staticLabels e2).
  { apply labelsOf_falsy_event. now rewrite (event_of_no_key e2 Hnokey). }
  assert (Hsame : labelsOf staticLabels e1 = labelsOf staticLabels e2).
  { rewrite Hl1, Hl2. unfold labels_without_event. now rewrite Hsvc, Hlvl. }
  assert (Hkey : labelKey staticLabels e2 = labelKey staticLabels e1).
  { unfold labelKey. now rewrite Hsame. }
  destruct (groupEntries_member staticLabels entries e1 Hin1)
    as (g & Hg & He1 & Huniq).
  assert (He2 : In e2 g).
  { destruct (groupEntries_group _ _ _ _ Hg) as [-> _].
    rewrite filter_In. split; auto. unfold in_group.
    rewrite Hkey. apply String.eqb_refl. }
  split; [exact Hl1|]. split; [exact Hsame|]. split.
  - exists g. repeat split; auto.
    + destruct H0 as [H0|H0]; [now apply (Huniq k' g' H H0)|].
      destruct (groupEntries_member staticLabels entries e2 Hin2)
        as (g2 & Hg2 & _ & Huniq2).
      destruct (Huniq2 k' g' H H0) as [-> _]. exact Hkey.
    + destruct H0 as [H0|H0]; [now apply (Huniq k' g' H H0)|].
      destruct (groupEntries_group _ _ _ _ H) as [-> _].
      destruct (groupEntries_group _ _ _ _ Hg) as [-> _].
      rewrite filter_In in H0. destruct H0 as [_ H0].
      unfold in_group in H0. apply String.eqb_eq in H0.
      now rewrite <- H0, Hkey.
  - exists (mkStream (labelKey staticLabels e1) (map (streamValue now) g)).
    split; [|split; [|split]]; simpl.
    + unfold formatLokiPayload. simpl. rewrite in_map_iff.
      exists (labelKey staticLabels e1, g). auto.
    + unfold labelKey. now rewrite Hl1.
    + now apply in_map.
    + now apply in_map.
Qed.

Lemma falsy_event_yields_no_event_label_witness :
  In entry_empty_event [entry_with_event; entry_empty_event; entry_no_event] /\
  truthy (event_of entry_empty_event) = false /\
  has_event_key entry_no_event = false /\
  labelsOf [("environment", JStr "prod")] entry_empty_event
  = labelsOf [("environment", JStr "prod")] entry_no_event.
Proof.
  assert (H1 : In entry_empty_event
                 [entry_with_event; entry_empty_event; entry_no_event])
    by (simpl; tauto).
  assert (H2 : In entry_no_event
                 [entry_with_event; entry_empty_event; entry_no_event])
    by (simpl; tauto).
  split; [exact H1|]. split; [reflexivity|]. split; [reflexivity|].
  exact (proj1 (proj2
    (falsy_event_yields_no_event_label
       [("environment", JStr "prod")] 0
       [entry_with_event; entry_empty_event; entry_no_event]
       entry_empty_event entry_no_event
       H1 H2 eq_refl eq_refl eq_refl eq_refl))).
Defined.

(** *** Two streams for one label set *)

Lemma labelsOf_entry_evt :
  labelsOf static_with_event entry_evt
  = [("service", JStr "svc"); ("level", JStr "info");
     ("event", JStr "x"); ("foo", JStr "a")].
Proof. reflexivity. Qed.

Lemma labelsOf_entry_plain :
  labelsOf static_with_event entry_plain
  = [("service", JStr "svc"); ("level", JStr "info");
     ("foo", JStr "a"); ("event", JStr "x")].
Proof. reflexivity. Qed.

(** C6, at the input where it fails.  With the static labels
    [{ foo: "a", event: "x" }], an entry that carries [metadata.event] and an
    entry that does not get the same label set: the static [event] wins in
    both, every label has the same value in both objects.  The keys were
    inserted in a different order, the two JSON texts differ, and the payload
    has two streams for the one label set. *)
Theorem formatLokiPayload_splits_one_label_set :
  wf_obj static_with_event /\
  wf_obj (labelsOf static_with_event entry_evt) /\
  (forall k, obj_get k (labelsOf static_with_event entry_evt)
             = obj_get k (labelsOf static_with_event entry_plain)) /\
  Permutation (labelsOf static_with_event entry_evt)
              (labelsOf static_with_event entry_plain) /\
  labelKey static_with_event entry_evt
  <> labelKey static_with_event entry_plain /\
  streams (formatLokiPayload 0 [entry_evt; entry_plain] static_with_event)
  = [mkStream (labelKey static_with_event entry_evt)
       [streamValue 0 entry_evt];
     mkStream (labelKey static_with_event entry_plain)
       [streamValue 0 entry_plain]].
Proof.
  split; [|split; [|split; [|split; [|split]]]].
  - unfold wf_obj; simpl. repeat constructor; simpl; intuition discriminate.
  - rewrite labelsOf_entry_evt. unfold wf_obj; simpl.
    repeat constructor; simpl; intuition discriminate.
  - intros k. rewrite labelsOf_entry_evt, labelsOf_entry_plain. simpl.
    repeat match goal with
           | |- context [String.eqb k ?s] =>
               destruct (String.eqb_spec k s) as [->|?]; simpl;
               try reflexivity
           end.
  - rewrite labelsOf_entry_evt, labelsOf_entry_plain.
    do 2 apply perm_skip. apply perm_swap.
  - intros H. vm_compute in H. discriminate H.
  - vm_compute. reflexivity.
Qed.

End LokiFormatFacts.

(** ** Sorting a batch *)

Module SortFacts.
Export SortDefs.
Import JS Timestamp Types Formatters LokiTransport.

(** *** The sort, for a comparator that compares keys *)

Section KeyedSort.
Context {A : Type} (compareFn : A -> A -> option Z).
Context (key : A -> Z) (ok : A -> Prop).
Context (compare_keys :
           forall a b, ok a -> ok b ->
                       sorts_before compareFn a b = (key a <? key b)).

Lemma insert_perm x l : Permutation (x :: l) (insert compareFn x l).
Proof.
  induction l as [|y l IH]; simpl; auto.
  destruct (sorts_before compareFn y x); auto.
  rewrite perm_swap. now apply perm_skip.
Qed.

Lemma Array_sort_perm l : Permutation l (Array_sort compareFn l).
Proof.
  induction l as [|x l IH]; simpl; auto.
  rewrite <- insert_perm. now apply perm_skip.
Qed.

Lemma Array_sort_length l : length (Array_sort compareFn l) = length l.
Proof. symmetry. apply Permutation_length, Array_sort_perm. Qed.

Lemma insert_ok x l : ok x -> Forall ok l -> Forall ok (insert compareFn x l).
Proof.
  intros Hx Hl.
  apply (Permutation_Forall (insert_perm x l)). now constructor.
Qed.

Lemma Array_sort_ok l : Forall ok l -> Forall ok (Array_sort compareFn l).
Proof. intros H. now apply (Permutation_Forall (Array_sort_perm l)). Qed.

Lemma insert_sorted x l :
  ok x -> Forall ok l ->
  StronglySorted (key_le key) l -> StronglySorted (key_le key) (insert compareFn x l).
Proof.
  intros Hx Hok Hs. induction Hs as [|y l Hs IH Hy]; simpl.
  - repeat constructor.
  - inversion Hok as [|? ? Hoky Hokl]; subst.
    rewrite (compare_keys y x Hoky Hx).
    destruct (Z.ltb_spec (key y) (key x)) as [Hlt|Hge].
    + constructor; [now apply IH|].
      apply (Permutation_Forall (insert_perm x l)).
      constructor; [unfold key_le; lia | assumption].
    + constructor; [now constructor|].
      constructor; [exact Hge|].
      eapply Forall_impl; [|exact Hy].
      unfold key_le. intros; lia.
Qed.

Lemma Array_sort_sorted l :
  Forall ok l -> StronglySorted (key_le key) (Array_sort compareFn l).
Proof.
  induction l as [|x l IH]; simpl; intros H.
  - constructor.
  - inversion H; subst.
    apply insert_sorted; auto. now apply Array_sort_ok.
Qed.

(** Stability: the elements of one key value keep their order. *)
Lemma insert_stable t x l :
  ok x -> Forall ok l ->
  filter (has_key_value key t) (insert compareFn x l)
  = filter (has_key_value key t) (x :: l).
Proof.
  intros Hx Hok. induction l as [|y l IH]; [reflexivity|].
  inversion Hok as [|? ? Hoky Hokl]; subst.
  simpl insert. rewrite (compare_keys y x Hoky Hx).
  destruct (Z.ltb_spec (key y) (key x)) as [Hlt|Hge]; [|reflexivity].
  simpl. rewrite (IH Hokl). simpl. unfold has_key_value.
  destruct (Z.eqb_spec (key y) t), (Z.eqb_spec (key x) t);
    try reflexivity. lia.
Qed.

Lemma Array_sort_stable t l :
  Forall ok l ->
  filter (has_key_value key t) (Array_sort compareFn l)
  = filter (has_key_value key t) l.
Proof.
  induction l as [|x l IH]; intros H; [reflexivity|].
  inversion H; subst. simpl Array_sort.
  rewrite insert_stable by (auto using Array_sort_ok).
  simpl. now rewrite IH.
Qed.

(** A list that is sorted on the keys is determined by its elements of
    each key value, in their order: whatever algorithm an engine runs, a
    stable sort returns what [Array_sort] returns. *)
Lemma sorted_stable_unique l1 l2 :
  StronglySorted (key_le key) l1 -> StronglySorted (key_le key) l2 ->
  (forall t, filter (has_key_value key t) l1 = filter (has_key_value key t) l2) ->
  l1 = l2.
Proof.
  intros Hs1. revert l2.
  induction Hs1 as [|a l1 Hs1 IH Ha]; intros l2 Hs2 Hf.
  - destruct l2 as [|b l2]; auto.
    specialize (Hf (key b)). simpl in Hf. unfold has_key_value in Hf.
    rewrite Z.eqb_refl in Hf. discriminate.
  - destruct Hs2 as [|b l2 Hs2 Hb].
    + specialize (Hf (key a)). simpl in Hf. unfold has_key_value in Hf.
      rewrite Z.eqb_refl in Hf. discriminate.
    + assert (Hkey : key a = key b).
      { assert (Hab : key a <= key b).
        { assert (Hin : In b (a :: l1)).
          { assert (H : In b (filter (has_key_value key (key b)) (a :: l1))).
            { rewrite Hf. simpl. unfold has_key_value at 1.
              rewrite Z.eqb_refl. now left. }
            apply filter_In in H. tauto. }
          destruct Hin as [->|Hin]; [lia|].
          rewrite Forall_forall in Ha. apply (Ha b Hin). }
        assert (Hba : key b <= key a).
        { assert (Hin : In a (b :: l2)).
          { assert (H : In a (filter (has_key_value key (key a)) (b :: l2))).
            { rewrite <- Hf. simpl. unfold has_key_value at 1.
              rewrite Z.eqb_refl. now left. }
            apply filter_In in H. tauto. }
          destruct Hin as [->|Hin]; [lia|].
          rewrite Forall_forall in Hb. apply (Hb a Hin). }
        lia. }
      assert (Ha1 : has_key_value key (key a) a = true)
        by (unfold has_key_value; apply Z.eqb_refl).
      assert (Hb1 : has_key_value key (key a) b = true)
        by (unfold has_key_value; rewrite Hkey; apply Z.eqb_refl).
      assert (Hhead := Hf (key a)). simpl in Hhead.
      rewrite Ha1, Hb1 in Hhead. injection Hhead as -> _.
      f_equal. apply IH; auto.
      intros t. specialize (Hf t). simpl in Hf.
      destruct (has_key_value key t b); congruence.
Qed.

Lemma stable_sort_unique l l' :
  Forall ok l ->
  StronglySorted (key_le key) l' ->
  (forall t, filter (has_key_value key t) l' = filter (has_key_value key t) l) ->
  l' = Array_sort compareFn l.
Proof.
  intros Hok Hs Hf. apply sorted_stable_unique; auto.
  - now apply Array_sort_sorted.
  - intros t. now rewrite Hf, Array_sort_stable.
Qed.
End KeyedSort.

(** *** Entries by timestamp *)

Lemma byTimestamp_keys a b :
  valid_timestamp a -> valid_timestamp b ->
  sorts_before byTimestamp a b = (time_ms a <? time_ms b).
Proof.
  unfold valid_timestamp, sorts_before, byTimestamp, time_ms.
  destruct (getTime (timestamp a)), (getTime (timestamp b));
    try congruence.
  intros _ _.
  destruct (Z.ltb_spec (z - z0) 0), (Z.ltb_spec z z0); auto; lia.
Qed.

(** C5.  When [sendBatch] passes its guard, the list it hands to
    [formatLokiPayload] is the batch sorted by timestamp: the same entries,
    in ascending order of time, and entries with the same time in the order
    in which they were enqueued. *)
Theorem sendBatch_sorts_by_timestamp (now : Z) (s : LokiTransport.t) :
  batch s <> [] -> isFlushing s = false ->
  Forall valid_timestamp (batch s) ->
  exists tk,
    snd (sendBatch now s) = Some tk /\
    task_payload tk
    = formatLokiPayload now (task_entries tk) (staticLabels s) /\
    task_entries tk = Array_sort byTimestamp (batch s) /\
    Permutation (batch s) (task_entries tk) /\
    StronglySorted not_after (task_entries tk) /\
    forall t, filter (at_time t) (task_entries tk)
              = filter (at_time t) (batch s).
Proof.
  intros Hne Hfl Hok.
  assert (Hlen : Nat.eqb (length (batch s)) 0 = false)
    by (destruct (batch s); [congruence|reflexivity]).
  unfold sendBatch. rewrite Hlen, Hfl. simpl orb. cbv iota.
  eexists. split; [reflexivity|]. simpl.
  split; [reflexivity|]. split; [reflexivity|]. split; [|split].
  - apply Array_sort_perm.
  - apply (Array_sort_sorted byTimestamp time_ms valid_timestamp
             byTimestamp_keys); assumption.
  - intros t.
    apply (Array_sort_stable byTimestamp time_ms valid_timestamp
             byTimestamp_keys); assumption.
Qed.

Lemma sendBatch_sorts_by_timestamp_witness :
  batch sink_unsorted <> [] /\
  isFlushing sink_unsorted = false /\
  Forall valid_timestamp (batch sink_unsorted) /\
  exists tk,
    snd (sendBatch 0 sink_unsorted) = Some tk /\
    task_entries tk = [entry_early; entry_late; entry_late'].
Proof.
  assert (H1 : batch sink_unsorted <> []) by discriminate.
  assert (H3 : Forall valid_timestamp (batch sink_unsorted)).
  { repeat constructor; discriminate. }
  split; [exact H1|]. split; [reflexivity|]. split; [exact H3|].
  destruct (sendBatch_sorts_by_timestamp 0 sink_unsorted H1 eq_refl H3)
    as (tk & Htk & _ & Hsorted & _).
  exists tk. split; [exact Htk|]. rewrite Hsorted. reflexivity.
Defined.

End SortFacts.

(** ** Retry with backoff *)

Module RetryFacts.
Export RetryDefs.
Import JS Async Retry.

Lemma calls_backoff_trace {Q} (q : Q) d a n :
  calls (backoff_trace q d a n) = n.
Proof.
  revert a. induction n as [|n IH]; intros a; [reflexivity|].
  destruct n as [|n]; [reflexivity|].
  specialize (IH (a + 1)). unfold calls in *. simpl in *. now rewrite IH.
Qed.

Lemma sleeps_backoff_trace {Q} (q : Q) d a m :
  sleeps (backoff_trace q d a (S m)) = delays d a m.
Proof.
  revert a. induction m as [|m IH]; intros a; [reflexivity|].
  specialize (IH (a + 1)). simpl in *. now rewrite IH.
Qed.



Lemma last_backoff_trace {Q} (q : Q) d a n :
  last (backoff_trace q d a (S n)) (EvCall q) = EvCall q.
Proof.
  revert a. induction n as [|n IH]; intros a; [reflexivity|].
  specialize (IH (a + 1)).
  change (backoff_trace q d a (S (S n)))
    with (EvCall q :: EvSleep (d * 2 ^ a) :: backoff_trace q d (a + 1) (S n)).
  remember (backoff_trace q d (a + 1) (S n)) as tr eqn:Htr.
  destruct tr as [|ev tr]; [discriminate Htr|].
  exact IH.
Qed.

Section Run.
Context {Q A : Type}.

(** A [try]/[catch] around a computation: the handler runs after what the
    computation did, if it threw. *)
Lemma run_try_catch {R} (env : nat -> Outcome A) (p : Prog Q A R)
    (h : Thrown -> Prog Q A R) n :
  run env n (try_catch p h) =
  match run env n p with
  | (tr, Returned r, n') => (tr, Returned r, n')
  | (tr, Threw e, n') =>
      let '(tr', res, n'') := run env n' (h e) in (tr ++ tr', res, n'')
  end.
Proof.
  revert n. induction p as [r|e|q k IH|ms k IH|msg err k IH]; intros n; simpl.
  - reflexivity.
  - destruct (run env n (h e)) as [[tr' res] n'']. reflexivity.
  - rewrite IH. destruct (run env (S n) (k (env n))) as [[tr [r|e]] n'];
      [reflexivity|].
    destruct (run env n' (h e)) as [[tr' res] n'']. reflexivity.
  - rewrite IH. destruct (run env n k) as [[tr [r|e]] n']; [reflexivity|].
    destruct (run env n' (h e)) as [[tr' res] n'']. reflexivity.
  - rewrite IH. destruct (run env n k) as [[tr [r|e]] n']; [reflexivity|].
    destruct (run env n' (h e)) as [[tr' res] n'']. reflexivity.
Qed.

Context {T : Type} (q : Q) (k : Outcome A -> Prog Q A T).
Context (env : nat -> Outcome A) (retries baseDelay : Z).

(** The loop, when the first [j] invocations throw and the next one
    returns. *)
Lemma retry_loop_first_success (j : nat) (v : T) :
  forall (fuel n : nat) (attempt : Z) (lastError : option JSError),
    (j < fuel)%nat ->
    attempt + Z.of_nat j <= retries ->
    (forall i, (i < j)%nat -> exists e, k (env (n + i)) = Throw e) ->
    k (env (n + j)) = Ret v ->
    run env n (retry_loop (Call q k) retries baseDelay fuel attempt lastError)
    = (backoff_trace q baseDelay attempt (S j), Returned v, (n + S j)%nat).
Proof.
  induction j as [|j IH]; intros fuel n attempt lastError Hfuel Hle Hfail Hok.
  - destruct fuel as [|fuel]; [lia|]. simpl.
    destruct (Z.leb_spec attempt retries); [|lia].
    simpl. rewrite Nat.add_0_r in Hok. rewrite Hok. simpl.
    now rewrite Nat.add_1_r.
  - destruct fuel as [|fuel]; [lia|]. simpl retry_loop.
    destruct (Z.leb_spec attempt retries); [|lia].
    simpl. destruct (Hfail 0%nat) as [e He]; [lia|].
    rewrite Nat.add_0_r in He. rewrite He. simpl.
    destruct (Z.eqb_spec attempt retries); [lia|].
    simpl. rewrite (IH fuel (S n) (attempt + 1)).
    + replace (n + S (S j))%nat with (S n + S j)%nat by lia. reflexivity.
    + lia.
    + lia.
    + intros i Hi. destruct (Hfail (S i)) as [e' He']; [lia|].
      exists e'. now rewrite Nat.add_succ_r in He'.
    + now rewrite Nat.add_succ_r in Hok.
Qed.

(** The loop, when every invocation throws: [m + 1] invocations are left
    when [attempt = retries - m]. *)
Lemma retry_loop_all_fail (m : nat) :
  forall (fuel n : nat) (attempt : Z) (lastError : option JSError),
    (m < fuel)%nat ->
    attempt + Z.of_nat m = retries ->
    (forall i, exists e, k (env i) = Throw e) ->
    run env n (retry_loop (Call q k) retries baseDelay fuel attempt lastError)
    = (backoff_trace q baseDelay attempt (S m),
       Threw (ThrownError (toError (thrown_by k (env (n + m))))),
       (n + S m)%nat).
Proof.
  induction m as [|m IH]; intros fuel n attempt lastError Hfuel Hle Hfail.
  - destruct fuel as [|fuel]; [lia|]. simpl.
    destruct (Z.leb_spec attempt retries); [|lia].
    simpl. rewrite Nat.add_0_r. unfold thrown_by.
    destruct (Hfail n) as [e He]. rewrite He. simpl.
    destruct (Z.eqb_spec attempt retries); [|lia].
    simpl. now rewrite Nat.add_1_r.
  - destruct fuel as [|fuel]; [lia|]. simpl retry_loop.
    destruct (Z.leb_spec attempt retries); [|lia].
    simpl. destruct (Hfail n) as [e He]. rewrite He. simpl.
    destruct (Z.eqb_spec attempt retries); [lia|].
    simpl. rewrite (IH fuel (S n) (attempt + 1)); [|lia|lia|assumption].
    replace (n + S (S m))%nat with (S n + S m)%nat by lia.
    replace (n + S m)%nat with (S n + m)%nat by lia. reflexivity.
Qed.
End Run.

(** The result of [retryWithBackoff] when every invocation throws. *)
Lemma retryWithBackoff_all_fail {Q A T} (q : Q) (k : Outcome A -> Prog Q A T)
    (env : nat -> Outcome A) (retries baseDelay : Z) :
  0 <= retries ->
  (forall i, exists e, k (env i) = Throw e) ->
  run env 0 (retryWithBackoff (Call q k) retries baseDelay)
  = (backoff_trace q baseDelay 0 (S (Z.to_nat retries)),
     Threw (ThrownError (toError (thrown_by k (env (Z.to_nat retries))))),
     S (Z.to_nat retries)).
Proof.
  intros Hr Hfail. unfold retryWithBackoff.
  rewrite (retry_loop_all_fail q k env retries baseDelay (Z.to_nat retries));
    auto; lia.
Qed.

(** C10.  [retryWithBackoff] applied to an asynchronous function [invoke q]
    whose invocations the environment settles: when invocation number [j]
    (counted from 0, [j <= retries]) is the first to succeed, the result is
    its value, the function has been invoked [j + 1] times, the delays are
    those of the [j] failures, and the successful invocation is the last
    event.  With [retries = 0] a failing function is invoked once, nothing
    is slept, and the error is thrown (as it is when it is an [Error]
    instance, wrapped in a new [Error] otherwise). *)
Theorem retryWithBackoff_returns_first_success
    {Q T : Type} (q : Q) (env : nat -> Outcome T) (retries baseDelay : Z) :
  (forall (j : nat) (v : T),
      Z.of_nat j <= retries ->
      (forall i, (i < j)%nat -> exists e, env i = Rejected e) ->
      env j = Resolved v ->
      let '(tr, res, n) :=
        run env 0 (retryWithBackoff (invoke q) retries baseDelay) in
      res = Returned v /\
      n = S j /\
      tr = backoff_trace q baseDelay 0 (S j) /\
      calls tr = S j /\
      sleeps tr = delays baseDelay 0 j /\
      last tr (EvCall q) = EvCall q) /\
  (forall e,
      env 0%nat = Rejected e ->
      run env 0 (retryWithBackoff (invoke q) 0 baseDelay)
      = ([EvCall q], Threw (ThrownError (toError e)), 1%nat) /\
      (forall err, e = ThrownError err -> toError e = err)).
Proof.
  split.
  - intros j v Hj Hfail Hok. unfold retryWithBackoff, invoke.
    rewrite (retry_loop_first_success q _ env retries baseDelay j v).
    + repeat split.
      * apply calls_backoff_trace.
      * apply sleeps_backoff_trace.
      * apply last_backoff_trace.
    + lia.
    + lia.
    + intros i Hi. destruct (Hfail i Hi) as [e He]. exists e.
      simpl. now rewrite He.
    + simpl. now rewrite Hok.
  - intros e He. split.
    + unfold retryWithBackoff, invoke. simpl. now rewrite He.
    + now intros err ->.
Qed.

Lemma retryWithBackoff_returns_first_success_witness :
  Z.of_nat 2 <= 3 /\
  third_time_lucky 2%nat = Resolved 7 /\
  run third_time_lucky 0 (retryWithBackoff (invoke tt) 3 1000)
  = ([EvCall tt; EvSleep 1000; EvCall tt; EvSleep 2000; EvCall tt],
     Returned 7, 3%nat).
Proof.
  assert (H1 : Z.of_nat 2 <= 3) by lia.
  assert (H2 : forall i, (i < 2)%nat ->
                         exists e, third_time_lucky i = Rejected e).
  { intros [|[|i]] Hi; [eexists; reflexivity..|lia]. }
  split; [exact H1|]. split; [reflexivity|].
  pose proof (proj1 (retryWithBackoff_returns_first_success
                       tt third_time_lucky 3 1000) 2%nat 7 H1 H2 eq_refl)
    as H.
  destruct (run third_time_lucky 0 (retryWithBackoff (invoke tt) 3 1000))
    as [[tr res] n].
  destruct H as (-> & -> & -> & _). reflexivity.
Defined.

End RetryFacts.

(** ** The Loki transport *)

Module TransportFacts.
Export TransportDefs.
Import JS Timestamp Types Formatters Async Retry LokiTransport.
Import RetryFacts SortFacts.
Import LokiFormatFacts.

(** *** [sendBatch] *)

Lemma sendBatch_guard now s :
  batch s = [] \/ isFlushing s = true -> sendBatch now s = (s, None).
Proof.
  intros [H|H]; unfold sendBatch; rewrite H; simpl;
    rewrite ?orb_true_r; reflexivity.
Qed.

Lemma sendBatch_takes now s :
  batch s <> [] -> isFlushing s = false ->
  sendBatch now s = (set_batch [] s, Some (batchTask now s)).
Proof.
  intros Hne Hfl. unfold sendBatch. rewrite Hfl.
  destruct (batch s) eqn:Hb; [congruence|]. simpl.
  unfold batchTask. rewrite Hb. reflexivity.
Qed.

Lemma same_fields_refl s : same_fields s s.
Proof. destruct s; reflexivity. Qed.

Lemma sendBatch_conserves now s :
  Permutation (batch s)
    (concat (taken_of (sendBatch now s)) ++ batch (fst (sendBatch now s))) /\
  same_fields s (fst (sendBatch now s)).
Proof.
  destruct (batch s) as [|e l] eqn:Hb.
  - rewrite sendBatch_guard by auto. simpl. rewrite Hb.
    split; [constructor | apply same_fields_refl].
  - destruct (isFlushing s) eqn:Hfl.
    + rewrite sendBatch_guard by auto. simpl. rewrite Hb.
      split; [reflexivity | apply same_fields_refl].
    + rewrite sendBatch_takes by congruence.
      unfold taken_of, batchTask. simpl. rewrite !app_nil_r, Hb.
      split; [apply Array_sort_perm | reflexivity].
Qed.

Lemma sendBatch_caught_fst now s :
  fst (sendBatch_caught now s) = fst (sendBatch now s).
Proof.
  unfold sendBatch_caught. now destruct (sendBatch now s) as [s' [tk|]].
Qed.

Lemma sendBatch_caught_taken now s :
  taken_of (sendBatch_caught now s) = taken_of (sendBatch now s).
Proof.
  unfold sendBatch_caught, taken_of.
  now destruct (sendBatch now s) as [s' [tk|]].
Qed.

Lemma log_conserves now e s :
  Permutation (batch s ++ [e])
    (concat (taken_of (log now e s)) ++ batch (fst (log now e s))) /\
  same_fields s (fst (log now e s)).
Proof.
  unfold log.
  set (s1 := set_batch (batch s ++ [e]) s).
  assert (H1 : batch s1 = batch s ++ [e]) by reflexivity.
  destruct (Z.of_nat (length (batch s1)) >=? batchSize s1).
  - rewrite sendBatch_caught_fst, sendBatch_caught_taken, <- H1.
    destruct (sendBatch_conserves now s1) as [Hp Hf]. split; [exact Hp|].
    exact Hf.
  - simpl. split; reflexivity.
Qed.

Lemma timerCallback_conserves now s :
  Permutation (batch s)
    (concat (taken_of (timerCallback now s))
     ++ batch (fst (timerCallback now s))) /\
  same_fields s (fst (timerCallback now s)).
Proof.
  unfold timerCallback.
  destruct (0 <? Z.of_nat (length (batch s))).
  - rewrite sendBatch_caught_fst, sendBatch_caught_taken.
    apply sendBatch_conserves.
  - simpl. split; [reflexivity | apply same_fields_refl].
Qed.

(** *** Worlds *)

Lemma taken_app h1 h2 : taken (h1 ++ h2) = taken h1 ++ taken h2.
Proof.
  induction h1 as [|[] h1 IH]; simpl; auto. now rewrite IH.
Qed.


(** Running the body of a task touches neither the fields of the transport
    nor the timers, and takes no batch. *)
Lemma advance_frame id p w :
  sink (advance id p w) = sink w /\
  clock (advance id p w) = clock w /\
  timers (advance id p w) = timers w /\
  waiters (advance id p w) = waiters w /\
  nextId (advance id p w) = nextId w /\
  taken (history (advance id p w)) = taken (history w).
Proof.
  revert w. induction p as [r|e|q k _|ms k _|msg err k IH]; intros w;
    simpl; try (rewrite taken_app, app_nil_r; tauto).
  destruct (IH (mkWorld (sink w) (clock w) (timers w) (tasks w) (settled w)
                  (waiters w) (nextId w) (history w ++ [ObsConsole msg err])))
    as (H1 & H2 & H3 & H4 & H5 & H6).
  simpl in *. rewrite taken_app, app_nil_r in H6. tauto.
Qed.

Lemma spawn_frame r w :
  sink (fst (spawn r w)) = fst r /\
  clock (fst (spawn r w)) = clock w /\
  timers (fst (spawn r w)) = timers w /\
  waiters (fst (spawn r w)) = waiters w /\
  taken (history (fst (spawn r w))) = taken (history w) ++ taken_of r.
Proof.
  unfold spawn, taken_of. destruct (snd r) as [tk|]; simpl.
  - match goal with
    | |- context [advance ?id ?p ?w1] =>
        destruct (advance_frame id p w1) as (H1 & H2 & H3 & H4 & _ & H6)
    end.
    simpl in *. rewrite H1, H2, H3, H4, H6, taken_app. tauto.
  - rewrite app_nil_r. tauto.
Qed.

Lemma accounted_spawn r w (l : list LogEntry) :
  Permutation l (concat (taken_of r) ++ batch (fst r)) ->
  Permutation (concat (taken (history w)) ++ l) (accounted (fst (spawn r w))).
Proof.
  intros Hp. unfold accounted.
  destruct (spawn_frame r w) as (H1 & _ & _ & _ & H5).
  rewrite H1, H5, concat_app, <- app_assoc.
  now apply Permutation_app_head.
Qed.

(** [flush()] never sends: the flag it has just set makes its own call of
    [sendBatch] return at the guard. *)
Lemma flush_never_sends w :
  flush w =
  let s1 :=
    match batchTimer (sink w) with
    | Some _ => set_batchTimer None (sink w)
    | None => sink w
    end in
  let timers' :=
    match batchTimer (sink w) with
    | Some h => remove Nat.eq_dec h (timers w)
    | None => timers w
    end in
  if Nat.eqb (length (batch (sink w))) 0
  then mkWorld (set_isFlushing false (set_isFlushing true s1)) (clock w)
         timers' (tasks w) (settled w) (waiters w) (nextId w)
         (history w ++ [ObsFlushed true])
  else mkWorld (set_isFlushing true s1) (clock w) timers' (tasks w)
         (settled w) (waiters w ++ [None]) (nextId w) (history w).
Proof.
  unfold flush.
  destruct (batchTimer (sink w)) as [h|]; simpl;
    destruct (batch (sink w)) as [|e l]; simpl; try reflexivity;
    unfold sendBatch; simpl; rewrite orb_true_r; reflexivity.
Qed.

Lemma flush_batch w : batch (sink (flush w)) = batch (sink w).
Proof.
  rewrite flush_never_sends. simpl.
  destruct (batchTimer (sink w)), (Nat.eqb (length (batch (sink w))) 0);
    reflexivity.
Qed.

Lemma flush_taken w :
  taken (history (flush w)) = taken (history w).
Proof.
  rewrite flush_never_sends. simpl.
  destruct (Nat.eqb (length (batch (sink w))) 0); simpl; auto.
  now rewrite taken_app, app_nil_r.
Qed.

Lemma step_accounted w i w' :
  step w i = Some w' ->
  Permutation (accounted w ++ logged [i]) (accounted w').
Proof.
  destruct i as [e| |h|id o|id|j|now]; simpl; intros Hstep.
  - injection Hstep as <-. unfold accounted at 1. rewrite <- app_assoc.
    apply accounted_spawn, log_conserves.
  - injection Hstep as <-. rewrite app_nil_r. unfold accounted.
    now rewrite flush_batch, flush_taken.
  - destruct (existsb (Nat.eqb h) (timers w)); [|discriminate].
    injection Hstep as <-. rewrite app_nil_r.
    apply accounted_spawn, timerCallback_conserves.
  - destruct (find_task id (tasks w)) as [[]|]; try discriminate.
    injection Hstep as <-. rewrite app_nil_r. unfold accounted.
    destruct (advance_frame id (k o) w) as (-> & _ & _ & _ & _ & ->).
    reflexivity.
  - destruct (find_task id (tasks w)) as [[]|]; try discriminate.
    injection Hstep as <-. rewrite app_nil_r. unfold accounted.
    destruct (advance_frame id k w) as (-> & _ & _ & _ & _ & ->).
    reflexivity.
  - unfold flush_resume in Hstep.
    destruct (nth_error (waiters w) j) as [promise|]; [|discriminate].
    destruct (match promise with
              | Some id => find_settled id (settled w)
              | None => Some true
              end) as [[]|]; try discriminate;
      injection Hstep as <-; rewrite app_nil_r; unfold accounted; simpl;
      now rewrite taken_app, app_nil_r.
  - injection Hstep as <-. rewrite app_nil_r. reflexivity.
Qed.

Lemma logged_app l1 l2 : logged (l1 ++ l2) = logged l1 ++ logged l2.
Proof.
  induction l1 as [|[] l1 IH]; simpl; auto. now rewrite IH.
Qed.

(** Every entry given to [log] is pending or in one taken batch, with its
    multiplicity. *)
Lemma exec_accounted inputs :
  forall w w',
    exec w inputs = Some w' ->
    Permutation (accounted w ++ logged inputs) (accounted w').
Proof.
  induction inputs as [|i inputs IH]; intros w w' H; simpl in H.
  - injection H as <-. simpl. now rewrite app_nil_r.
  - destruct (step w i) as [w1|] eqn:Hs; [|discriminate].
    change (logged (i :: inputs)) with (logged ([i] ++ inputs)).
    rewrite logged_app, app_assoc.
    rewrite (Permutation_app_tail _ (step_accounted w i w1 Hs)).
    now apply IH.
Qed.

(** *** Tasks *)


(** A body that is wrapped in a handler ending in [Ret] never rejects. *)
Lemma run_caught_returns (p : SendProg) (msg : string) env n :
  snd (fst (run env n
              (try_catch p (fun error => ConsoleError msg error (Ret tt)))))
  = Returned tt.
Proof.
  rewrite run_try_catch.
  destruct (run env n p) as [[tr [[]|e]] n']; reflexivity.
Qed.

Lemma advance_history id p w :
  exists rest, history (advance id p w) = history w ++ rest.
Proof.
  revert w. induction p as [r|e|q k _|ms k _|msg err k IH]; intros w;
    simpl; eauto.
  match goal with
  | |- context [advance id k ?w1] => destruct (IH w1) as [rest Hr]
  end.
  rewrite Hr. simpl. rewrite <- app_assoc. eauto.
Qed.


Lemma step_respond_advance id q k o w :
  step (advance id (Call q k) w) (InRespond id o)
  = Some (advance id (k o) (advance id (Call q k) w)).
Proof. simpl. now rewrite Nat.eqb_refl. Qed.

Lemma step_wake_advance id ms k w :
  step (advance id (Sleep ms k) w) (InWake id)
  = Some (advance id k (advance id (Sleep ms k) w)).
Proof. simpl. now rewrite Nat.eqb_refl. Qed.

(** The transition system runs a task as [run] describes it: the history
    grows by the events of the run, then by the settlement of the task, and
    the fields of the transport are not touched. *)
Lemma exec_drive id env (p : SendProg) :
  forall n w,
  exists w',
    exec (advance id p w) (drive id env n p) = Some w' /\
    sink w' = sink w /\
    history w'
    = history w
      ++ map (obs_of_event id) (fst (fst (run env n p)))
      ++ [obs_of_result id (snd (fst (run env n p)))].
Proof.
  induction p as [r|e|q k IH|ms k IH|msg err k IH]; intros n w.
  - simpl. eauto.
  - simpl. eauto.
  - set (w1 := advance id (Call q k) w).
    destruct (IH (env n) (S n) w1) as (w' & Hex & Hsink & Hhist).
    exists w'. split; [|split].
    + change (drive id env n (Call q k))
        with (InRespond id (env n) :: drive id env (S n) (k (env n))).
      cbn [exec]. fold w1. unfold w1 at 1.
      rewrite step_respond_advance. exact Hex.
    + rewrite Hsink. apply advance_frame.
    + rewrite Hhist. unfold w1. simpl.
      destruct (run env (S n) (k (env n))) as [[tr res] n']. simpl.
      now rewrite <- app_assoc.
  - set (w1 := advance id (Sleep ms k) w).
    destruct (IH n w1) as (w' & Hex & Hsink & Hhist).
    exists w'. split; [|split].
    + change (drive id env n (Sleep ms k))
        with (InWake id :: drive id env n k).
      cbn [exec]. fold w1. unfold w1 at 1.
      rewrite step_wake_advance. exact Hex.
    + rewrite Hsink. apply advance_frame.
    + rewrite Hhist. unfold w1. simpl.
      destruct (run env n k) as [[tr res] n']. simpl.
      now rewrite <- app_assoc.
  - simpl advance. simpl drive.
    match goal with
    | |- context [advance id k ?w2] =>
        destruct (IH n w2) as (w' & Hex & Hsink & Hhist)
    end.
    exists w'. split; [exact Hex|]. split; [exact Hsink|].
    rewrite Hhist. simpl.
    destruct (run env n k) as [[tr res] n']. simpl.
    now rewrite <- app_assoc.
Qed.

(** *** Sends in flight *)

(** C3, as stated, fails: [sendBatch] has no guard for a send in flight.
    After two entries have filled a batch of size two, a request is
    pending; a third entry is then buffered, and the next call of
    [sendBatch] (from the timer) takes it and starts a second request while
    the first has not settled. *)
Lemma sendBatch_overlaps_send_in_flight :
  match exec world2 [InLog entry1; InLog entry2; InLog entry3] with
  | Some w =>
      length (tasks w) = 1%nat /\
      batch (sink w) = [entry3] /\
      fst (sendBatch (clock w) (sink w)) <> sink w /\
      match step w (InTick 1) with
      | Some w' => length (tasks w') = 2%nat /\ batch (sink w') = []
      | None => False
      end
  | None => False
  end.
Proof.
  vm_compute. repeat split; try reflexivity. intros H. discriminate H.
Qed.

(** C3, amended.  [sendBatch] returns at once, changing nothing, exactly
    when the buffer is empty or the flushing flag is set (a send in flight
    does not stop it).  Otherwise it empties the buffer and starts a task
    on the sorted snapshot; the snapshot is recorded before anything the
    task does.  In every run of a transport, the entries given to [log] are,
    with their multiplicity, the entries of the batches taken so far
    together with the pending ones. *)
Theorem sendBatch_takes_batch_unless_flushing :
  (forall now s,
      batch s = [] \/ isFlushing s = true -> sendBatch now s = (s, None)) /\
  (forall now s,
      batch s <> [] -> isFlushing s = false ->
      sendBatch now s = (set_batch [] s, Some (batchTask now s)) /\
      task_entries (batchTask now s) = Array_sort byTimestamp (batch s) /\
      Permutation (batch s) (task_entries (batchTask now s))) /\
  (forall now s w,
      batch s <> [] -> isFlushing s = false ->
      batch (sink (fst (spawn (sendBatch now s) w))) = [] /\
      exists rest,
        history (fst (spawn (sendBatch now s) w))
        = history w
          ++ ObsTaken (nextId w) (Array_sort byTimestamp (batch s)) :: rest) /\
  (forall lokiUrl config now inputs w,
      exec (init lokiUrl config now) inputs = Some w ->
      Permutation (logged inputs)
        (concat (taken (history w)) ++ batch (sink w))).
Proof.
  split; [|split; [|split]].
  - apply sendBatch_guard.
  - intros now s Hne Hfl. split; [now apply sendBatch_takes|].
    split; [reflexivity | apply Array_sort_perm].
  - intros now s w Hne Hfl. rewrite sendBatch_takes by assumption.
    destruct (spawn_frame (set_batch [] s, Some (batchTask now s)) w)
      as (Hs & _).
    split; [now rewrite Hs|].
    unfold spawn. simpl.
    match goal with
    | |- context [advance ?id ?p ?w1] =>
        destruct (advance_history id p w1) as [rest Hr]
    end.
    rewrite Hr. simpl. rewrite <- app_assoc. simpl. eauto.
  - intros lokiUrl config now inputs w H.
    apply (exec_accounted inputs _ _ H).
Qed.

Lemma sendBatch_takes_batch_unless_flushing_witness :
  match exec world2 [InLog entry1; InLog entry2; InLog entry3; InTick 1] with
  | Some w =>
      Permutation [entry1; entry2; entry3]
        (concat (taken (history w)) ++ batch (sink w))
  | None => False
  end.
Proof.
  destruct (exec world2 [InLog entry1; InLog entry2; InLog entry3; InTick 1])
    as [w|] eqn:H.
  - exact (proj2 (proj2 (proj2 sendBatch_takes_batch_unless_flushing))
             "http://localhost:3100"
             (mkConfig None (Some 2) (Some 1) None None None None) 0
             [InLog entry1; InLog entry2; InLog entry3; InTick 1] w H).
  - vm_compute in H. discriminate H.
Defined.

(** *** [log] and the size threshold *)


(** The other case in which reaching the threshold sends nothing: a batch
    that [formatLokiPayload] cannot serialise is taken and lost, and the
    handler of [log] writes the [TypeError] on the console. *)
Lemma log_of_unserializable_batch_sends_nothing :
  match exec world2 [InLog entry1; InLog entry_bigint] with
  | Some w =>
      batch (sink w) = [] /\
      tasks w = [] /\
      requests (history w) = [] /\
      history w
      = [ObsTaken 0 [entry_bigint; entry1];
         ObsConsole "Failed to send Loki batch:"
           (ThrownError stringify_TypeError);
         ObsSettled 0 true]
  | None => False
  end.
Proof. vm_compute. repeat split; reflexivity. Qed.

Lemma forallb_Permutation {A} (p : A -> bool) l l' :
  Permutation l l' -> forallb p l = forallb p l'.
Proof.
  intros H. apply eq_true_iff_eq. rewrite !forallb_forall.
  split; intros Hp x Hx; apply Hp;
    [apply Permutation_sym in H|]; eapply Permutation_in; eauto.
Qed.

Lemma forallb_Array_sort (p : LogEntry -> bool) l :
  forallb p (Array_sort byTimestamp l) = forallb p l.
Proof. symmetry. apply forallb_Permutation, Array_sort_perm. Qed.

Lemma batchTask_body now s :
  task_body (batchTask now s)
  = if forallb (entry_serializable (staticLabels s))
         (Array_sort byTimestamp (batch s))
    then
      try_catch
        (retryWithBackoff
           (sendToLoki s
              (formatLokiPayload now (Array_sort byTimestamp (batch s))
                 (staticLabels s)))
           (retries s) 1000)
        (fun error =>
           ConsoleError
             (dropped_message (length (Array_sort byTimestamp (batch s)))
                (retries s))
             error (Ret tt))
    else Throw (ThrownError stringify_TypeError).
Proof.
  unfold batchTask. cbn [task_body]. rewrite formatLokiPayload_result_spec.
  now destruct (forallb (entry_serializable (staticLabels s))
                  (Array_sort byTimestamp (batch s))).
Qed.





(** *** [flush] *)

Lemma same_fields_batchTimer s s' :
  same_fields s s' -> batchTimer s' = batchTimer s.
Proof. unfold same_fields. intros ->. reflexivity. Qed.

Lemma step_timer_registered w i w' :
  step w i = Some w' -> timer_registered w -> timer_registered w'.
Proof.
  unfold timer_registered.
  destruct i as [e| |h|id o|id|j|now]; simpl; intros Hstep Hreg.
  - injection Hstep as <-.
    destruct (spawn_frame (log (clock w) e (sink w)) w)
      as (-> & _ & -> & _).
    now rewrite (same_fields_batchTimer _ _
                   (proj2 (log_conserves (clock w) e (sink w)))).
  - injection Hstep as <-. rewrite flush_never_sends. simpl.
    destruct (batchTimer (sink w)) as [h|] eqn:Hh;
      destruct (Nat.eqb (length (batch (sink w))) 0); simpl;
      rewrite ?Hh; rewrite Hreg; simpl;
      try (destruct (Nat.eq_dec h h); [reflexivity|congruence]);
      reflexivity.
  - destruct (existsb (Nat.eqb h) (timers w)); [|discriminate].
    injection Hstep as <-.
    destruct (spawn_frame (timerCallback (clock w) (sink w)) w)
      as (-> & _ & -> & _).
    now rewrite (same_fields_batchTimer _ _
                   (proj2 (timerCallback_conserves (clock w) (sink w)))).
  - destruct (find_task id (tasks w)) as [[]|]; try discriminate.
    injection Hstep as <-.
    destruct (advance_frame id (k o) w) as (-> & _ & -> & _). exact Hreg.
  - destruct (find_task id (tasks w)) as [[]|]; try discriminate.
    injection Hstep as <-.
    destruct (advance_frame id k w) as (-> & _ & -> & _). exact Hreg.
  - unfold flush_resume in Hstep.
    destruct (nth_error (waiters w) j) as [promise|]; [|discriminate].
    destruct (match promise with
              | Some id => find_settled id (settled w)
              | None => Some true
              end) as [[]|]; try discriminate;
      injection Hstep as <-; simpl; exact Hreg.
  - injection Hstep as <-. exact Hreg.
Qed.

Lemma step_timer_stays_cleared w i w' :
  step w i = Some w' ->
  batchTimer (sink w) = None -> batchTimer (sink w') = None.
Proof.
  destruct i as [e| |h|id o|id|j|now]; simpl; intros Hstep Hnone.
  - injection Hstep as <-.
    destruct (spawn_frame (log (clock w) e (sink w)) w) as (-> & _).
    now rewrite (same_fields_batchTimer _ _
                   (proj2 (log_conserves (clock w) e (sink w)))).
  - injection Hstep as <-. rewrite flush_never_sends. simpl. rewrite Hnone.
    destruct (Nat.eqb (length (batch (sink w))) 0); simpl; exact Hnone.
  - destruct (existsb (Nat.eqb h) (timers w)); [|discriminate].
    injection Hstep as <-.
    destruct (spawn_frame (timerCallback (clock w) (sink w)) w) as (-> & _).
    now rewrite (same_fields_batchTimer _ _
                   (proj2 (timerCallback_conserves (clock w) (sink w)))).
  - destruct (find_task id (tasks w)) as [[]|]; try discriminate.
    injection Hstep as <-.
    destruct (advance_frame id (k o) w) as (-> & _). exact Hnone.
  - destruct (find_task id (tasks w)) as [[]|]; try discriminate.
    injection Hstep as <-.
    destruct (advance_frame id k w) as (-> & _). exact Hnone.
  - unfold flush_resume in Hstep.
    destruct (nth_error (waiters w) j) as [promise|]; [|discriminate].
    destruct (match promise with
              | Some id => find_settled id (settled w)
              | None => Some true
              end) as [[]|]; try discriminate;
      injection Hstep as <-; simpl; exact Hnone.
  - injection Hstep as <-. exact Hnone.
Qed.

Lemma exec_timer_registered inputs :
  forall w w',
    exec w inputs = Some w' -> timer_registered w -> timer_registered w'.
Proof.
  induction inputs as [|i inputs IH]; simpl; intros w w' H Hreg.
  - now injection H as <-.
  - destruct (step w i) as [w1|] eqn:Hs; [|discriminate].
    eauto using step_timer_registered.
Qed.

Lemma exec_timer_stays_cleared inputs :
  forall w w',
    exec w inputs = Some w' ->
    batchTimer (sink w) = None -> batchTimer (sink w') = None.
Proof.
  induction inputs as [|i inputs IH]; simpl; intros w w' H Hnone.
  - now injection H as <-.
  - destruct (step w i) as [w1|] eqn:Hs; [|discriminate].
    eauto using step_timer_stays_cleared.
Qed.

(** Once [flush] has been called, the interval never fires again. *)
Lemma flush_stops_timer lokiUrl config now before after w h :
  exec (init lokiUrl config now) (before ++ InFlush :: after) = Some w ->
  timers w = [] /\ step w (InTick h) = None.
Proof.
  intros H.
  assert (Hsplit : exists w1 w2,
             exec (init lokiUrl config now) before = Some w1 /\
             step w1 InFlush = Some w2 /\ exec w2 after = Some w).
  { revert H. generalize (init lokiUrl config now).
    induction before as [|i before IH]; simpl; intros w0 H.
    - eauto.
    - destruct (step w0 i) as [w0'|]; [|discriminate].
      destruct (IH w0' H) as (w1 & w2 & H1 & H2 & H3). eauto. }
  destruct Hsplit as (w1 & w2 & H1 & H2 & H3).
  assert (Hreg : timer_registered w).
  { apply (exec_timer_registered after w2 w H3).
    apply (step_timer_registered w1 InFlush w2 H2).
    apply (exec_timer_registered before _ w1 H1). reflexivity. }
  assert (Hnone : batchTimer (sink w) = None).
  { apply (exec_timer_stays_cleared after w2 w H3).
    simpl in H2. injection H2 as <-. rewrite flush_never_sends. simpl.
    destruct (batchTimer (sink w1)) eqn:Hh;
      destruct (Nat.eqb (length (batch (sink w1))) 0); simpl;
      try reflexivity; exact Hh. }
  unfold timer_registered in Hreg. rewrite Hnone in Hreg.
  split; [exact Hreg|]. simpl. now rewrite Hreg.
Qed.

(** [flush()] on a transport with pending entries, resumed at once: it
    resolves, and the entries are where they were; nothing was taken and no
    request was issued. *)
Lemma flush_resolves_without_sending w :
  batch (sink w) <> [] ->
  exists w',
    exec w [InFlush; InResume (length (waiters w))] = Some w' /\
    history w' = history w ++ [ObsFlushed true] /\
    batch (sink w') = batch (sink w) /\
    isFlushing (sink w') = false /\
    tasks w' = tasks w.
Proof.
  intros Hne. simpl. rewrite flush_never_sends. simpl.
  destruct (batch (sink w)) as [|e l] eqn:Hb; [congruence|]. simpl.
  unfold flush_resume. simpl.
  rewrite nth_error_app2 by lia. rewrite Nat.sub_diag. simpl.
  eexists. split; [reflexivity|]. simpl.
  destruct (batchTimer (sink w)); simpl; rewrite Hb; auto.
Qed.

(** C1, at the input where it fails.  One entry is logged, [flush()] is
    called and resumes: it resolves with the entry still in the buffer.  No
    batch was taken, no request was issued; the timer is gone, so nothing
    will send the entry later. *)
Theorem flush_leaves_batch_unsent :
  match exec world_default [InLog entry1; InFlush; InResume 0] with
  | Some w =>
      history w = [ObsFlushed true] /\
      batch (sink w) = [entry1] /\
      isFlushing (sink w) = false /\
      taken (history w) = [] /\
      requests (history w) = [] /\
      tasks w = [] /\
      timers w = [] /\
      step w (InTick 1) = None
  | None => False
  end.
Proof. vm_compute. repeat split; reflexivity. Qed.

(** *** Retries of a batch *)







End TransportFacts.

(** ** The logger facade *)

Module LoggerFacts.
Export LoggerDefs.
Import JS Timestamp Types Formatters JSONLFacts.

(** The entry a level method dispatches. *)
Lemma log_dispatches lg ts lvl message metadata :
  Logger.transports (Logger.log lg ts lvl message metadata)
  = map (Logger.transport_log
           (Logger.createEntry lg ts lvl message metadata))
        (Logger.transports lg).
Proof. reflexivity. Qed.

(** A plain mapping as second argument is the metadata of the entry. *)
Lemma error_with_metadata lg ts message md rest :
  Logger.error lg ts message (Plain md :: rest)
  = Logger.log lg ts ERROR message (Some (Plain md)).
Proof. reflexivity. Qed.

(** An [Error] as second argument is taken for the metadata record, and
    whatever follows it is dropped. *)
Lemma error_with_Error lg ts message e rest :
  Logger.error lg ts message (ErrorInstance e :: rest)
  = Logger.log lg ts ERROR message (Some (ErrorInstance e)).
Proof. reflexivity. Qed.

Lemma logObject_of_Error ts lvl svc message e :
  err_own e = [] ->
  logObject (mkEntry ts lvl svc message (Some (ErrorInstance e)))
  = reserved_fields (mkEntry ts lvl svc message (Some (ErrorInstance e))).
Proof.
  intros H. unfold logObject, metadata_props. simpl. rewrite H. reflexivity.
Qed.

(** Whatever own enumerable properties an engine gives its [Error]
    instances, a key that is not among them and is not a reserved key is
    not in the emitted object. *)
Lemma error_line_lacks_key lg ts message e rest k :
  wf_obj (err_own e) ->
  obj_get k (err_own e) = None -> ~ In k reserved_keys ->
  Logger.error lg ts message (ErrorInstance e :: rest)
  = Logger.log lg ts ERROR message (Some (ErrorInstance e)) /\
  obj_get k (logObject (Logger.createEntry lg ts ERROR message
                          (Some (ErrorInstance e)))) = None.
Proof.
  intros Hwf Hk Hres. split; [reflexivity|].
  rewrite logObject_unfold.
  change (metadata_props _) with (err_own e).
  rewrite OrderedMapFacts.obj_get_spread by assumption. rewrite Hk.
  unfold reserved_keys in Hres. simpl in Hres. simpl.
  repeat match goal with
         | |- context [String.eqb k ?s] =>
             destruct (String.eqb_spec k s) as [->|?]; [tauto|]
         end.
  reflexivity.
Qed.

(** C2, at the input where it fails.  [error("msg", new Error("boom"))]
    writes a line made of the four reserved fields only: there is no
    [error], [errorName] or [errorStack].  With a third argument
    [{ code: 1 }] the line is the same: there is no [code] either. *)
Theorem error_drops_error_fields :
  let ts := "2025-01-01T00:00:00.000Z" in
  let lg1 := Logger.error file_logger ts "msg" [ErrorInstance boom] in
  let lg2 :=
    Logger.error file_logger ts "msg"
      [ErrorInstance boom; Plain [("code", JNum 1)]] in
  Logger.file_lines lg1 = [formatJSONL error_entry] /\
  Logger.file_lines lg2 = [formatJSONL error_entry] /\
  logObject error_entry
  = [("timestamp", JStr ts); ("level", JStr "error");
     ("service", JStr "svc"); ("message", JStr "msg")] /\
  obj_get "error" (logObject error_entry) = None /\
  obj_get "errorName" (logObject error_entry) = None /\
  obj_get "errorStack" (logObject error_entry) = None /\
  obj_get "code" (logObject error_entry) = None.
Proof. vm_compute. repeat split; reflexivity. Qed.

End LoggerFacts.

(** ** The label key determines the labels *)

Module LabelKeyFacts.
Export LabelKeyDefs.
Import JS Types Formatters OrderedMapFacts LokiFormatFacts.

Lemma unquote_escape_char c rest :
  unquote_body (escape_char c +:+ rest) = cons_char c (unquote_body rest).
Proof.
  destruct c as [[] [] [] [] [] [] [] []]; reflexivity.
Qed.

Lemma unquote_escape s rest :
  unquote_body (escape s +:+ String dquote rest) = Some (s, rest).
Proof.
  induction s as [|c s IH]; [reflexivity|].
  simpl escape. rewrite append_assoc, unquote_escape_char, IH. reflexivity.
Qed.

(** A string literal can be read back, whatever follows it. *)
Lemma quote_inj_rest s1 s2 r1 r2 :
  quote s1 +:+ r1 = quote s2 +:+ r2 -> s1 = s2 /\ r1 = r2.
Proof.
  unfold quote. simpl. rewrite !append_assoc. simpl.
  intros [= H]. apply (f_equal unquote_body) in H.
  rewrite !unquote_escape in H. now injection H.
Qed.

Lemma stringify_obj o :
  JSON_stringify (JObj o) = "{" +:+ join "," (members o) +:+ "}".
Proof. reflexivity. Qed.

Lemma members_string_valued o :
  string_valued o -> members o = map member_json o.
Proof.
  intros H. induction H as [|[k v] o [s Hs] _ IH]; [reflexivity|].
  simpl in Hs. subst v.
  change (members ((k, JStr s) :: o))
    with (member_json (k, JStr s) :: members o).
  now rewrite IH.
Qed.

Lemma stringify_string_valued o :
  string_valued o ->
  JSON_stringify (JObj o) = "{" +:+ join "," (map member_json o) +:+ "}".
Proof.
  intros H. now rewrite stringify_obj, members_string_valued.
Qed.

Lemma member_inj_rest kv1 kv2 r1 r2 :
  (exists s, snd kv1 = JStr s) -> (exists s, snd kv2 = JStr s) ->
  member_json kv1 +:+ r1 = member_json kv2 +:+ r2 ->
  kv1 = kv2 /\ r1 = r2.
Proof.
  destruct kv1 as [k1 v1], kv2 as [k2 v2]. cbn [snd].
  intros [s1 ->] [s2 ->]. unfold member_json. cbn [fst snd].
  change (JSON_stringify (JStr s1)) with (quote s1).
  change (JSON_stringify (JStr s2)) with (quote s2).
  rewrite !append_assoc. intros H.
  apply quote_inj_rest in H. destruct H as [-> H].
  change (String ":" (quote s1 +:+ r1) = String ":" (quote s2 +:+ r2)) in H.
  assert (H' : quote s1 +:+ r1 = quote s2 +:+ r2) by congruence.
  apply quote_inj_rest in H'. destruct H' as [-> ->]. auto.
Qed.

Lemma member_json_head kv :
  exists t, member_json kv = String dquote t.
Proof. unfold member_json, quote. simpl. eauto. Qed.

Lemma join_members_inj o1 :
  forall o2 r1 r2,
    string_valued o1 -> string_valued o2 ->
    join "," (map member_json o1) +:+ String "}" r1
    = join "," (map member_json o2) +:+ String "}" r2 ->
    o1 = o2 /\ r1 = r2.
Proof.
  induction o1 as [|kv1 o1 IH]; intros o2 r1 r2 H1 H2 H.
  - destruct o2 as [|kv2 o2]; [simpl in H; injection H; auto|].
    exfalso. simpl in H.
    destruct (member_json_head kv2) as [t Ht].
    destruct o2; rewrite Ht in H; simpl in H; vm_compute in H;
      discriminate H.
  - destruct o2 as [|kv2 o2].
    + exfalso. simpl in H.
      destruct (member_json_head kv1) as [t Ht].
      destruct o1; rewrite Ht in H; simpl in H; discriminate H.
    + inversion H1 as [|? ? Hv1 Ho1]; inversion H2 as [|? ? Hv2 Ho2]; subst.
      assert (Hcut : forall (o : Obj) kv r,
                 join "," (map member_json (kv :: o)) +:+ String "}" r
                 = member_json kv
                   +:+ match o with
                       | [] => String "}" r
                       | _ => String ","
                                (join "," (map member_json o) +:+ String "}" r)
                       end).
      { intros o kv r. destruct o; simpl; [reflexivity|].
        now rewrite !append_assoc. }
      rewrite !Hcut in H.
      apply member_inj_rest in H; auto. destruct H as [-> H].
      destruct o1 as [|kv1' o1], o2 as [|kv2' o2]; try discriminate H.
      * injection H as ->. auto.
      * injection H as H.
        destruct (IH (kv2' :: o2) r1 r2 Ho1 Ho2 H) as [-> ->]. auto.
Qed.

(** On string-valued objects, [JSON.stringify] is injective: the text
    fixes the keys, their order and their values. *)
Lemma stringify_string_valued_inj o1 o2 :
  string_valued o1 -> string_valued o2 ->
  JSON_stringify (JObj o1) = JSON_stringify (JObj o2) -> o1 = o2.
Proof.
  intros H1 H2. rewrite !stringify_string_valued by assumption.
  simpl. intros [= H].
  now destruct (join_members_inj o1 o2 EmptyString EmptyString H1 H2 H).
Qed.

Lemma string_valued_set k s o :
  string_valued o -> string_valued (obj_set k (JStr s) o).
Proof.
  unfold string_valued. induction o as [|[k' v'] o IH]; simpl; intros H.
  - repeat constructor. simpl. eauto.
  - inversion H; subst. destruct (String.eqb k k'); constructor; simpl; eauto.
Qed.

Lemma string_valued_spread target src :
  string_valued target -> string_valued src ->
  string_valued (obj_spread target src).
Proof.
  unfold obj_spread. revert target.
  induction src as [|[k v] src IH]; intros target Ht Hs; simpl; auto.
  inversion Hs as [|? ? [s Hv] Hs']; subst. simpl in Hv. subst v.
  apply IH; auto. now apply string_valued_set.
Qed.

Lemma labelsOf_string_valued staticLabels e :
  string_valued staticLabels -> string_event e ->
  string_valued (labelsOf staticLabels e).
Proof.
  intros Hs He. unfold labelsOf.
  apply string_valued_spread; auto.
  apply string_valued_spread.
  - repeat constructor; simpl; eauto.
  - destruct He as [-> | [s Hs']]; [constructor|].
    rewrite Hs'. destruct (truthy (JStr s)); repeat constructor; simpl; eauto.
Qed.

(** With string labels, two entries are in the same stream exactly when
    their label objects are the same, keys in the same order. *)
Lemma same_stream_iff_same_labels staticLabels e1 e2 :
  string_valued staticLabels -> string_event e1 -> string_event e2 ->
  labelKey staticLabels e1 = labelKey staticLabels e2 <->
  labelsOf staticLabels e1 = labelsOf staticLabels e2.
Proof.
  intros Hs H1 H2. unfold labelKey. split; [|now intros ->].
  apply stringify_string_valued_inj; now apply labelsOf_string_valued.
Qed.

(** *** Label sets *)

Lemma labelsOf_derived staticLabels e :
  labelsOf staticLabels e = obj_spread (derived_labels e) staticLabels.
Proof.
  unfold labelsOf, derived_labels. now destruct (truthy (event_of e)).
Qed.

Lemma spread_same_or_overwritten k pre post v1 v2 src :
  ~ In k (omap_keys pre) ->
  (obj_get k src = None -> v1 = v2) ->
  obj_spread (pre ++ (k, v1) :: post) src
  = obj_spread (pre ++ (k, v2) :: post) src.
Proof.
  intros Hpre Hv.
  destruct (obj_get k src) as [v|] eqn:Hk.
  - apply obj_spread_overwritten with (k := k).
    + exists pre, v1, v2, post. auto.
    + apply (omap_get_some_in _ _ _ Hk).
  - now rewrite (Hv eq_refl).
Qed.

(** When no static label is named [event], the label object is a function
    of the label set: entries with the same set of labels have the same
    label object, keys in the same order. *)
Lemma same_label_set_same_labels staticLabels e1 e2 :
  wf_obj staticLabels ->
  has_key "event" staticLabels = false ->
  same_label_set (labelsOf staticLabels e1) (labelsOf staticLabels e2) ->
  labelsOf staticLabels e1 = labelsOf staticLabels e2.
Proof.
  intros Hwf Hnoev Hsame. rewrite !labelsOf_derived in *.
  assert (Hget : forall e k,
             obj_get k (obj_spread (derived_labels e) staticLabels)
             = match obj_get k staticLabels with
               | Some v => Some v
               | None => obj_get k (derived_labels e)
               end)
    by (intros; now apply obj_get_spread).
  assert (Hev : obj_get "event" staticLabels = None).
  { unfold has_key in Hnoev. now destruct (obj_get "event" staticLabels). }
  assert (Hevent : (if truthy (event_of e1) then [("event", event_of e1)]
                    else [])
                   = (if truthy (event_of e2) then [("event", event_of e2)]
                      else [])).
  { pose proof (Hsame "event") as H. rewrite !Hget, Hev in H.
    unfold derived_labels in H.
    destruct (truthy (event_of e1)), (truthy (event_of e2));
      simpl in H; congruence. }
  assert (Hsvc : obj_get "service" staticLabels = None ->
                 JStr (service e1) = JStr (service e2)).
  { intros Hn. pose proof (Hsame "service") as H. rewrite !Hget, Hn in H.
    simpl in H. congruence. }
  assert (Hlvl : obj_get "level" staticLabels = None ->
                 JStr (level_string (level e1))
                 = JStr (level_string (level e2))).
  { intros Hn. pose proof (Hsame "level") as H. rewrite !Hget, Hn in H.
    simpl in H. congruence. }
  unfold derived_labels. rewrite Hevent.
  set (ev := if truthy (event_of e2) then [("event", event_of e2)] else []).
  transitivity
    (obj_spread
       ([("service", JStr (service e2));
         ("level", JStr (level_string (level e1)))] ++ ev) staticLabels).
  - apply (spread_same_or_overwritten "service" []); auto.
  - apply (spread_same_or_overwritten "level"
             [("service", JStr (service e2))]); auto.
    simpl. intuition discriminate.
Qed.

(** The grouping that the claim C6 describes, on the inputs where the code
    achieves it: when no static label is named [event], entries with the
    same label set are in one stream; and with string labels, the entries
    of one stream have the same label object. *)
Lemma one_stream_per_label_set staticLabels entries e1 e2 :
  wf_obj staticLabels ->
  has_key "event" staticLabels = false ->
  In e1 entries -> In e2 entries ->
  same_label_set (labelsOf staticLabels e1) (labelsOf staticLabels e2) ->
  exists g,
    In (labelKey staticLabels e1, g) (groupEntries staticLabels entries) /\
    In e1 g /\ In e2 g.
Proof.
  intros Hwf Hnoev H1 H2 Hsame.
  destruct (groupEntries_member staticLabels entries e1 H1)
    as (g & Hg & He1 & _).
  exists g. split; [exact Hg|]. split; [exact He1|].
  destruct (groupEntries_group _ _ _ _ Hg) as [-> _].
  rewrite filter_In. split; [exact H2|].
  unfold in_group, labelKey.
  rewrite (same_label_set_same_labels staticLabels e1 e2 Hwf Hnoev Hsame).
  apply String.eqb_refl.
Qed.

Lemma one_label_object_per_stream staticLabels entries e1 e2 k g :
  string_valued staticLabels -> string_event e1 -> string_event e2 ->
  In (k, g) (groupEntries staticLabels entries) ->
  In e1 g -> In e2 g ->
  labelsOf staticLabels e1 = labelsOf staticLabels e2.
Proof.
  intros Hs Hs1 Hs2 Hg H1 H2.
  destruct (groupEntries_group _ _ _ _ Hg) as [-> _].
  rewrite filter_In in H1, H2. unfold in_group in *.
  destruct H1 as [_ H1], H2 as [_ H2].
  apply String.eqb_eq in H1, H2.
  apply (same_stream_iff_same_labels staticLabels e1 e2); congruence.
Qed.

End LabelKeyFacts.

(** ** Further properties of the formatters *)

Module FormatterProps.
Export TextDefs.
Import JS Timestamp Types Formatters.
Import OrderedMapFacts JSONLFacts LokiFormatFacts LabelKeyFacts.

(** *** Key order under a spread *)

(** X1.  When no metadata key is an integer (the engine enumerates such
    keys before the others), the object that [formatJSONL] serialises has
    the four reserved keys first, in the order timestamp, level, service,
    message, followed by the metadata keys that are not reserved, in the
    order of the metadata: a metadata key that equals a reserved key
    neither moves nor repeats the key. *)
Theorem formatJSONL_key_order (entry : LogEntry) :
  wf_obj (metadata_props entry) ->
  no_integer_keys (metadata_props entry) ->
  omap_keys (logObject entry)
  = reserved_keys
    ++ filter (fun k => negb (existsb (String.eqb k) reserved_keys))
         (omap_keys (metadata_props entry)).
Proof.
  intros Hwf _. exact (logObject_keys entry Hwf).
Qed.

Lemma formatJSONL_key_order_witness :
  wf_obj (metadata_props entry_shadowed) /\
  no_integer_keys (metadata_props entry_shadowed) /\
  omap_keys (logObject entry_shadowed)
  = ["timestamp"; "level"; "service"; "message"; "x"].
Proof.
  assert (Hwf : wf_obj (metadata_props entry_shadowed)).
  { unfold wf_obj; simpl. repeat constructor; simpl; intuition discriminate. }
  split; [exact Hwf|]. split; [reflexivity|].
  rewrite (formatJSONL_key_order entry_shadowed Hwf eq_refl). reflexivity.
Defined.

(** *** The JSON text *)

(** Induction on values, with the hypothesis for every element of an array
    and every member of an object. *)
Lemma JSValue_nested_ind (P : JSValue -> Prop) :
  P JUndefined -> P JNull -> (forall b, P (JBool b)) ->
  (forall z, P (JNum z)) -> (forall s, P (JStr s)) ->
  (forall items, Forall P items -> P (JArr items)) ->
  (forall props, Forall (fun kv => P (snd kv)) props -> P (JObj props)) ->
  (forall n, P (JBigInt n)) -> P JCyclic ->
  forall v, P v.
Proof.
  intros HU HN HB HZ HS HA HO HI HC.
  fix IH 1. intros [ | |b|z|s|items|props|n| ].
  - exact HU.
  - exact HN.
  - apply HB.
  - apply HZ.
  - apply HS.
  - apply HA.
    exact ((fix F (l : list JSValue) : Forall P l :=
              match l with
              | [] => Forall_nil P
              | a :: l' => Forall_cons a (IH a) (F l')
              end) items).
  - apply HO.
    exact ((fix F (l : list (string * JSValue))
              : Forall (fun kv => P (snd kv)) l :=
              match l with
              | [] => Forall_nil _
              | (k, v) :: l' => Forall_cons (k, v) (IH v) (F l')
              end) props).
  - apply HI.
  - exact HC.
Qed.

Lemma printable_app a b : printable (a +:+ b) = andb (printable a) (printable b).
Proof.
  induction a as [|c a IH]; simpl; [reflexivity|].
  now rewrite IH, andb_assoc.
Qed.

Lemma escape_char_printable c : printable (escape_char c) = true.
Proof. destruct c as [[] [] [] [] [] [] [] []]; reflexivity. Qed.

Lemma escape_printable s : printable (escape s) = true.
Proof.
  induction s as [|c s IH]; simpl; [reflexivity|].
  now rewrite printable_app, escape_char_printable, IH.
Qed.

Lemma quote_printable s : printable (quote s) = true.
Proof.
  unfold quote. simpl. now rewrite printable_app, escape_printable.
Qed.

Lemma string_of_uint_printable d :
  printable (NilEmpty.string_of_uint d) = true.
Proof. induction d; simpl; auto. Qed.

Lemma string_of_Z_printable z : printable (string_of_Z z) = true.
Proof.
  unfold string_of_Z, NilZero.string_of_int, NilZero.string_of_uint.
  destruct (Z.to_int z) as [d|d]; destruct d;
    try reflexivity; simpl; apply string_of_uint_printable.
Qed.

Lemma join_printable sep parts :
  printable sep = true ->
  Forall (fun p => printable p = true) parts ->
  printable (join sep parts) = true.
Proof.
  intros Hsep H. induction H as [|p parts Hp H IH]; [reflexivity|].
  destruct parts as [|p' parts]; [exact Hp|].
  change (join sep (p :: p' :: parts))
    with (p +:+ sep +:+ join sep (p' :: parts)).
  now rewrite !printable_app, Hp, Hsep, IH.
Qed.

(** The text written by [JSON.stringify] holds no control character: line
    breaks and the like inside strings are written as escapes. *)
Lemma JSON_stringify_printable v : printable (JSON_stringify v) = true.
Proof.
  induction v as [ | |b|z|s|items IH|props IH|n| ] using JSValue_nested_ind;
    try reflexivity.
  - now destruct b.
  - apply string_of_Z_printable.
  - apply quote_printable.
  - change (JSON_stringify (JArr items))
      with ("[" +:+ join "," (map JSON_stringify items) +:+ "]").
    rewrite !printable_app, join_printable; auto.
    induction IH; simpl; constructor; auto.
  - rewrite stringify_obj. rewrite !printable_app, join_printable; auto.
    induction IH as [|[k v] props Hv _ IHp]; [constructor|].
    change (members ((k, v) :: props))
      with ((if is_undefined v then []
             else [quote k +:+ ":" +:+ JSON_stringify v]) ++ members props).
    destruct (is_undefined v); [exact IHp|].
    constructor; [|exact IHp].
    cbn [snd] in Hv. now rewrite !printable_app, quote_printable, Hv.
Qed.

(** X2.  A line written by [formatJSONL] is one line: the JSON text of the
    entry, in which no control character occurs (a line break inside the
    message or the metadata is written as an escape), followed by the one
    line feed that ends it. *)
Theorem formatJSONL_is_one_line (entry : LogEntry) :
  exists text,
    formatJSONL entry = text +:+ newline /\
    text = JSON_stringify (JObj (logObject entry)) /\
    printable text = true.
Proof.
  eexists. split; [reflexivity|]. split; [reflexivity|].
  apply JSON_stringify_printable.
Qed.

(** X3.  In a push payload every stream label text, every timestamp and
    every log line is free of control characters as well, whatever the
    messages and metadata of the entries hold. *)
Theorem formatLokiPayload_texts_printable
    (now : Z) (entries : list LogEntry) (staticLabels : Obj) :
  Forall (fun st =>
            printable (stream st) = true /\
            Forall (fun v => printable (fst v) = true /\
                             printable (snd v) = true) (values st))
         (streams (formatLokiPayload now entries staticLabels)).
Proof.
  rewrite formatLokiPayload_streams. rewrite Forall_map.
  rewrite Forall_forall. intros k Hk. simpl.
  rewrite in_first_occurrences, in_map_iff in Hk.
  destruct Hk as (e & <- & _). split.
  - apply JSON_stringify_printable.
  - rewrite Forall_map, Forall_forall. intros e' _.
    unfold streamValue. cbn [fst snd]. split.
    + unfold toNanoseconds.
      destruct (if String.eqb (timestamp e') EmptyString
                then Some now else getTime (timestamp e'));
        [apply string_of_Z_printable | reflexivity].
    + apply JSON_stringify_printable.
Qed.

(** *** Streams of a push payload *)

Lemma filter_or_disjoint {A} (p q : A -> bool) (l : list A) :
  (forall x, p x = true -> q x = true -> False) ->
  Permutation (filter (fun x => orb (p x) (q x)) l) (filter p l ++ filter q l).
Proof.
  intros Hd. induction l as [|a l IH]; simpl; [constructor|].
  destruct (p a) eqn:Hp, (q a) eqn:Hq; simpl.
  - exfalso; eauto.
  - now constructor.
  - now apply Permutation_cons_app.
  - exact IH.
Qed.

Lemma filter_all {A} (p : A -> bool) (l : list A) :
  (forall x, In x l -> p x = true) -> filter p l = l.
Proof.
  induction l as [|a l IH]; intros H; simpl; [reflexivity|].
  rewrite (H a) by now left. f_equal. apply IH. intros x Hx. apply H. now right.
Qed.

Lemma filter_none {A} (l : list A) : filter (fun _ => false) l = [].
Proof. induction l; simpl; auto. Qed.

(** Cutting a list into the sublists of its keys loses and repeats nothing. *)
Lemma partition_by_key {A} (f : A -> string) (l : list A) (ks : list string) :
  NoDup ks ->
  Permutation
    (concat (map (fun k => filter (fun x => String.eqb (f x) k) l) ks))
    (filter (fun x => existsb (String.eqb (f x)) ks) l).
Proof.
  induction 1 as [|k ks Hk Hnd IH]; simpl.
  - now rewrite filter_none.
  - eapply Permutation_trans; [apply Permutation_app_head, IH|].
    symmetry. apply filter_or_disjoint. intros x Hp Hq.
    apply String.eqb_eq in Hp. apply existsb_exists in Hq.
    destruct Hq as (k' & Hin & He). apply String.eqb_eq in He. congruence.
Qed.

(** X4.  The streams of a payload partition the entries: the stream label
    texts are pairwise distinct, no stream is empty, and taken together the
    values of the streams are the values of the entries, each once (nothing
    lost, nothing sent twice). *)
Theorem formatLokiPayload_partitions_entries
    (now : Z) (entries : list LogEntry) (staticLabels : Obj) :
  let ss := streams (formatLokiPayload now entries staticLabels) in
  NoDup (map stream ss) /\
  Forall (fun st => values st <> []) ss /\
  Permutation (concat (map values ss)) (map (streamValue now) entries).
Proof.
  cbv zeta. rewrite formatLokiPayload_streams.
  set (ks := first_occurrences (map (labelKey staticLabels) entries)).
  assert (Hks : forall k, In k ks <-> In k (map (labelKey staticLabels) entries))
    by (intros k; apply in_first_occurrences).
  split; [|split].
  - rewrite map_map. cbn [stream]. rewrite map_id.
    apply NoDup_first_occurrences.
  - rewrite Forall_map, Forall_forall. intros k Hk. cbn [values].
    apply Hks in Hk. rewrite in_map_iff in Hk. destruct Hk as (e & <- & He).
    assert (Hin : In (streamValue now e)
                    (map (streamValue now)
                       (filter (in_group staticLabels (labelKey staticLabels e))
                               entries))).
    { apply in_map, filter_In. split; [exact He|]. apply String.eqb_refl. }
    intros Hnil. rewrite Hnil in Hin. exact Hin.
  - rewrite map_map. cbn [values].
    rewrite <- (map_map (fun k => filter (in_group staticLabels k) entries)
                  (map (streamValue now))).
    rewrite <- concat_map. apply Permutation_map.
    eapply Permutation_trans;
      [exact (partition_by_key (labelKey staticLabels) entries ks
                (NoDup_first_occurrences _))|].
    rewrite filter_all; [reflexivity|].
    intros e He. apply existsb_exists. exists (labelKey staticLabels e).
    split; [|apply String.eqb_refl].
    apply Hks, in_map, He.
Qed.

(** X5.  The log line of a stream value is [{ message, ...metadata }]: a
    metadata property named [message] replaces the entry's message, and
    every other property of the line is the metadata's.  When no metadata
    key is an integer (the engine enumerates such keys before the others),
    the first key of the line is [message] and the other metadata keys
    follow in their own order. *)
Theorem logLine_metadata_overwrites_message (entry : LogEntry) :
  wf_obj (metadata_props entry) ->
  (no_integer_keys (metadata_props entry) ->
   omap_keys (logLine entry)
   = "message"
     :: filter (fun k => negb (String.eqb k "message"))
          (omap_keys (metadata_props entry))) /\
  obj_get "message" (logLine entry)
  = Some (match obj_get "message" (metadata_props entry) with
          | Some v => v
          | None => JStr (message entry)
          end) /\
  forall k, k <> "message" ->
    obj_get k (logLine entry) = obj_get k (metadata_props entry).
Proof.
  intros Hwf. unfold logLine. split; [|split].
  - intros _. rewrite obj_spread_keys by exact Hwf. unfold new_keys.
    change (obj_literal [("message", JStr (message entry))])
      with [("message", JStr (message entry))].
    cbn [omap_keys map fst app]. f_equal.
    apply filter_ext. intros k. unfold has_key. cbn [omap_get].
    now destruct (String.eqb k "message").
  - rewrite obj_get_spread by exact Hwf.
    now destruct (obj_get "message" (metadata_props entry)).
  - intros k Hk. rewrite obj_get_spread by exact Hwf.
    destruct (obj_get k (metadata_props entry)); [reflexivity|].
    change (obj_literal [("message", JStr (message entry))])
      with [("message", JStr (message entry))].
    cbn [omap_get]. now destruct (String.eqb_spec k "message").
Qed.

Lemma logLine_metadata_overwrites_message_witness :
  wf_obj (metadata_props entry_shadowed) /\
  no_integer_keys (metadata_props entry_shadowed) /\
  omap_keys (logLine entry_shadowed) = ["message"; "x"] /\
  obj_get "message" (logLine entry_shadowed) = Some (JStr "from metadata").
Proof.
  assert (Hwf : wf_obj (metadata_props entry_shadowed)).
  { unfold wf_obj. vm_compute. repeat constructor; simpl; intuition discriminate. }
  split; [exact Hwf|]. split; [reflexivity|].
  destruct (logLine_metadata_overwrites_message entry_shadowed Hwf)
    as (Hkeys & Hmsg & _).
  split; [rewrite (Hkeys eq_refl); reflexivity|].
  rewrite Hmsg. reflexivity.
Defined.

(** X6.  When the static labels are well formed and none of them is named
    [event], two entries of the input with the same label set have their
    values in one and the same stream of the payload. *)
Theorem formatLokiPayload_same_labels_one_stream
    (now : Z) (entries : list LogEntry) (staticLabels : Obj)
    (e1 e2 : LogEntry) :
  wf_obj staticLabels ->
  has_key "event" staticLabels = false ->
  In e1 entries -> In e2 entries ->
  same_label_set (labelsOf staticLabels e1) (labelsOf staticLabels e2) ->
  exists st,
    In st (streams (formatLokiPayload now entries staticLabels)) /\
    stream st = labelKey staticLabels e1 /\
    In (streamValue now e1) (values st) /\
    In (streamValue now e2) (values st).
Proof.
  intros Hwf Hnoev H1 H2 Hsame.
  rewrite formatLokiPayload_streams.
  exists (mkStream (labelKey staticLabels e1)
            (map (streamValue now)
               (filter (in_group staticLabels (labelKey staticLabels e1))
                       entries))).
  split; [|split; [reflexivity|]].
  - apply in_map_iff. exists (labelKey staticLabels e1). split; [reflexivity|].
    apply in_first_occurrences, in_map, H1.
  - cbn [values]. split; apply in_map, filter_In; (split; [assumption|]);
      unfold in_group, labelKey; [apply String.eqb_refl|].
    rewrite (same_label_set_same_labels staticLabels e1 e2 Hwf Hnoev Hsame).
    apply String.eqb_refl.
Qed.

Lemma formatLokiPayload_same_labels_one_stream_witness :
  exists st,
    In st (streams (formatLokiPayload 0
                      [entry_empty_event; entry_with_event; entry_no_event]
                      [("environment", JStr "prod")])) /\
    stream st = labelKey [("environment", JStr "prod")] entry_empty_event /\
    In (streamValue 0 entry_empty_event) (values st) /\
    In (streamValue 0 entry_no_event) (values st).
Proof.
  apply (formatLokiPayload_same_labels_one_stream 0
           [entry_empty_event; entry_with_event; entry_no_event]
           [("environment", JStr "prod")] entry_empty_event entry_no_event).
  - unfold wf_obj. simpl. repeat constructor; simpl; intuition discriminate.
  - reflexivity.
  - simpl; auto.
  - simpl; auto.
  - intros k. reflexivity.
Defined.

(** X7.  When the static labels and the [event] of the entries are strings,
    the label text of a stream stands for one label object: two entries
    whose values went to streams of the same label text have the same
    labels, key by key and in the same order. *)
Theorem formatLokiPayload_stream_text_determines_labels
    (staticLabels : Obj) (e1 e2 : LogEntry) :
  string_valued staticLabels -> string_event e1 -> string_event e2 ->
  labelKey staticLabels e1 = labelKey staticLabels e2 ->
  labelsOf staticLabels e1 = labelsOf staticLabels e2 /\
  omap_keys (labelsOf staticLabels e1) = omap_keys (labelsOf staticLabels e2).
Proof.
  intros Hs H1 H2 Hk.
  assert (H : labelsOf staticLabels e1 = labelsOf staticLabels e2)
    by now apply (same_stream_iff_same_labels staticLabels e1 e2).
  split; [exact H|now rewrite H].
Qed.

Lemma formatLokiPayload_stream_text_determines_labels_witness :
  labelsOf [("environment", JStr "prod")] entry_empty_event
  = labelsOf [("environment", JStr "prod")] entry_no_event /\
  omap_keys (labelsOf [("environment", JStr "prod")] entry_empty_event)
  = omap_keys (labelsOf [("environment", JStr "prod")] entry_no_event).
Proof.
  apply formatLokiPayload_stream_text_determines_labels.
  - repeat constructor; simpl; eauto.
  - left. reflexivity.
  - left. reflexivity.
  - reflexivity.
Defined.

End FormatterProps.

(** ** Further properties of the retry loop *)

Module RetryProps.
Export BackoffDefs.
Import JS Async Retry RetryFacts.

Section AnyEnvironment.
Context {Q A T : Type} (q : Q) (k : Outcome A -> Prog Q A T).
Context (env : nat -> Outcome A) (retries baseDelay : Z).
Hypothesis k_ends : forall o, (exists v, k o = Ret v) \/ (exists e, k o = Throw e).

(** The loop with [m] retries left, against any environment: it stops at
    the first invocation that succeeds, or after the last retry. *)
Lemma retry_loop_any_environment (m : nat) :
  forall (fuel n : nat) (attempt : Z) (lastError : option JSError),
    (m < fuel)%nat ->
    attempt + Z.of_nat m = retries ->
    exists c,
      (1 <= c <= S m)%nat /\
      (forall i, (i < c - 1)%nat -> exists e, k (env (n + i)) = Throw e) /\
      run env n (retry_loop (Call q k) retries baseDelay fuel attempt lastError)
      = (backoff_trace q baseDelay attempt c,
         ended (k (env (n + (c - 1)))), (n + c)%nat) /\
      (forall e, k (env (n + (c - 1))) = Throw e -> c = S m).
Proof.
  induction m as [|m IH]; intros fuel n attempt lastError Hfuel Hatt;
    (destruct fuel as [|fuel]; [lia|]).
  - assert (Hle : (attempt <=? retries) = true) by (apply Z.leb_le; lia).
    assert (Heq : (attempt =? retries) = true) by (apply Z.eqb_eq; lia).
    exists 1%nat. split; [lia|]. split; [intros i Hi; lia|].
    replace (n + (1 - 1))%nat with n by lia.
    replace (n + 1)%nat with (S n) by lia.
    split; [|reflexivity].
    cbn [retry_loop]. rewrite Hle. cbn [try_catch run].
    destruct (k_ends (env n)) as [[v Hv]|[e He]].
    + rewrite Hv. reflexivity.
    + rewrite He. cbn [try_catch]. rewrite Heq. reflexivity.
  - assert (Hle : (attempt <=? retries) = true) by (apply Z.leb_le; lia).
    assert (Heq : (attempt =? retries) = false) by (apply Z.eqb_neq; lia).
    destruct (k_ends (env n)) as [[v Hv]|[e He]].
    + exists 1%nat. split; [lia|]. split; [intros i Hi; lia|].
      replace (n + (1 - 1))%nat with n by lia.
      replace (n + 1)%nat with (S n) by lia.
      split; [|intros e He; congruence].
      cbn [retry_loop]. rewrite Hle. cbn [try_catch run].
      rewrite Hv. reflexivity.
    + destruct (IH fuel (S n) (attempt + 1) (Some (toError e)))
        as (c & Hc & Hrej & Hrun & Hlast); [lia|lia|].
      exists (S c). split; [lia|]. split; [|split].
      * intros i Hi. destruct i as [|i].
        -- exists e. now rewrite Nat.add_0_r.
        -- destruct (Hrej i) as [e' He']; [lia|]. exists e'.
           now replace (n + S i)%nat with (S n + i)%nat by lia.
      * cbn [retry_loop]. rewrite Hle. cbn [try_catch run].
        rewrite He. cbn [try_catch]. rewrite Heq. cbn [run].
        rewrite Hrun.
        replace (S n + (c - 1))%nat with (n + (S c - 1))%nat by lia.
        replace (S n + c)%nat with (n + S c)%nat by lia.
        destruct c as [|c]; [lia|]. reflexivity.
      * intros e' He'.
        replace (n + (S c - 1))%nat with (S n + (c - 1))%nat in He' by lia.
        now rewrite (Hlast e' He').
Qed.

(** [retryWithBackoff] against any environment. *)
Lemma retryWithBackoff_any_environment :
  0 <= retries ->
  exists c,
    (1 <= c <= S (Z.to_nat retries))%nat /\
    (forall i, (i < c - 1)%nat -> exists e, k (env i) = Throw e) /\
    run env 0 (retryWithBackoff (Call q k) retries baseDelay)
    = (backoff_trace q baseDelay 0 c, ended (k (env (c - 1)%nat)), c) /\
    (forall e, k (env (c - 1)%nat) = Throw e -> c = S (Z.to_nat retries)).
Proof.
  intros Hr. unfold retryWithBackoff.
  destruct (retry_loop_any_environment
              (Z.to_nat retries) (Z.to_nat (retries + 1)) 0 0 None)
    as (c & Hc & Hrej & Hrun & Hlast); [lia|lia|].
  exists c. split; [exact Hc|]. split; [exact Hrej|]. split; [exact Hrun|].
  exact Hlast.
Qed.

End AnyEnvironment.

(** X8.  With a negative retry count the loop body never runs: the function
    is not invoked once, nothing is slept, and the promise is rejected with
    [undefined] ([lastError] was never assigned), for every function. *)
Theorem retryWithBackoff_negative_retries_never_calls
    {Q A T : Type} (fn : Prog Q A T) (env : nat -> Outcome A)
    (retries baseDelay : Z) (n : nat) :
  retries < 0 ->
  run env n (retryWithBackoff fn retries baseDelay)
  = ([], Threw (ThrownValue "undefined"), n).
Proof.
  intros Hneg. unfold retryWithBackoff.
  replace (Z.to_nat (retries + 1)) with 0%nat by lia. reflexivity.
Qed.

Lemma retryWithBackoff_negative_retries_never_calls_witness :
  -1 < 0 /\
  run third_time_lucky 0 (retryWithBackoff (invoke tt) (-1) 1000)
  = ([], Threw (ThrownValue "undefined"), 0%nat).
Proof.
  split; [lia|].
  apply (retryWithBackoff_negative_retries_never_calls
           (invoke tt) third_time_lucky (-1) 1000 0).
  lia.
Defined.

(** X9.  Against every environment and for every retry count [r >= 0],
    [retryWithBackoff] settles after [c] invocations with
    [1 <= c <= r + 1]: the first [c - 1] were rejected, the events are the
    [c] invocations with the delay [baseDelay * 2^i] after the [i]-th
    rejection and nothing else, the result is that of the last invocation
    (its value, or its reason made an [Error]), and a rejection is only
    passed on when all [r + 1] invocations were made. *)
Theorem retryWithBackoff_settles_within_retries
    {Q T : Type} (q : Q) (env : nat -> Outcome T) (retries baseDelay : Z) :
  0 <= retries ->
  exists c,
    (1 <= c <= S (Z.to_nat retries))%nat /\
    (forall i, (i < c - 1)%nat -> exists e, env i = Rejected e) /\
    run env 0 (retryWithBackoff (invoke q) retries baseDelay)
    = (backoff_trace q baseDelay 0 c, attempt_result (env (c - 1)%nat), c) /\
    (forall e, env (c - 1)%nat = Rejected e -> c = S (Z.to_nat retries)).
Proof.
  intros Hr.
  destruct (retryWithBackoff_any_environment q
              (fun o => match o with
                        | Resolved a => Ret a
                        | Rejected e => Throw e
                        end)
              env retries baseDelay)
    as (c & Hc & Hrej & Hrun & Hlast).
  - intros [v|e]; eauto.
  - exact Hr.
  - exists c. split; [exact Hc|]. split; [|split].
    + intros i Hi. destruct (Hrej i Hi) as [e He].
      destruct (env i) as [v|e']; [discriminate|]. now exists e'.
    + unfold invoke. rewrite Hrun. now destruct (env (c - 1)%nat).
    + intros e He. apply (Hlast e). now rewrite He.
Qed.

Lemma retryWithBackoff_settles_within_retries_witness :
  exists c,
    (1 <= c <= S (Z.to_nat 3))%nat /\
    (forall i, (i < c - 1)%nat -> exists e, third_time_lucky i = Rejected e) /\
    run third_time_lucky 0 (retryWithBackoff (invoke tt) 3 1000)
    = (backoff_trace tt 1000 0 c, attempt_result (third_time_lucky (c - 1)%nat), c) /\
    (forall e, third_time_lucky (c - 1)%nat = Rejected e -> c = S (Z.to_nat 3)).
Proof.
  apply (retryWithBackoff_settles_within_retries tt third_time_lucky 3 1000).
  lia.
Defined.

Lemma total_delays d a m :
  0 <= a ->
  fold_right Z.add 0 (delays d a m) = d * 2 ^ a * (2 ^ Z.of_nat m - 1).
Proof.
  revert a. induction m as [|m IH]; intros a Ha.
  - simpl. lia.
  - cbn [delays fold_right]. rewrite IH by lia.
    rewrite Nat2Z.inj_succ, Z.pow_succ_r by lia.
    rewrite Z.pow_add_r by lia. change (2 ^ 1) with 2. lia.
Qed.

(** X10.  When every invocation is rejected, the time slept before
    [retryWithBackoff] gives up is [baseDelay * (2^retries - 1)]
    milliseconds: the delays 1, 2, 4, ... times [baseDelay] of the
    [retries] retries. *)
Theorem retryWithBackoff_total_delay
    {Q T : Type} (q : Q) (env : nat -> Outcome T) (retries baseDelay : Z) :
  0 <= retries ->
  (forall i, exists e, env i = Rejected e) ->
  total_delay (trace_of env (retryWithBackoff (invoke q) retries baseDelay))
  = baseDelay * (2 ^ retries - 1).
Proof.
  intros Hr Hfail. unfold total_delay, trace_of, invoke.
  rewrite retryWithBackoff_all_fail.
  - cbn [fst]. rewrite sleeps_backoff_trace, total_delays by lia.
    rewrite Z2Nat.id by lia. change (2 ^ 0) with 1. lia.
  - exact Hr.
  - intros i. destruct (Hfail i) as [e ->]. now exists e.
Qed.

Lemma retryWithBackoff_total_delay_witness :
  total_delay (trace_of always_refused (retryWithBackoff (invoke tt) 3 1000))
  = 1000 * (2 ^ 3 - 1).
Proof.
  apply (retryWithBackoff_total_delay tt always_refused 3 1000).
  - lia.
  - intros i. eexists. reflexivity.
Defined.

End RetryProps.

(** ** Further properties of the Loki transport *)

Module TransportProps.
Export DeliveryDefs.
Import JS Timestamp Types Formatters Async Retry LokiTransport.
Import RetryFacts SortFacts TransportFacts RetryProps.
Import LokiFormatFacts.

(** *** The request *)

Lemma strip_trailing_slash_app base :
  strip_trailing_slash (base +:+ "/") = base.
Proof.
  induction base as [|c base IH]; [reflexivity|].
  change (String c base +:+ "/") with (String c (base +:+ "/")).
  destruct base as [|c' base]; [reflexivity|].
  change (String c' base +:+ "/") with (String c' (base +:+ "/")) in *.
  cbn [strip_trailing_slash]. cbn [strip_trailing_slash] in IH.
  now rewrite IH.
Qed.

Lemma strip_trailing_slash_other base c :
  c <> "/"%char ->
  strip_trailing_slash (base +:+ String c EmptyString)
  = base +:+ String c EmptyString.
Proof.
  intros Hc. induction base as [|c0 base IH].
  - simpl. now destruct (Ascii.eqb_spec c "/").
  - change (String c0 base +:+ String c EmptyString)
      with (String c0 (base +:+ String c EmptyString)).
    destruct base as [|c' base].
    + simpl. now destruct (Ascii.eqb_spec c "/").
    + change (String c' base +:+ String c EmptyString)
        with (String c' (base +:+ String c EmptyString)) in *.
      cbn [strip_trailing_slash]. cbn [strip_trailing_slash] in IH.
      now rewrite IH.
Qed.

Lemma buildRequest_url s payload :
  req_url (buildRequest s payload) = lokiUrl s +:+ "/loki/api/v1/push".
Proof. unfold buildRequest. now destruct (compress s). Qed.

(** X11.  The constructor removes exactly one trailing slash from the URL,
    and nothing from a URL that ends otherwise; every request of the
    transport goes to that URL followed by [/loki/api/v1/push], so a base
    URL given with or without the slash leads to the same request URL. *)
Theorem create_strips_one_trailing_slash :
  (forall base, strip_trailing_slash (base +:+ "/") = base) /\
  (forall base c, c <> "/"%char ->
     strip_trailing_slash (base +:+ String c EmptyString)
     = base +:+ String c EmptyString) /\
  (forall base c config handle payload, c <> "/"%char ->
     let url := base +:+ String c EmptyString in
     req_url (buildRequest (create (url +:+ "/") config handle) payload)
     = url +:+ "/loki/api/v1/push" /\
     req_url (buildRequest (create url config handle) payload)
     = url +:+ "/loki/api/v1/push").
Proof.
  split; [exact strip_trailing_slash_app|].
  split; [exact strip_trailing_slash_other|].
  intros base c config handle payload Hc url.
  rewrite !buildRequest_url. unfold create, startBatchTimer.
  cbn [set_batchTimer lokiUrl]. unfold url.
  now rewrite strip_trailing_slash_app, strip_trailing_slash_other.
Qed.

(** X12.  In every request the body and the headers agree: the body is the
    gzip-compressed payload text exactly when a [Content-Encoding: gzip]
    header is sent (and the plain text otherwise), the content type is
    always JSON, an [Authorization] header is sent exactly when [basicAuth]
    is a non-empty string, and no header name is repeated. *)
Theorem buildRequest_headers_match_body
    (s : LokiTransport.t) (payload : LokiPushPayload) :
  let r := buildRequest s payload in
  omap_get "Content-Type" (req_headers r) = Some (Literal "application/json") /\
  (omap_get "Content-Encoding" (req_headers r) = Some (Literal "gzip") /\
   req_body r = GzipBody (payload_json payload) /\ compress s = true
   \/
   omap_get "Content-Encoding" (req_headers r) = None /\
   req_body r = TextBody (payload_json payload) /\ compress s = false) /\
  omap_get "Authorization" (req_headers r)
  = match basicAuth s with
    | Some cred =>
        if String.eqb cred EmptyString then None else Some (BasicAuth cred)
    | None => None
    end /\
  NoDup (omap_keys (req_headers r)) /\
  req_timeout r = timeout s.
Proof.
  cbv zeta. unfold buildRequest.
  destruct (compress s); destruct (basicAuth s) as [cred|];
    try destruct (String.eqb cred EmptyString);
    cbn; (split; [reflexivity|]); (split; [tauto|]);
    (split; [reflexivity|]); (split; [|reflexivity]);
    repeat constructor; simpl; intuition discriminate.
Qed.

(** *** A send under any behaviour of the network *)





(** X14.  No call of [sendBatch] made by [log] or by the interval callback
    leaves an unhandled rejection.  The promise of [sendBatch] is rejected
    only when [formatLokiPayload] throws; the handler attached with
    [.catch] then writes [Failed to send Loki batch:] with the [TypeError],
    once, and its promise is fulfilled.  When the batch can be serialised
    the handler never runs: against every environment the task does
    exactly what the task of [sendBatch] does, and is fulfilled. *)
Theorem sendBatch_rejection_is_caught
    (now : Z) (s : LokiTransport.t) (env : nat -> Outcome Response) (n : nat) :
  match snd (sendBatch now s), snd (sendBatch_caught now s) with
  | Some tk, Some tk' =>
      task_entries tk' = task_entries tk /\
      snd (fst (run env n (task_body tk'))) = Returned tt /\
      if forallb (entry_serializable (staticLabels s)) (batch s)
      then
        snd (fst (run env n (task_body tk))) = Returned tt /\
        run env n (task_body tk') = run env n (task_body tk)
      else
        run env n (task_body tk)
        = ([], Threw (ThrownError stringify_TypeError), n) /\
        run env n (task_body tk')
        = ([EvConsole "Failed to send Loki batch:"
              (ThrownError stringify_TypeError)],
           Returned tt, n)
  | None, None => True
  | _, _ => False
  end.
Proof.
  unfold sendBatch_caught.
  destruct (orb (Nat.eqb (length (batch s)) 0) (isFlushing s)) eqn:Hg.
  - unfold sendBatch. rewrite Hg. exact I.
  - apply orb_false_iff in Hg. destruct Hg as [Hlen Hfl].
    rewrite sendBatch_takes;
      [|destruct (batch s); [discriminate|discriminate]|exact Hfl].
    cbn [snd task_body task_entries].
    split; [reflexivity|]. split; [apply run_caught_returns|].
    rewrite run_try_catch, batchTask_body, forallb_Array_sort.
    destruct (forallb (entry_serializable (staticLabels s)) (batch s)).
    + match goal with
      | |- snd (fst (run env n ?body)) = _ /\ _ =>
          pose proof (run_caught_returns
                        (retryWithBackoff
                           (sendToLoki s
                              (formatLokiPayload now
                                 (Array_sort byTimestamp (batch s))
                                 (staticLabels s)))
                           (retries s) 1000)
                        (dropped_message
                           (length (Array_sort byTimestamp (batch s)))
                           (retries s)) env n) as Hret;
          destruct (run env n body) as [[tr res] n']
      end.
      cbn [fst snd] in Hret. subst res. split; reflexivity.
    + split; reflexivity.
Qed.

(** *** Invariants of the running transport *)

Lemma flush_results_app h1 h2 :
  flush_results (h1 ++ h2) = flush_results h1 ++ flush_results h2.
Proof. induction h1 as [|[] h1 IH]; simpl; congruence. Qed.

Lemma advance_flush_results id p w :
  flush_results (history (advance id p w)) = flush_results (history w).
Proof.
  revert w. induction p as [r|e|q k _|ms k _|msg err k IH]; intros w;
    simpl; try (rewrite flush_results_app; simpl; apply app_nil_r).
  rewrite IH. simpl. rewrite flush_results_app. simpl. apply app_nil_r.
Qed.

Lemma spawn_flush_results r w :
  flush_results (history (fst (spawn r w))) = flush_results (history w).
Proof.
  unfold spawn. destruct (snd r); simpl; [|reflexivity].
  rewrite advance_flush_results. simpl. rewrite flush_results_app. simpl.
  apply app_nil_r.
Qed.

Lemma same_fields_isFlushing s s' :
  same_fields s s' -> isFlushing s' = isFlushing s.
Proof. unfold same_fields. intros ->. reflexivity. Qed.

Lemma same_fields_batchSize s s' :
  same_fields s s' -> batchSize s' = batchSize s.
Proof. unfold same_fields. intros ->. reflexivity. Qed.

Lemma Forall_remove_nth {A} (P : A -> Prop) j (l : list A) :
  Forall P l -> Forall P (remove_nth j l).
Proof.
  intros H. revert j. induction H as [|x l Hx H IH]; intros [|j]; simpl;
    auto.
Qed.

Lemma step_flushes_fulfil w i w' :
  step w i = Some w' -> flushes_fulfil w -> flushes_fulfil w'.
Proof.
  unfold flushes_fulfil.
  destruct i as [e| |h|id o|id|j|now]; simpl; intros Hstep (Hw & Hr & Hf).
  - injection Hstep as <-. rewrite spawn_flush_results.
    destruct (spawn_frame (log (clock w) e (sink w)) w)
      as (-> & _ & _ & -> & _).
    rewrite (same_fields_isFlushing _ _
               (proj2 (log_conserves (clock w) e (sink w)))).
    auto.
  - injection Hstep as <-. rewrite flush_never_sends. cbv zeta.
    destruct (Nat.eqb (length (batch (sink w))) 0); cbn.
    + split; [exact Hw|]. split; [|discriminate].
      rewrite flush_results_app. apply Forall_app. split; [exact Hr|].
      repeat constructor.
    + split; [|split; [exact Hr|]].
      * apply Forall_app. split; [exact Hw|]. repeat constructor.
      * intros _ Hnil. apply app_eq_nil in Hnil. destruct Hnil. discriminate.
  - destruct (existsb (Nat.eqb h) (timers w)); [|discriminate].
    injection Hstep as <-. rewrite spawn_flush_results.
    destruct (spawn_frame (timerCallback (clock w) (sink w)) w)
      as (-> & _ & _ & -> & _).
    rewrite (same_fields_isFlushing _ _
               (proj2 (timerCallback_conserves (clock w) (sink w)))).
    auto.
  - destruct (find_task id (tasks w)) as [[]|]; try discriminate.
    injection Hstep as <-. rewrite advance_flush_results.
    destruct (advance_frame id (k o) w) as (-> & _ & _ & -> & _). auto.
  - destruct (find_task id (tasks w)) as [[]|]; try discriminate.
    injection Hstep as <-. rewrite advance_flush_results.
    destruct (advance_frame id k w) as (-> & _ & _ & -> & _). auto.
  - unfold flush_resume in Hstep.
    destruct (nth_error (waiters w) j) as [promise|] eqn:Hj; [|discriminate].
    assert (Hp : promise = None).
    { rewrite Forall_forall in Hw. apply Hw. eapply nth_error_In, Hj. }
    subst promise. injection Hstep as <-. cbn.
    split; [now apply Forall_remove_nth|]. split; [|discriminate].
    rewrite flush_results_app. apply Forall_app. split; [exact Hr|].
    repeat constructor.
  - injection Hstep as <-. cbn. auto.
Qed.

Lemma exec_flushes_fulfil inputs :
  forall w w',
    exec w inputs = Some w' -> flushes_fulfil w -> flushes_fulfil w'.
Proof.
  induction inputs as [|i inputs IH]; simpl; intros w w' H Hinv.
  - now injection H as <-.
  - destruct (step w i) as [w1|] eqn:Hs; [|discriminate].
    eauto using step_flushes_fulfil.
Qed.

(** X15.  In every run of a transport, [flush()] never waits for a request
    and is never rejected: each suspended call awaits a promise that is
    already fulfilled, each finished call was fulfilled, and whenever the
    flushing flag is set some suspended call is there to clear it, which
    it does as soon as it resumes. *)
Theorem flush_always_fulfils lokiUrl config now inputs w :
  exec (init lokiUrl config now) inputs = Some w ->
  Forall (fun b => b = true) (flush_results (history w)) /\
  Forall (fun promise => promise = None) (waiters w) /\
  (isFlushing (sink w) = true -> waiters w <> []) /\
  forall j, (j < length (waiters w))%nat ->
    exists w',
      step w (InResume j) = Some w' /\
      isFlushing (sink w') = false /\
      history w' = history w ++ [ObsFlushed true].
Proof.
  intros H.
  assert (Hinv : flushes_fulfil w).
  { apply (exec_flushes_fulfil inputs _ _ H).
    repeat split; [constructor|constructor|discriminate]. }
  destruct Hinv as (Hw & Hr & Hf).
  split; [exact Hr|]. split; [exact Hw|]. split; [exact Hf|].
  intros j Hj. cbn [step]. unfold flush_resume.
  destruct (nth_error (waiters w) j) as [promise|] eqn:Hn.
  - assert (Hp : promise = None).
    { rewrite Forall_forall in Hw. apply Hw. eapply nth_error_In, Hn. }
    subst promise. eexists. split; [reflexivity|]. split; reflexivity.
  - apply nth_error_None in Hn. lia.
Qed.

Lemma flush_always_fulfils_witness :
  exists w,
    exec world2 [InLog entry1; InFlush; InLog entry2] = Some w /\
    flush_results (history w) = [] /\
    waiters w = [None] /\
    exists w',
      step w (InResume 0) = Some w' /\
      isFlushing (sink w') = false /\
      history w' = history w ++ [ObsFlushed true].
Proof.
  destruct (exec world2 [InLog entry1; InFlush; InLog entry2]) as [w|] eqn:He;
    [|vm_compute in He; discriminate].
  exists w. split; [reflexivity|].
  assert (Hw : waiters w = [None])
    by (vm_compute in He; injection He as <-; reflexivity).
  assert (Hh : flush_results (history w) = [])
    by (vm_compute in He; injection He as <-; reflexivity).
  split; [exact Hh|]. split; [exact Hw|].
  apply (proj2 (proj2 (proj2
           (flush_always_fulfils "http://localhost:3100"
              (mkConfig None (Some 2) (Some 1) None None None None) 0
              [InLog entry1; InFlush; InLog entry2] w He)))).
  rewrite Hw. simpl. lia.
Defined.

Lemma log_below_threshold now e s :
  Z.of_nat (length (batch s) + 1) < batchSize s ->
  log now e s = (set_batch (batch s ++ [e]) s, None).
Proof.
  intros Hlt. unfold log. cbn [batch batchSize set_batch].
  rewrite length_app. cbn [length].
  destruct (Z.geb_spec (Z.of_nat (length (batch s) + 1)) (batchSize s));
    [lia|reflexivity].
Qed.

Lemma log_at_threshold now e s :
  isFlushing s = false ->
  Z.of_nat (length (batch s) + 1) >= batchSize s ->
  fst (log now e s) = set_batch [] s /\
  taken_of (log now e s) = [Array_sort byTimestamp (batch s ++ [e])].
Proof.
  intros Hfl Hge. unfold log. cbn [batch batchSize set_batch].
  rewrite length_app. cbn [length].
  destruct (Z.geb_spec (Z.of_nat (length (batch s) + 1)) (batchSize s));
    [|lia].
  rewrite sendBatch_caught_fst, sendBatch_caught_taken.
  rewrite sendBatch_takes.
  - split; reflexivity.
  - cbn [batch]. now destruct (batch s).
  - exact Hfl.
Qed.

Lemma timerCallback_cases now s :
  isFlushing s = false ->
  (batch s = [] /\ timerCallback now s = (s, None)) \/
  (batch s <> [] /\
   fst (timerCallback now s) = set_batch [] s /\
   taken_of (timerCallback now s) = [Array_sort byTimestamp (batch s)]).
Proof.
  intros Hfl. unfold timerCallback.
  destruct (batch s) as [|e l] eqn:Hb.
  - left. split; reflexivity.
  - right. split; [discriminate|].
    cbn [length]. destruct (Z.ltb_spec 0 (Z.of_nat (S (length l)))); [|lia].
    rewrite sendBatch_caught_fst, sendBatch_caught_taken.
    rewrite sendBatch_takes; [|now rewrite Hb|exact Hfl].
    split; [reflexivity|].
    unfold taken_of, batchTask. cbn [snd task_entries]. now rewrite Hb.
Qed.

Lemma step_buffer_bounded B w i w' :
  step w i = Some w' -> calls_flush i = false ->
  buffer_bounded B w -> buffer_bounded B w'.
Proof.
  unfold buffer_bounded.
  destruct i as [e| |h|id o|id|j|now]; simpl;
    intros Hstep Hnf (Hfl & HB & Hlen & Htk); try discriminate.
  - injection Hstep as <-.
    destruct (spawn_frame (log (clock w) e (sink w)) w)
      as (-> & _ & _ & _ & ->).
    destruct (Z_lt_ge_dec (Z.of_nat (length (batch (sink w)) + 1))
                (batchSize (sink w))) as [Hlt|Hge].
    + rewrite log_below_threshold by exact Hlt.
      cbn [fst taken_of snd isFlushing batchSize batch set_batch].
      rewrite app_nil_r, length_app. cbn [length].
      split; [exact Hfl|]. split; [exact HB|]. split; [lia|exact Htk].
    + destruct (log_at_threshold (clock w) e (sink w) Hfl Hge) as [-> ->].
      cbn [isFlushing batchSize batch set_batch length].
      split; [exact Hfl|]. split; [exact HB|]. split; [lia|].
      apply Forall_app. split; [exact Htk|].
      constructor; [|constructor]. split.
      * intros Hnil. apply (f_equal (@length _)) in Hnil.
        rewrite Array_sort_length, length_app in Hnil. simpl in Hnil. lia.
      * rewrite Array_sort_length, length_app. cbn [length]. lia.
  - destruct (existsb (Nat.eqb h) (timers w)); [|discriminate].
    injection Hstep as <-.
    destruct (spawn_frame (timerCallback (clock w) (sink w)) w)
      as (-> & _ & _ & _ & ->).
    destruct (timerCallback_cases (clock w) (sink w) Hfl)
      as [[Hb ->]|(Hb & -> & ->)].
    + cbn [fst taken_of snd]. rewrite app_nil_r. tauto.
    + cbn [isFlushing batchSize batch set_batch length].
      split; [exact Hfl|]. split; [exact HB|]. split; [lia|].
      apply Forall_app. split; [exact Htk|].
      constructor; [|constructor]. split.
      * intros Hnil. apply (f_equal (@length _)) in Hnil.
        rewrite Array_sort_length in Hnil. destruct (batch (sink w));
          [congruence|discriminate].
      * rewrite Array_sort_length. lia.
  - destruct (find_task id (tasks w)) as [[]|]; try discriminate.
    injection Hstep as <-.
    destruct (advance_frame id (k o) w) as (-> & _ & _ & _ & _ & ->). tauto.
  - destruct (find_task id (tasks w)) as [[]|]; try discriminate.
    injection Hstep as <-.
    destruct (advance_frame id k w) as (-> & _ & _ & _ & _ & ->). tauto.
  - unfold flush_resume in Hstep.
    destruct (nth_error (waiters w) j) as [promise|]; [|discriminate].
    destruct (match promise with
              | Some id => find_settled id (settled w)
              | None => Some true
              end) as [[]|]; try discriminate;
      injection Hstep as <-; cbn; rewrite taken_app, app_nil_r; tauto.
  - injection Hstep as <-. cbn. tauto.
Qed.

Lemma exec_buffer_bounded B inputs :
  forall w w',
    exec w inputs = Some w' -> existsb calls_flush inputs = false ->
    buffer_bounded B w -> buffer_bounded B w'.
Proof.
  induction inputs as [|i inputs IH]; simpl; intros w w' H Hnf Hinv.
  - now injection H as <-.
  - destruct (step w i) as [w1|] eqn:Hs; [|discriminate].
    apply orb_false_iff in Hnf. destruct Hnf as [Hi Hnf].
    eauto using step_buffer_bounded.
Qed.

(** X16.  As long as [flush()] is not called, a transport with a positive
    batch size [B] keeps fewer than [B] entries pending after every step,
    and every batch it takes (on reaching the threshold or on a timer tick)
    holds at least one and at most [B] entries. *)
Theorem batch_never_exceeds_batchSize lokiUrl config now inputs w :
  exec (init lokiUrl config now) inputs = Some w ->
  existsb calls_flush inputs = false ->
  1 <= nullish (cfg_batchSize config) 100 ->
  let B := nullish (cfg_batchSize config) 100 in
  batchSize (sink w) = B /\
  Z.of_nat (length (batch (sink w))) < B /\
  Forall (fun b => b <> [] /\ Z.of_nat (length b) <= B) (taken (history w)).
Proof.
  intros H Hnf HB B.
  assert (Hinv : buffer_bounded B w).
  { apply (exec_buffer_bounded B inputs _ _ H Hnf).
    unfold buffer_bounded, init, create, startBatchTimer. cbn.
    split; [reflexivity|]. split; [reflexivity|]. split; [unfold B; lia|].
    constructor. }
  destruct Hinv as (_ & H1 & H2 & H3). auto.
Qed.

Lemma batch_never_exceeds_batchSize_witness :
  exists w,
    exec world2 [InLog entry1; InLog entry2; InLog entry3; InTick 1] = Some w /\
    batchSize (sink w) = 2 /\
    Z.of_nat (length (batch (sink w))) < 2 /\
    Forall (fun b => b <> [] /\ Z.of_nat (length b) <= 2) (taken (history w)).
Proof.
  destruct (exec world2 [InLog entry1; InLog entry2; InLog entry3; InTick 1])
    as [w|] eqn:He; [|vm_compute in He; discriminate].
  exists w. split; [reflexivity|].
  apply (batch_never_exceeds_batchSize "http://localhost:3100"
           (mkConfig None (Some 2) (Some 1) None None None None) 0
           [InLog entry1; InLog entry2; InLog entry3; InTick 1] w He).
  - reflexivity.
  - simpl. lia.
Defined.

(** X17.  Once [flush()] has been called on a transport, its interval is
    cleared for good: in every later state the [batchTimer] field is
    [undefined], no interval is registered with the runtime, and no tick can
    reach the transport, whatever is logged afterwards. *)
Theorem flush_clears_interval_for_good
    lokiUrl config now before after w :
  exec (init lokiUrl config now) (before ++ InFlush :: after) = Some w ->
  batchTimer (sink w) = None /\
  timers w = [] /\
  forall h, step w (InTick h) = None.
Proof.
  intros H.
  assert (Hreg : timer_registered w).
  { apply (exec_timer_registered _ _ w H). reflexivity. }
  destruct (flush_stops_timer lokiUrl config now before after w 0 H)
    as [Ht _].
  unfold timer_registered in Hreg. rewrite Ht in Hreg.
  split; [|split; [exact Ht|]].
  - destruct (batchTimer (sink w)); [discriminate|reflexivity].
  - intros h. cbn [step]. now rewrite Ht.
Qed.

Lemma flush_clears_interval_for_good_witness :
  exists w,
    exec world2 ([InLog entry1] ++ InFlush :: [InResume 0; InLog entry2])
    = Some w /\
    batchTimer (sink w) = None /\
    timers w = [] /\
    forall h, step w (InTick h) = None.
Proof.
  destruct (exec world2 ([InLog entry1] ++ InFlush :: [InResume 0; InLog entry2]))
    as [w|] eqn:He; [|vm_compute in He; discriminate].
  exists w. split; [reflexivity|].
  exact (flush_clears_interval_for_good "http://localhost:3100"
           (mkConfig None (Some 2) (Some 1) None None None None) 0
           [InLog entry1] [InResume 0; InLog entry2] w He).
Defined.

End TransportProps.

(** ** Further properties of the logger *)

Module LoggerProps.
Export CallDefs.
Import JS Timestamp Types Formatters.
Import OrderedMapFacts JSONLFacts LoggerFacts.

Lemma log_all_service lg calls :
  Logger.service (log_all lg calls) = Logger.service lg.
Proof.
  revert lg. induction calls as [|c calls IH]; intros lg; [reflexivity|].
  unfold log_all in *. cbn [fold_left]. now rewrite IH.
Qed.

(** Each transport receives the entries of the calls, one after the
    other. *)
Lemma log_all_transports lg calls :
  Logger.transports (log_all lg calls)
  = map (fun tp =>
           fold_left
             (fun tp c => Logger.transport_log (entry_of (Logger.service lg) c) tp)
             calls tp)
        (Logger.transports lg).
Proof.
  revert lg. induction calls as [|c calls IH]; intros lg.
  - cbn. now rewrite map_id.
  - unfold log_all in *. cbn [fold_left]. rewrite IH.
    cbn [Logger.log Logger.transports Logger.service]. rewrite map_map.
    reflexivity.
Qed.

Lemma fold_console svc calls printed :
  fold_left (fun tp c => Logger.transport_log (entry_of svc c) tp) calls
    (Logger.ConsoleTransport printed)
  = Logger.ConsoleTransport (printed ++ map (entry_of svc) calls).
Proof.
  revert printed. induction calls as [|c calls IH]; intros printed.
  - cbn. now rewrite app_nil_r.
  - cbn [fold_left Logger.transport_log map]. rewrite IH.
    now rewrite <- app_assoc.
Qed.

Lemma fold_file svc calls path written :
  fold_left (fun tp c => Logger.transport_log (entry_of svc c) tp) calls
    (Logger.FileTransport path written)
  = Logger.FileTransport path
      (written
       ++ map (fun c => formatJSONL (entry_of svc c))
            (filter (call_serializable svc) calls)).
Proof.
  revert written. induction calls as [|c calls IH]; intros written.
  - cbn. now rewrite app_nil_r.
  - cbn [fold_left Logger.transport_log filter].
    rewrite formatJSONL_result_spec.
    destruct (call_serializable svc c) eqn:Hs;
      unfold call_serializable in Hs; rewrite Hs.
    + rewrite IH. cbn [map]. rewrite <- app_assoc. reflexivity.
    + apply IH.
Qed.

Lemma fold_loki svc calls w :
  exists w',
    fold_left (fun tp c => Logger.transport_log (entry_of svc c) tp) calls
      (Logger.Loki w)
    = Logger.Loki w'.
Proof.
  revert w. induction calls as [|c calls IH]; intros w.
  - now exists w.
  - cbn [fold_left Logger.transport_log]. apply IH.
Qed.

(** X18.  A logger applies no level filter and keeps the order of the
    calls: after any sequence of calls, the file transport (when the
    configuration enables one) has been given exactly one JSONL line for
    each call whose entry can be serialised, in call order, each for the
    entry of that call under the service name of the configuration, and no
    line for a call on which [formatJSONL] throws (a BigInt or a cycle in
    the metadata); the console transport (unless [enableConsole] is
    [false]) has printed the entries of all calls. *)
Theorem Logger_writes_every_call_in_order
    (config : Logger.LoggerConfig) (now : Z) (calls : list LogCall) :
  let lg := log_all (Logger.create config now) calls in
  let svc := Logger.cfg_service config in
  Logger.file_lines lg
  = (if file_enabled config
     then map (fun c => formatJSONL (entry_of svc c))
            (filter (call_serializable svc) calls)
     else []) /\
  console_entries lg
  = (if Logger.not_false (Logger.cfg_enableConsole config)
     then map (entry_of svc) calls else []).
Proof.
  cbv zeta. unfold Logger.file_lines, console_entries.
  rewrite log_all_transports.
  unfold Logger.create, file_enabled.
  cbn [Logger.transports Logger.service].
  destruct (Logger.not_false (Logger.cfg_enableConsole config));
    destruct (Logger.present (Logger.cfg_file config)) as [path|];
    try destruct (Logger.not_false (Logger.cfg_enableFile config));
    destruct (Logger.present (Logger.cfg_lokiUrl config)) as [url|];
    try destruct (Logger.not_false (Logger.cfg_enableLoki config));
    cbn [app map flat_map];
    rewrite ?fold_console, ?fold_file;
    try match goal with
        | |- context [fold_left ?f calls (Logger.Loki ?w)] =>
            destruct (fold_loki (Logger.cfg_service config) calls w)
              as [w' ->]
        end;
    cbn [app]; rewrite ?app_nil_r; split; reflexivity.
Qed.

(** X19.  The Loki transport of a logger gets the labels
    [{ ...lokiLabels, ...config.loki.labels }]: a label configured under
    [loki.labels] takes precedence over the [environment] and [host] of
    the logger configuration, which contribute a label only when they are
    non-empty strings. *)
Theorem Logger_loki_labels_precedence
    (config : Logger.LoggerConfig) (now : Z) :
  loki_enabled config = true ->
  wf_obj (config_labels config) ->
  exists w,
    loki_worlds (Logger.create config now) = [w] /\
    LokiTransport.staticLabels (LokiTransport.sink w)
    = obj_spread (Logger.lokiLabels config) (config_labels config) /\
    (forall k,
       obj_get k (LokiTransport.staticLabels (LokiTransport.sink w))
       = match obj_get k (config_labels config) with
         | Some v => Some v
         | None => obj_get k (Logger.lokiLabels config)
         end) /\
    Logger.lokiLabels config
    = match Logger.present (Logger.cfg_environment config) with
      | Some v => [("environment", JStr v)]
      | None => []
      end
      ++ match Logger.present (Logger.cfg_host config) with
         | Some v => [("host", JStr v)]
         | None => []
         end.
Proof.
  unfold loki_enabled. intros Hen Hwf.
  unfold loki_worlds, Logger.create. cbn [Logger.transports].
  destruct (Logger.present (Logger.cfg_lokiUrl config)) as [url|];
    [|discriminate].
  rewrite Hen. rewrite !flat_map_app.
  match goal with
  | |- context [flat_map ?f (if ?b then [Logger.ConsoleTransport []] else [])] =>
      replace (flat_map f (if b then [Logger.ConsoleTransport []] else []))
        with (@nil LokiTransport.World) by now destruct b
  end.
  match goal with
  | |- context [flat_map ?f
                  match ?o with
                  | Some path => if ?b then [Logger.FileTransport path []] else []
                  | None => []
                  end] =>
      replace (flat_map f
                 match o with
                 | Some path => if b then [Logger.FileTransport path []] else []
                 | None => []
                 end)
        with (@nil LokiTransport.World) by (destruct o; [now destruct b|reflexivity])
  end.
  cbn [app flat_map]. eexists. split; [reflexivity|].
  cbn [LokiTransport.init LokiTransport.sink LokiTransport.create
       LokiTransport.startBatchTimer LokiTransport.set_batchTimer
       LokiTransport.staticLabels LokiTransport.cfg_labels
       LokiTransport.nullish].
  split; [reflexivity|]. split.
  - intros k. apply obj_get_spread, Hwf.
  - unfold Logger.lokiLabels.
    destruct (Logger.present (Logger.cfg_environment config));
      destruct (Logger.present (Logger.cfg_host config)); reflexivity.
Qed.

Lemma Logger_loki_labels_precedence_witness :
  exists w,
    loki_worlds (Logger.create config_all 0) = [w] /\
    obj_get "environment" (LokiTransport.staticLabels (LokiTransport.sink w))
    = Some (JStr "staging") /\
    obj_get "host" (LokiTransport.staticLabels (LokiTransport.sink w))
    = Some (JStr "web-1").
Proof.
  assert (Hwf : wf_obj (config_labels config_all)).
  { unfold wf_obj. vm_compute. repeat constructor; simpl; intuition discriminate. }
  destruct (Logger_loki_labels_precedence config_all 0 eq_refl Hwf)
    as (w & Hw & _ & Hget & _).
  exists w. split; [exact Hw|]. split.
  - rewrite (Hget "environment"). reflexivity.
  - rewrite (Hget "host"). reflexivity.
Defined.

End LoggerProps.

(** ** From the batch to the streams *)

Module PipelineProps.
Import JS Timestamp Types Formatters Async Retry LokiTransport.
Import LokiFormatFacts SortFacts TransportFacts.
Import CallDefs LoggerProps.

Lemma StronglySorted_filter {A} (R : A -> A -> Prop) (p : A -> bool) l :
  StronglySorted R l -> StronglySorted R (filter p l).
Proof.
  induction 1 as [|a l Hs IH Ha]; simpl; [constructor|].
  destruct (p a); [|exact IH]. constructor; [exact IH|].
  rewrite Forall_forall in *. intros x Hx. apply Ha.
  now apply filter_In in Hx.
Qed.

Lemma toNanoseconds_valid now e :
  valid_timestamp e ->
  toNanoseconds now (timestamp e) = string_of_Z (time_ms e * 1000000).
Proof.
  unfold valid_timestamp, toNanoseconds, time_ms. intros Hv.
  destruct (String.eqb_spec (timestamp e) EmptyString) as [He|_].
  - rewrite He in Hv. now contradiction Hv.
  - now destruct (getTime (timestamp e)).
Qed.

(** X20.  Sorting and grouping compose: when the timestamps of the pending
    entries are readable, every stream of the payload that [sendBatch]
    builds holds entries of the batch with that stream's labels, at least
    one, in non-decreasing order of time, and the timestamp sent with each
    is its time in milliseconds times 1000000. *)
Theorem sendBatch_streams_chronological (now : Z) (s : LokiTransport.t) :
  batch s <> [] -> isFlushing s = false ->
  Forall valid_timestamp (batch s) ->
  exists tk,
    snd (sendBatch now s) = Some tk /\
    streams (task_payload tk) <> [] /\
    Forall
      (fun st =>
         exists es,
           values st = map (streamValue now) es /\
           es <> [] /\
           StronglySorted not_after es /\
           forall e, In e es ->
             In e (batch s) /\
             labelKey (staticLabels s) e = stream st /\
             fst (streamValue now e) = string_of_Z (time_ms e * 1000000))
      (streams (task_payload tk)).
Proof.
  intros Hne Hfl Hvalid.
  exists (batchTask now s). split; [now rewrite sendBatch_takes|].
  unfold batchTask. cbn [task_payload].
  set (entries := Array_sort byTimestamp (batch s)).
  assert (Hsome : entries <> []).
  { intros Hnil. apply (f_equal (@length _)) in Hnil. unfold entries in Hnil.
    rewrite Array_sort_length in Hnil. destruct (batch s);
      [congruence|discriminate]. }
  split.
  { rewrite formatLokiPayload_streams. destruct entries as [|e0 rest];
      [congruence|discriminate]. }
  assert (Hsorted : StronglySorted not_after entries).
  { apply (Array_sort_sorted byTimestamp time_ms valid_timestamp
             byTimestamp_keys). exact Hvalid. }
  assert (Hin : forall e, In e entries -> In e (batch s)).
  { intros e He. eapply Permutation_in; [|exact He].
    apply Permutation_sym, Array_sort_perm. }
  rewrite formatLokiPayload_streams, Forall_map, Forall_forall.
  intros k Hk. cbn [values stream].
  exists (filter (in_group (staticLabels s) k) entries).
  split; [reflexivity|]. split; [|split].
  - rewrite in_first_occurrences, in_map_iff in Hk.
    destruct Hk as (e & <- & He). intros Hnil.
    assert (Hf : In e (filter (in_group (staticLabels s)
                                 (labelKey (staticLabels s) e)) entries)).
    { apply filter_In. split; [exact He|]. apply String.eqb_refl. }
    rewrite Hnil in Hf. exact Hf.
  - now apply StronglySorted_filter.
  - intros e He. apply filter_In in He. destruct He as [He Hg].
    split; [now apply Hin|]. split; [now apply String.eqb_eq|].
    unfold streamValue. cbn [fst]. apply toNanoseconds_valid.
    rewrite Forall_forall in Hvalid. now apply Hvalid, Hin.
Qed.

Lemma sendBatch_streams_chronological_witness :
  batch sink_unsorted <> [] /\
  exists tk,
    snd (sendBatch 0 sink_unsorted) = Some tk /\
    streams (task_payload tk) <> [] /\
    Forall
      (fun st =>
         exists es,
           values st = map (streamValue 0) es /\
           es <> [] /\
           StronglySorted not_after es /\
           forall e, In e es ->
             In e (batch sink_unsorted) /\
             labelKey (staticLabels sink_unsorted) e = stream st /\
             fst (streamValue 0 e) = string_of_Z (time_ms e * 1000000))
      (streams (task_payload tk)).
Proof.
  assert (Hne : batch sink_unsorted <> []) by discriminate.
  split; [exact Hne|].
  apply (sendBatch_streams_chronological 0 sink_unsorted Hne eq_refl).
  repeat constructor; unfold valid_timestamp; vm_compute; discriminate.
Defined.

(** *** From the logger to the Loki transport *)

Lemma fold_loki_exec svc calls w :
  exists w',
    fold_left (fun tp c => Logger.transport_log (entry_of svc c) tp) calls
      (Logger.Loki w)
    = Logger.Loki w' /\
    exec w (map (fun c => InLog (entry_of svc c)) calls) = Some w'.
Proof.
  revert w. induction calls as [|c calls IH]; intros w.
  - exists w. split; reflexivity.
  - cbn [fold_left Logger.transport_log map exec step]. apply IH.
Qed.

Lemma logged_map_InLog {A} (f : A -> LogEntry) l :
  logged (map (fun c => InLog (f c)) l) = map f l.
Proof. induction l as [|a l IH]; simpl; congruence. Qed.

(** X23.  Every entry that a logger with a Loki transport is given reaches
    that transport and is held there exactly once: after any sequence of
    calls, the entries of the calls are, up to order, those of the batches
    taken so far together with those still pending. *)
Theorem Logger_entries_reach_loki
    (config : Logger.LoggerConfig) (now : Z) (calls : list LogCall) :
  loki_enabled config = true ->
  exists w,
    loki_worlds (log_all (Logger.create config now) calls) = [w] /\
    Permutation (map (entry_of (Logger.cfg_service config)) calls)
      (concat (taken (history w)) ++ batch (sink w)).
Proof.
  unfold loki_enabled, loki_worlds. intros Hen.
  rewrite log_all_transports. unfold Logger.create.
  cbn [Logger.transports Logger.service].
  destruct (Logger.present (Logger.cfg_lokiUrl config)) as [url|];
    [|discriminate].
  rewrite Hen.
  destruct (Logger.not_false (Logger.cfg_enableConsole config));
    destruct (Logger.present (Logger.cfg_file config)) as [path|];
    try destruct (Logger.not_false (Logger.cfg_enableFile config));
    cbn [app map flat_map];
    rewrite ?fold_console, ?fold_file;
    match goal with
    | |- context [fold_left ?f calls (Logger.Loki ?w)] =>
        destruct (fold_loki_exec (Logger.cfg_service config) calls w)
          as (w' & -> & Hexec)
    end;
    cbn [app]; exists w'; (split; [reflexivity|]);
    pose proof (exec_accounted _ _ _ Hexec) as HP;
    rewrite logged_map_InLog in HP; exact HP.
Qed.

Lemma Logger_entries_reach_loki_witness :
  exists w,
    loki_worlds
      (log_all (Logger.create config_all 0)
         [mkCall "2025-01-01T00:00:00.000Z" INFO "started" None])
    = [w] /\
    Permutation
      (map (entry_of (Logger.cfg_service config_all))
         [mkCall "2025-01-01T00:00:00.000Z" INFO "started" None])
      (concat (taken (history w)) ++ batch (sink w)).
Proof.
  apply (Logger_entries_reach_loki config_all 0
           [mkCall "2025-01-01T00:00:00.000Z" INFO "started" None]).
  reflexivity.
Defined.

End PipelineProps.

(** ** Timestamps and the console line *)

Module TextProps.
Import JS Timestamp Types Formatters Console.
Import SortDefs OrderedMapFacts LabelKeyFacts PipelineProps.

Lemma string_of_uint_revapp d d' :
  NilEmpty.string_of_uint (Decimal.revapp d d')
  = NilEmpty.string_of_uint (Decimal.rev d) +:+ NilEmpty.string_of_uint d'.
Proof.
  unfold Decimal.rev. revert d'.
  induction d as [|d IH|d IH|d IH|d IH|d IH|d IH|d IH|d IH|d IH|d IH];
    intros d'; [reflexivity|..];
    cbn [Decimal.revapp]; rewrite IH; symmetry; rewrite IH;
    now rewrite append_assoc.
Qed.

Lemma string_of_pos_tenfold p :
  NilEmpty.string_of_uint (Pos.to_uint (10 * p))
  = NilEmpty.string_of_uint (Pos.to_uint p) +:+ "0".
Proof.
  unfold Pos.to_uint.
  assert (H : Pos.to_little_uint (10 * p) = Decimal.D0 (Pos.to_little_uint p))
    by exact (DecimalPos.Unsigned.to_ldec_tenfold p).
  rewrite H. unfold Decimal.rev at 1. cbn [Decimal.revapp].
  now rewrite string_of_uint_revapp.
Qed.

Lemma string_of_Z_tenfold z :
  0 < z -> string_of_Z (10 * z) = string_of_Z z +:+ "0".
Proof.
  intros Hz. destruct z as [|p|p]; try lia.
  change (10 * Z.pos p) with (Z.pos (10 * p)).
  unfold string_of_Z, Z.to_int, NilZero.string_of_int, NilZero.string_of_uint.
  pose proof (DecimalPos.Unsigned.to_uint_nonnil p) as H1.
  pose proof (DecimalPos.Unsigned.to_uint_nonnil (10 * p)) as H2.
  destruct (Pos.to_uint p) eqn:E1; [congruence|..];
    (destruct (Pos.to_uint (10 * p)) eqn:E2; [congruence|..]);
    rewrite <- E1, <- E2; apply string_of_pos_tenfold.
Qed.

Lemma string_of_Z_million z :
  0 < z -> string_of_Z (z * 1000000) = string_of_Z z +:+ "000000".
Proof.
  intros Hz.
  replace (z * 1000000) with (10 * (10 * (10 * (10 * (10 * (10 * z))))))
    by lia.
  rewrite !string_of_Z_tenfold by lia.
  rewrite !append_assoc. reflexivity.
Qed.

(** X21.  The Loki timestamp of an entry is its time in milliseconds,
    written in decimal and followed by six zeros: the part below the
    millisecond is always zero.  This holds for a readable timestamp after
    the epoch, and for an entry without timestamp, which gets the clock
    value. *)
Theorem toNanoseconds_appends_six_zeros (now : Z) (e : LogEntry) :
  (valid_timestamp e -> 0 < time_ms e ->
   toNanoseconds now (timestamp e) = string_of_Z (time_ms e) +:+ "000000") /\
  (0 < now ->
   toNanoseconds now EmptyString = string_of_Z now +:+ "000000").
Proof.
  split.
  - intros Hv Hpos. rewrite toNanoseconds_valid by exact Hv.
    now apply string_of_Z_million.
  - intros Hpos. unfold toNanoseconds. cbn.
    now apply string_of_Z_million.
Qed.

Lemma toNanoseconds_appends_six_zeros_witness :
  valid_timestamp entry_early /\ 0 < time_ms entry_early /\
  toNanoseconds 0 (timestamp entry_early)
  = string_of_Z (time_ms entry_early) +:+ "000000".
Proof.
  assert (Hv : valid_timestamp entry_early)
    by (unfold valid_timestamp; vm_compute; discriminate).
  assert (Hp : 0 < time_ms entry_early) by (vm_compute; reflexivity).
  split; [exact Hv|]. split; [exact Hp|].
  exact (proj1 (toNanoseconds_appends_six_zeros 0 entry_early) Hv Hp).
Defined.

Lemma length_append a b :
  String.length (a +:+ b) = (String.length a + String.length b)%nat.
Proof. induction a as [|c a IH]; simpl; auto. Qed.

(** X22.  In a console line the message starts at the same column for
    every level: the level name is written in capitals and padded to five
    characters, so that what precedes the message is 28 characters longer
    than the time stamp, whatever the level.  The metadata are appended
    exactly when the entry has at least one own enumerable metadata
    property and [JSON.stringify] accepts the metadata; metadata that make
    it throw are left out, and the line is written all the same. *)
Theorem formatConsoleLog_aligns_message (stamp : string) (entry : LogEntry) :
  exists prefix label,
    formatConsoleLog stamp entry
    = prefix +:+ message entry +:+ formatMetadata (metadata entry) /\
    formatLevel (level entry)
    = getLevelColor (level entry) +:+ label +:+ Colors.Reset /\
    label = padEnd 5 (toUpperCase (level_string (level entry))) /\
    String.length label = 5%nat /\
    String.length prefix = (String.length stamp + 28)%nat /\
    (formatMetadata (metadata entry) = EmptyString
     <-> metadata_props entry = [] \/
         serializable (JObj (metadata_props entry)) = false) /\
    (metadata_props entry <> [] ->
     serializable (JObj (metadata_props entry)) = true ->
     formatMetadata (metadata entry)
     = " " +:+ Colors.Dim +:+ JSON_stringify (JObj (metadata_props entry))
           +:+ Colors.Reset).
Proof.
  exists (Colors.Gray +:+ "[" +:+ stamp +:+ "]" +:+ Colors.Reset +:+ " "
          +:+ formatLevel (level entry) +:+ ": "),
         (padEnd 5 (toUpperCase (level_string (level entry)))).
  split; [|split; [reflexivity|split; [reflexivity|split; [|split; [|split]]]]].
  - unfold formatConsoleLog. now rewrite !append_assoc.
  - now destruct (level entry).
  - rewrite !length_append.
    replace (String.length (formatLevel (level entry))) with 14%nat
      by now destruct (level entry).
    cbn. lia.
  - unfold formatMetadata, metadata_props.
    destruct (metadata entry) as [m|]; [|split; auto].
    destruct (own_enumerable m) as [|kv props];
      [cbn [omap_keys map length Nat.eqb]; split; auto|].
    cbn [omap_keys map length Nat.eqb]. unfold JSON_stringify_result.
    destruct (serializable (JObj (kv :: props))).
    + split; [discriminate|]. intros [H|H]; discriminate.
    + split; [now right|reflexivity].
  - unfold formatMetadata, metadata_props.
    destruct (metadata entry) as [m|]; [|congruence].
    destruct (own_enumerable m) as [|kv props]; [congruence|].
    intros _ Hs. cbn [omap_keys map length Nat.eqb].
    unfold JSON_stringify_result. now rewrite Hs.
Qed.

End TextProps.
